(** * MeshCore bot: the dispatch-and-delivery engine of [modules/command_manager.py]

  A shallow embedding of [CommandManager] and a verification of the
  properties its specification states about it.

  Conventions of the embedding.
  - A Python [str] is the list of its Unicode code points ([N]).
  - A Python [int] is a [Z]; [//] is [Z.div] (both round towards minus
    infinity), and a zero divisor raises [ZeroDivisionError].
  - A call that can raise returns an [outcome]; a [while] loop whose
    termination is not evident takes a [fuel] argument and answers
    [OutOfFuel] when it is exhausted.
  - A reading of the clock is a binary64 float, as [time.time()] returns
    it, and the age of the cache is computed with the subtraction and the
    comparison of the floats; a remaining cooldown, which is only compared
    with zero, is a rational ([Q]).
  - Calls of the logger are left out: they change no value the engine reads. *)

From Stdlib Require Import ZArith NArith QArith List Lia Lqa Bool.
From Stdlib Require String Ascii PrimFloat.
Import ListNotations String.StringSyntax.
Open Scope string_scope.
Open Scope Z_scope.

(** ** Python values *)

Module Py.

(** A Python [str]: a sequence of code points. *)
Definition str := list N.

Inductive exn :=
| UnicodeEncodeError
| ZeroDivisionError
| OtherError (what : str).

Inductive outcome (A : Type) :=
| Done (a : A)
| Raise (e : exn)
| OutOfFuel.
Arguments Done {A} a.
Arguments Raise {A} e.
Arguments OutOfFuel {A}.

Definition bind {A B} (m : outcome A) (k : A -> outcome B) : outcome B :=
  match m with
  | Done a => k a
  | Raise e => Raise e
  | OutOfFuel => OutOfFuel
  end.

(** [len(s)] *)
Definition len {A} (s : list A) : Z := Z.of_nat (length s).

(** The index a slice bound denotes: a negative bound counts from the end. *)
Definition slice_bound {A} (s : list A) (i : Z) : nat :=
  if i <? 0 then Z.to_nat (Z.max 0 (len s + i)) else Z.to_nat i.

(** [s[:i]] *)
Definition slice_to {A} (s : list A) (i : Z) : list A := firstn (slice_bound s i) s.

(** [s[i:]] *)
Definition slice_from {A} (s : list A) (i : Z) : list A := skipn (slice_bound s i) s.

Definition str_eqb (a b : str) : bool :=
  if list_eq_dec N.eq_dec a b then true else false.

(** [s.startswith(p)] *)
Fixpoint startswith (s p : str) : bool :=
  match p, s with
  | [], _ => true
  | _ :: _, [] => false
  | a :: p', b :: s' => N.eqb a b && startswith s' p'
  end.

(** The scan behind [find] and [rfind]: position [i] is the index of the
    head of [s] in the whole string. *)
Fixpoint find_from (i : Z) (s sub : str) : Z :=
  if startswith s sub then i
  else match s with
       | [] => -1
       | _ :: t => find_from (i + 1) t sub
       end.

Fixpoint rfind_from (i : Z) (s sub : str) (last : Z) : Z :=
  match s with
  | [] => if startswith s sub then i else last
  | _ :: t => rfind_from (i + 1) t sub (if startswith s sub then i else last)
  end.

(** [s.find(sub)]: the lowest index of an occurrence, [-1] when there is none. *)
Definition find (s sub : str) : Z := find_from 0 s sub.

(** [s.rfind(sub)]: the highest index of an occurrence, [-1] when there is none. *)
Definition rfind (s sub : str) : Z := rfind_from 0 s sub (-1).

(** [c.isspace()], the characters [strip], [lstrip] and [rstrip] remove. *)
Definition isspace (c : N) : bool :=
  ((9 <=? c) && (c <=? 13) || (28 <=? c) && (c <=? 32)
   || (c =? 133) || (c =? 160) || (c =? 5760)
   || (8192 <=? c) && (c <=? 8202)
   || (c =? 8232) || (c =? 8233) || (c =? 8239) || (c =? 8287)
   || (c =? 12288))%N.

(** [s.lstrip()] *)
Fixpoint lstrip (s : str) : str :=
  match s with
  | c :: t => if isspace c then lstrip t else s
  | [] => []
  end.

(** [s.rstrip()] *)
Definition rstrip (s : str) : str := rev (lstrip (rev s)).

(** [s.strip()] *)
Definition strip (s : str) : str := rstrip (lstrip s).

(** The number of bytes [c] takes in UTF-8; a surrogate has no encoding. *)
Definition utf8_width (c : N) : option Z :=
  if (c <? 128)%N then Some 1
  else if (c <? 2048)%N then Some 2
  else if (55296 <=? c)%N && (c <=? 57343)%N then None
  else if (c <? 65536)%N then Some 3
  else Some 4.

(** [len(s.encode('utf-8'))] *)
Fixpoint utf8_len (s : str) : outcome Z :=
  match s with
  | [] => Done 0
  | c :: t =>
      match utf8_width c with
      | None => Raise UnicodeEncodeError
      | Some w => bind (utf8_len t) (fun n => Done (w + n))
      end
  end.

(** A string literal of ASCII characters. *)
Fixpoint lit (s : String.string) : str :=
  match s with
  | String.EmptyString => []
  | String.String a t => Ascii.N_of_ascii a :: lit t
  end.

(** [str(n)] for an [int]: the decimal digits, most significant first. *)
Fixpoint digits_from (fuel : nat) (n : Z) (acc : str) : str :=
  match fuel with
  | O => acc
  | S f =>
      let acc' := (48 + Z.to_N (n mod 10))%N :: acc in
      if n <? 10 then acc' else digits_from f (n / 10) acc'
  end.

Definition str_of_int (n : Z) : str :=
  if n <? 0 then 45%N :: digits_from (S (Z.to_nat (Z.log2 (- n)))) (- n) []
  else digits_from (S (Z.to_nat (Z.log2 n))) n [].

End Py.

Import Py.

Notation "x <- m ;; k" := (bind m (fun x => k))
(at level 61, m at next level, right associativity).

Lemma str_eqb_eq (a b : str) : str_eqb a b = true <-> a = b.
Proof.
  unfold str_eqb. destruct (list_eq_dec N.eq_dec a b); split; congruence.
Qed.

(** ** The message splitter: [split_message] and [_find_byte_safe_split] *)

Module Splitter.

Definition MAX_MESSAGE_BYTES : Z := 150.

(** The binary search of [_find_byte_safe_split]: [while low < high]. *)
Fixpoint bisect (fuel : nat) (text : str) (max_bytes low high : Z) : outcome Z :=
  if low <? high then
    match fuel with
    | O => OutOfFuel
    | S f =>
        let mid := (low + high + 1) / 2 in
        n <- utf8_len (slice_to text mid) ;;
        if n <=? max_bytes then bisect f text max_bytes mid high
        else bisect f text max_bytes low (mid - 1)
    end
  else Done low.

(** The search interval has [len(text)] positions, and every round removes
    at least one: [len(text)] rounds are all the loop can make. *)
Definition _find_byte_safe_split (text : str) (max_bytes : Z) : outcome Z :=
  n <- utf8_len text ;;
  if n <=? max_bytes then Done (len text)
  else bisect (length text) text max_bytes 0 (len text).

(** [f"[{i}/{n}] "] *)
Definition part_prefix (i n : Z) : str :=
  lit "[" ++ str_of_int i ++ lit "/" ++ str_of_int n ++ lit "] ".

(** [for punct in puncts: ... break], with [None] for the [else] of the loop. *)
Fixpoint first_break (chunk : str) (puncts : list str) : option Z :=
  match puncts with
  | [] => None
  | punct :: rest =>
      let punct_pos := rfind chunk punct in
      if punct_pos >? len chunk / 2 then Some (punct_pos + len punct)
      else first_break chunk rest
  end.

(** The logical split point inside [chunk], or the byte-safe [split_index]. *)
Definition logical_split (chunk : str) (split_index : Z) : Z :=
  let newline_pos := rfind chunk [10%N] in
  if newline_pos >? len chunk / 2 then newline_pos + 1
  else
    match first_break chunk [lit ". "; lit "! "; lit "? "] with
    | Some i => i
    | None =>
        match first_break chunk [lit ", "; lit "; "] with
        | Some i => i
        | None =>
            let space_pos := rfind chunk (lit " ") in
            if space_pos >? len chunk / 2 then space_pos + 1 else split_index
        end
    end.

(** The variables the [while remaining] loop updates. *)
Record loop_state := { remaining : str; part_num : Z; parts : list str }.

Inductive flow :=
| Continue (st : loop_state)
| Break (parts : list str).

(** The index at which a round cuts [remaining]: the byte-safe index, moved
    back to a logical break when one lies past the middle of the chunk. *)
Definition split_point (remaining : str) (available_bytes : Z) : outcome Z :=
  split_index <- _find_byte_safe_split remaining available_bytes ;;
  let chunk := slice_to remaining split_index in
  Done (logical_split chunk split_index).

(** One round of the loop. *)
Definition loop_body (max_bytes estimated_parts : Z) (st : loop_state) : outcome flow :=
  let prefix := part_prefix (part_num st) estimated_parts in
  prefix_bytes <- utf8_len prefix ;;
  let available_bytes := max_bytes - prefix_bytes in
  n <- utf8_len (remaining st) ;;
  if n <=? available_bytes then
    Done (Break (parts st ++ [prefix ++ remaining st]))
  else
    split_index <- split_point (remaining st) available_bytes ;;
    let part_content := rstrip (slice_to (remaining st) split_index) in
    Done (Continue {| remaining := lstrip (slice_from (remaining st) split_index);
                      part_num := part_num st + 1;
                      parts := parts st ++ [prefix ++ part_content] |}).

Fixpoint while_remaining (fuel : nat) (max_bytes estimated_parts : Z) (st : loop_state)
  : outcome (list str) :=
  match remaining st with
  | [] => Done (parts st)
  | _ :: _ =>
      match fuel with
      | O => OutOfFuel
      | S f =>
          r <- loop_body max_bytes estimated_parts st ;;
          match r with
          | Break ps => Done ps
          | Continue st' => while_remaining f max_bytes estimated_parts st'
          end
      end
  end.

(** [for i, part in enumerate(parts, i)] of the renumbering pass. *)
Fixpoint renumber (i total : Z) (parts : list str) : list str :=
  match parts with
  | [] => []
  | part :: rest =>
      let old_prefix_end := find part (lit "] ") + 2 in
      let content_part := slice_from part old_prefix_end in
      (part_prefix i total ++ content_part) :: renumber (i + 1) total rest
  end.

Definition split_message (fuel : nat) (content : str) (max_bytes : option Z)
  : outcome (list str) :=
  let max_bytes := match max_bytes with None => MAX_MESSAGE_BYTES | Some m => m end in
  content_bytes <- utf8_len content ;;
  if content_bytes <=? max_bytes then Done [content]
  else
    let prefix_overhead := 7 in
    let effective_max := max_bytes - prefix_overhead in
    if effective_max =? 0 then Raise ZeroDivisionError
    else
      let estimated_parts := (content_bytes + effective_max - 1) / effective_max in
      parts <- while_remaining fuel max_bytes estimated_parts
                 {| remaining := content; part_num := 1; parts := [] |} ;;
      if negb (len parts =? estimated_parts) then
        Done (renumber 1 (len parts) parts)
      else Done parts.


(** *** Byte lengths of encodable strings *)

(** The width of a code point, [0] where it has no encoding. *)
Definition width (c : N) : Z :=
  match utf8_width c with Some w => w | None => 0 end.

(** The byte length of a string all of whose code points have an encoding. *)
Definition blen (s : str) : Z := fold_right (fun c n => width c + n) 0 s.

(** No lone surrogate: [s.encode('utf-8')] succeeds. *)
Definition encodable (s : str) : Prop := Forall (fun c => utf8_width c <> None) s.

Lemma width_range c : 0 <= width c <= 4.
Proof.
  unfold width, utf8_width.
  repeat match goal with |- context [if ?b then _ else _] => destruct b end; lia.
Qed.

Lemma width_pos c : utf8_width c <> None -> 1 <= width c.
Proof.
  unfold width, utf8_width.
  repeat match goal with |- context [if ?b then _ else _] => destruct b end;
    intros H; try lia; now elim H.
Qed.

Lemma utf8_len_encodable s : encodable s -> utf8_len s = Done (blen s).
Proof.
  induction 1 as [|c t Hc _ IH]; simpl; [reflexivity|].
  unfold width. destruct (utf8_width c); [|now elim Hc].
  now rewrite IH.
Qed.

Lemma utf8_len_Done s n : utf8_len s = Done n -> encodable s /\ n = blen s.
Proof.
  revert n. induction s as [|c t IH]; simpl; intros n H.
  - inversion H. split; [constructor | reflexivity].
  - unfold width. destruct (utf8_width c) eqn:Hc; [|discriminate].
    destruct (utf8_len t) eqn:Ht; simpl in H; try discriminate.
    inversion H; subst. destruct (IH _ eq_refl) as [He ->].
    split; [constructor; [congruence | assumption] | reflexivity].
Qed.

Lemma utf8_len_cases s :
  (encodable s /\ utf8_len s = Done (blen s)) \/ utf8_len s = Raise UnicodeEncodeError.
Proof.
  induction s as [|c t IH]; simpl.
  - left. split; [constructor | reflexivity].
  - destruct (utf8_width c) eqn:Hc; [|now right].
    destruct IH as [[He ->] | ->]; simpl; [left | now right].
    split; [constructor; [congruence | assumption] |].
    unfold width. now rewrite Hc.
Qed.

Lemma blen_nonneg s : 0 <= blen s.
Proof. induction s as [|c t IH]; simpl; [lia | pose proof (width_range c); lia]. Qed.

Lemma blen_app a b : blen (a ++ b) = blen a + blen b.
Proof. induction a as [|c t IH]; simpl; lia. Qed.

Lemma blen_bounds s : encodable s -> len s <= blen s <= 4 * len s.
Proof.
  unfold len. induction 1 as [|c t Hc _ IH]; simpl length; simpl blen; [lia|].
  pose proof (width_range c). pose proof (width_pos c Hc). lia.
Qed.

Lemma blen_firstn_le k s : blen (firstn k s) <= blen s.
Proof.
  rewrite <- (firstn_skipn k s) at 2. rewrite blen_app.
  pose proof (blen_nonneg (skipn k s)). lia.
Qed.

Lemma blen_firstn_mono j k s : (j <= k)%nat -> blen (firstn j s) <= blen (firstn k s).
Proof.
  intros H. replace (firstn j s) with (firstn j (firstn k s)).
  - apply blen_firstn_le.
  - rewrite firstn_firstn. f_equal. lia.
Qed.

Lemma blen_firstn_S k s : blen (firstn (S k) s) <= blen (firstn k s) + 4.
Proof.
  revert s. induction k as [|k IH]; intros [|c t]; simpl; try lia.
  - pose proof (width_range c). lia.
  - specialize (IH t). simpl in IH. lia.
Qed.

Lemma encodable_app a b : encodable a -> encodable b -> encodable (a ++ b).
Proof. intros Ha Hb. apply Forall_app. now split. Qed.

Lemma encodable_firstn k s : encodable s -> encodable (firstn k s).
Proof.
  intros H. rewrite <- (firstn_skipn k s) in H. now apply Forall_app in H.
Qed.

Lemma encodable_skipn k s : encodable s -> encodable (skipn k s).
Proof.
  intros H. rewrite <- (firstn_skipn k s) in H. now apply Forall_app in H.
Qed.

Lemma encodable_lstrip s : encodable s -> encodable (lstrip s).
Proof.
  induction 1 as [|c t Hc Ht IH]; simpl; [constructor|].
  destruct (isspace c); [assumption | now constructor].
Qed.

Lemma encodable_rstrip s : encodable s -> encodable (rstrip s).
Proof.
  intros H. unfold rstrip. apply Forall_rev, encodable_lstrip, Forall_rev, H.
Qed.

(** *** Slices at a bound that is not negative *)

Lemma slice_to_nonneg {A} (s : list A) i : 0 <= i -> slice_to s i = firstn (Z.to_nat i) s.
Proof.
  intros H. unfold slice_to, slice_bound.
  destruct (i <? 0) eqn:E; [apply Z.ltb_lt in E; lia | reflexivity].
Qed.

Lemma slice_from_nonneg {A} (s : list A) i : 0 <= i -> slice_from s i = skipn (Z.to_nat i) s.
Proof.
  intros H. unfold slice_from, slice_bound.
  destruct (i <? 0) eqn:E; [apply Z.ltb_lt in E; lia | reflexivity].
Qed.

Lemma slice_split {A} (s : list A) i : slice_to s i ++ slice_from s i = s.
Proof. apply firstn_skipn. Qed.

Lemma len_slice_to {A} (s : list A) i : 0 <= i <= len s -> len (slice_to s i) = i.
Proof.
  intros H. rewrite slice_to_nonneg by lia. unfold len in *.
  rewrite length_firstn. lia.
Qed.

(** *** The binary search *)

Lemma midpoint_range low high :
  low < high -> low < (low + high + 1) / 2 <= high.
Proof.
  intros H.
  pose proof (Z.div_mod (low + high + 1) 2 ltac:(lia)).
  pose proof (Z.mod_pos_bound (low + high + 1) 2 ltac:(lia)).
  lia.
Qed.

(** The search keeps [text[:low]] within the budget and [text[:high + 1]]
    above it, and ends where the two meet. *)
Lemma bisect_spec text max_bytes :
  encodable text ->
  forall fuel low high,
    0 <= low <= high -> high <= len text ->
    high - low <= Z.of_nat fuel ->
    blen (slice_to text low) <= max_bytes ->
    (high = len text \/ max_bytes < blen (slice_to text (high + 1))) ->
    exists r,
      bisect fuel text max_bytes low high = Done r /\
      low <= r <= high /\
      blen (slice_to text r) <= max_bytes /\
      (r = len text \/ max_bytes < blen (slice_to text (r + 1))).
Proof.
  intros Henc fuel. induction fuel as [|f IH]; intros low high Hlh Hhi Hfuel Hlow Hup.
  - simpl. destruct (low <? high) eqn:E; [apply Z.ltb_lt in E; lia|].
    apply Z.ltb_ge in E. assert (low = high) by lia; subst.
    exists high. repeat split; auto; lia.
  - simpl. destruct (low <? high) eqn:E.
    + apply Z.ltb_lt in E. pose proof (midpoint_range low high E) as Hm.
      set (mid := (low + high + 1) / 2) in *.
      assert (Hmid : encodable (slice_to text mid)) by apply encodable_firstn, Henc.
      rewrite (utf8_len_encodable _ Hmid). simpl.
      destruct (blen (slice_to text mid) <=? max_bytes) eqn:Hb.
      * apply Z.leb_le in Hb.
        destruct (IH mid high) as (r & Hr & Hrng & Hrest); try lia; auto.
        exists r. repeat split; auto; lia.
      * apply Z.leb_gt in Hb.
        destruct (IH low (mid - 1)) as (r & Hr & Hrng & Hrest); try lia; auto.
        { right. now replace (mid - 1 + 1) with mid by lia. }
        exists r. repeat split; auto; lia.
    + apply Z.ltb_ge in E. assert (low = high) by lia; subst.
      exists high. repeat split; auto; lia.
Qed.

Lemma slice_to_all {A} (s : list A) : slice_to s (len s) = s.
Proof.
  rewrite slice_to_nonneg by (unfold len; lia).
  unfold len. rewrite Nat2Z.id. apply firstn_all.
Qed.

Lemma slice_to_0 {A} (s : list A) : slice_to s 0 = [].
Proof. reflexivity. Qed.

(** [_find_byte_safe_split] answers the largest index whose prefix fits. *)
Lemma find_byte_safe_split_spec text max_bytes :
  encodable text -> 0 <= max_bytes ->
  exists r,
    _find_byte_safe_split text max_bytes = Done r /\
    0 <= r <= len text /\
    blen (slice_to text r) <= max_bytes /\
    (r = len text \/ max_bytes < blen (slice_to text (r + 1))).
Proof.
  intros Henc Hmax. unfold _find_byte_safe_split.
  rewrite (utf8_len_encodable _ Henc). simpl.
  destruct (blen text <=? max_bytes) eqn:E.
  - apply Z.leb_le in E. exists (len text).
    rewrite slice_to_all. unfold len. repeat split; auto; lia.
  - destruct (bisect_spec text max_bytes Henc (length text) 0 (len text))
      as (r & Hr & Hrng & Hrest); unfold len in *; try lia; auto.
    exists r. repeat split; auto; lia.
Qed.

(** *** Logical break points *)

Lemma startswith_len s p : startswith s p = true -> len p <= len s.
Proof.
  unfold len. revert s. induction p as [|a p IH]; intros [|b s]; simpl; intros H;
    try lia; try discriminate.
  apply andb_true_iff in H. destruct H as [_ H]. apply IH in H. lia.
Qed.

Lemma rfind_from_range s sub : forall i last,
  rfind_from i s sub last = last \/
  (i <= rfind_from i s sub last /\ rfind_from i s sub last + len sub <= i + len s).
Proof.
  induction s as [|c t IH]; intros i last.
  - change (rfind_from i [] sub last) with (if startswith [] sub then i else last).
    destruct (startswith [] sub) eqn:E; [right | now left].
    apply startswith_len in E. lia.
  - change (rfind_from i (c :: t) sub last)
      with (rfind_from (i + 1) t sub (if startswith (c :: t) sub then i else last)).
    destruct (IH (i + 1) (if startswith (c :: t) sub then i else last)) as [H | H].
    + rewrite H. destruct (startswith (c :: t) sub) eqn:E; [right | now left].
      apply startswith_len in E. lia.
    + right. unfold len in *. simpl length. lia.
Qed.

Lemma rfind_range s sub :
  rfind s sub = -1 \/ (0 <= rfind s sub /\ rfind s sub + len sub <= len s).
Proof. unfold rfind. apply rfind_from_range. Qed.

Lemma first_break_range chunk puncts i :
  first_break chunk puncts = Some i ->
  Forall (fun p => 1 <= len p) puncts ->
  2 <= i <= len chunk.
Proof.
  induction puncts as [|p rest IH]; simpl; intros H Hp; [discriminate|].
  inversion Hp; subst.
  destruct (rfind chunk p >? len chunk / 2) eqn:E; [|now apply IH].
  inversion H; subst. apply Z.gtb_lt in E.
  assert (0 <= len chunk / 2) by (apply Z.div_pos; unfold len; lia).
  destruct (rfind_range chunk p); lia.
Qed.

(** The logical split point never lies beyond the byte-safe one, and is the
    byte-safe one or at least [2]. *)
Lemma logical_split_range chunk split_index :
  len chunk = split_index ->
  logical_split chunk split_index <= split_index /\
  (logical_split chunk split_index = split_index \/ 2 <= logical_split chunk split_index).
Proof.
  intros Hlen. unfold logical_split.
  assert (Hhalf : 0 <= len chunk / 2) by (apply Z.div_pos; unfold len; lia).
  destruct (rfind chunk [10%N] >? len chunk / 2) eqn:E1.
  { apply Z.gtb_lt in E1. destruct (rfind_range chunk [10%N]) as [H|H];
      unfold len in *; simpl length in *; lia. }
  destruct (first_break chunk [lit ". "; lit "! "; lit "? "]) as [i|] eqn:E2.
  { apply first_break_range in E2; [lia|]. repeat constructor; unfold len; simpl; lia. }
  destruct (first_break chunk [lit ", "; lit "; "]) as [i|] eqn:E3.
  { apply first_break_range in E3; [lia|]. repeat constructor; unfold len; simpl; lia. }
  destruct (rfind chunk (lit " ") >? len chunk / 2) eqn:E4; [|lia].
  apply Z.gtb_lt in E4. destruct (rfind_range chunk (lit " ")) as [H|H];
    unfold len in *; simpl length in *; lia.
Qed.

(** The index a round cuts at: inside the text, its prefix within the budget,
    and at least [1] as soon as the budget holds any code point. *)
Lemma split_point_spec remaining available_bytes :
  encodable remaining -> 0 <= available_bytes ->
  exists i,
    split_point remaining available_bytes = Done i /\
    0 <= i <= len remaining /\
    blen (slice_to remaining i) <= available_bytes /\
    (4 <= available_bytes -> remaining <> [] -> 1 <= i).
Proof.
  intros Henc Hav. unfold split_point.
  destruct (find_byte_safe_split_spec remaining available_bytes Henc Hav)
    as (r & -> & Hrng & Hfit & Hmax). simpl.
  pose proof (logical_split_range (slice_to remaining r) r (len_slice_to _ _ Hrng)) as [Hle Hor].
  eexists. split; [reflexivity|].
  set (i := logical_split (slice_to remaining r) r) in *.
  assert (Hr1 : 4 <= available_bytes -> remaining <> [] -> 1 <= r).
  { intros H4 Hne. destruct Hmax as [-> | Hgt].
    - destruct remaining; [congruence | unfold len; simpl; lia].
    - destruct (Z.eq_dec r 0) as [-> | ]; [|lia].
      pose proof (blen_firstn_S 0 remaining) as Hs.
      rewrite slice_to_nonneg in Hgt by lia. simpl Z.to_nat in Hgt.
      change (Pos.to_nat 1) with 1%nat in Hgt. simpl firstn at 2 in Hs. simpl blen at 2 in Hs.
      lia. }
  repeat split.
  - destruct Hor; lia.
  - lia.
  - rewrite !slice_to_nonneg by (destruct Hor; lia).
    rewrite slice_to_nonneg in Hfit by lia.
    etransitivity; [|exact Hfit]. apply blen_firstn_mono. destruct Hor; lia.
  - intros H4 Hne. specialize (Hr1 H4 Hne). destruct Hor; lia.
Qed.

(** *** Part prefixes *)

(** Only characters of ASCII. *)
Definition ascii (s : str) : Prop := Forall (fun c => (c < 128)%N) s.

(** Characters of a decimal numeral: a digit or the minus sign. *)
Definition numeral (s : str) : Prop := Forall (fun c => (c < 128)%N /\ c <> 93%N) s.

Lemma digits_from_numeral fuel : forall n acc,
  numeral acc -> numeral (digits_from fuel n acc).
Proof.
  induction fuel as [|f IH]; intros n acc Hacc; simpl; [assumption|].
  assert (Hd : numeral ((48 + Z.to_N (n mod 10))%N :: acc)).
  { constructor; [|assumption].
    pose proof (Z.mod_pos_bound n 10 ltac:(lia)). lia. }
  destruct (n <? 10); [assumption | now apply IH].
Qed.

Lemma str_of_int_numeral n : numeral (str_of_int n).
Proof.
  unfold str_of_int. destruct (n <? 0).
  - constructor; [lia | apply digits_from_numeral; constructor].
  - apply digits_from_numeral; constructor.
Qed.

Lemma part_prefix_shape i n :
  exists body, numeral body /\ part_prefix i n = body ++ lit "] ".
Proof.
  exists (lit "[" ++ str_of_int i ++ lit "/" ++ str_of_int n). split.
  - apply Forall_app. split; [simpl; repeat constructor; lia|].
    apply Forall_app. split; [apply str_of_int_numeral|].
    apply Forall_app. split; [simpl; repeat constructor; lia | apply str_of_int_numeral].
  - unfold part_prefix. now rewrite <- !app_assoc.
Qed.

Lemma part_prefix_ascii i n : ascii (part_prefix i n).
Proof.
  destruct (part_prefix_shape i n) as (body & Hb & ->).
  apply Forall_app. split.
  - eapply Forall_impl; [|exact Hb]. now intros c [H _].
  - simpl. repeat constructor.
Qed.

Lemma ascii_encodable s : ascii s -> encodable s /\ blen s = len s.
Proof.
  unfold len. induction 1 as [|c t Hc _ [IHe IHb]]; simpl; [split; [constructor | reflexivity]|].
  assert (Hw : utf8_width c = Some 1).
  { unfold utf8_width. apply N.ltb_lt in Hc. now rewrite Hc. }
  split; [constructor; [congruence | assumption]|].
  unfold width. rewrite Hw. lia.
Qed.

Lemma part_prefix_bytes i n : utf8_len (part_prefix i n) = Done (len (part_prefix i n)).
Proof.
  destruct (ascii_encodable _ (part_prefix_ascii i n)) as [He Hb].
  now rewrite (utf8_len_encodable _ He), Hb.
Qed.

Lemma startswith_nil s : startswith s [] = true.
Proof. now destruct s. Qed.

(** The first ["] "] of a part is the end of its prefix. *)
Lemma find_from_numeral body rest : forall k,
  numeral body -> find_from k (body ++ lit "] " ++ rest) (lit "] ") = k + len body.
Proof.
  unfold len. induction body as [|c t IH]; intros k Hb.
  - simpl. rewrite startswith_nil. lia.
  - inversion Hb as [|? ? [_ Hc] Ht]; subst.
    change (find_from k ((c :: t) ++ lit "] " ++ rest) (lit "] "))
      with (if startswith (c :: t ++ lit "] " ++ rest) (lit "] ") then k
            else find_from (k + 1) (t ++ lit "] " ++ rest) (lit "] ")).
    assert (E : startswith (c :: t ++ lit "] " ++ rest) (lit "] ") = false).
    { change (startswith (c :: t ++ lit "] " ++ rest) (lit "] "))
        with (N.eqb 93 c && startswith (t ++ lit "] " ++ rest) [32%N]).
      destruct (N.eqb_spec 93 c); [congruence | reflexivity]. }
    rewrite E, IH by assumption. simpl length. lia.
Qed.

Lemma prefix_end i n body :
  slice_from (part_prefix i n ++ body) (find (part_prefix i n ++ body) (lit "] ") + 2) = body.
Proof.
  destruct (part_prefix_shape i n) as (b & Hb & E). rewrite E.
  unfold find. rewrite <- app_assoc, find_from_numeral by assumption.
  rewrite slice_from_nonneg by (unfold len; lia).
  replace (Z.to_nat (0 + len b + 2)) with (length (b ++ lit "] ")).
  - rewrite app_assoc. now rewrite skipn_app, skipn_all, Nat.sub_diag.
  - rewrite length_app. unfold len. simpl. lia.
Qed.

(** *** Stripped whitespace *)

(** Only whitespace. *)
Definition blank (s : str) : Prop := Forall (fun c => isspace c = true) s.

Lemma lstrip_decomp s : exists w, blank w /\ s = w ++ lstrip s.
Proof.
  induction s as [|c t (w & Hw & E)]; simpl.
  - exists []. split; [constructor | reflexivity].
  - destruct (isspace c) eqn:Hc.
    + exists (c :: w). split; [now constructor | simpl; congruence].
    + exists []. split; [constructor | reflexivity].
Qed.

Lemma rstrip_decomp s : exists w, blank w /\ s = rstrip s ++ w.
Proof.
  destruct (lstrip_decomp (rev s)) as (w & Hw & E).
  exists (rev w). split; [now apply Forall_rev|].
  unfold rstrip. rewrite <- rev_app_distr, <- E. now rewrite rev_involutive.
Qed.

Lemma lstrip_length s : (length (lstrip s) <= length s)%nat.
Proof.
  destruct (lstrip_decomp s) as (w & _ & E). rewrite E at 2. rewrite length_app. lia.
Qed.

Lemma blen_rstrip s : blen (rstrip s) <= blen s.
Proof.
  destruct (rstrip_decomp s) as (w & _ & E). rewrite E at 2. rewrite blen_app.
  pose proof (blen_nonneg w). lia.
Qed.

(** *** Rounds of the loop *)

Arguments part_prefix i n : simpl never.

(** The bytes a round has for the body of its part:
    [available_bytes = max_bytes - prefix_bytes]. *)
Definition available_bytes (max_bytes estimated_parts : Z) (st : loop_state) : outcome Z :=
  prefix_bytes <- utf8_len (part_prefix (part_num st) estimated_parts) ;;
  Done (max_bytes - prefix_bytes).

(** A round whose budget holds any single code point: at least four bytes. *)
Definition roomy (max_bytes estimated_parts : Z) (st : loop_state) : Prop :=
  exists a, available_bytes max_bytes estimated_parts st = Done a /\ 4 <= a.

(** [reach st st']: the loop started in [st] comes to the head of a round in [st']. *)
Inductive reach (max_bytes estimated_parts : Z) : loop_state -> loop_state -> Prop :=
| reach_here st : reach max_bytes estimated_parts st st
| reach_next st st1 st2 :
    remaining st <> [] ->
    loop_body max_bytes estimated_parts st = Done (Continue st1) ->
    reach max_bytes estimated_parts st1 st2 ->
    reach max_bytes estimated_parts st st2.

(** The bodies [bodies], each behind the prefix of its position, from [i] on. *)
Fixpoint numbered (i total : Z) (bodies : list str) : list str :=
  match bodies with
  | [] => []
  | b :: bs => (part_prefix i total ++ b) :: numbered (i + 1) total bs
  end.

(** Every body followed by its gap. *)
Fixpoint weave (bodies gaps : list str) : str :=
  match bodies, gaps with
  | b :: bs, g :: gs => b ++ g ++ weave bs gs
  | _, _ => []
  end.

Lemma available_bytes_eq max_bytes est st :
  available_bytes max_bytes est st = Done (max_bytes - len (part_prefix (part_num st) est)).
Proof. unfold available_bytes. now rewrite part_prefix_bytes. Qed.

Lemma roomy_iff max_bytes est st :
  roomy max_bytes est st <-> 4 <= max_bytes - len (part_prefix (part_num st) est).
Proof.
  unfold roomy. rewrite available_bytes_eq. split.
  - intros (a & E & H). inversion E; subst. exact H.
  - intros H. eexists. split; [reflexivity | exact H].
Qed.

(** What a round does when its budget is not negative. *)
Lemma loop_body_step max_bytes est st :
  encodable (remaining st) ->
  0 <= max_bytes - len (part_prefix (part_num st) est) ->
  let prefix := part_prefix (part_num st) est in
  let a := max_bytes - len prefix in
  (blen (remaining st) <= a /\
   loop_body max_bytes est st = Done (Break (parts st ++ [prefix ++ remaining st])))
  \/
  (a < blen (remaining st) /\
   exists i,
     split_point (remaining st) a = Done i /\
     0 <= i <= len (remaining st) /\
     blen (slice_to (remaining st) i) <= a /\
     (4 <= a -> remaining st <> [] -> 1 <= i) /\
     loop_body max_bytes est st =
       Done (Continue {| remaining := lstrip (slice_from (remaining st) i);
                         part_num := part_num st + 1;
                         parts := parts st ++ [prefix ++ rstrip (slice_to (remaining st) i)] |})).
Proof.
  intros Henc Ha prefix a. unfold loop_body.
  rewrite part_prefix_bytes, (utf8_len_encodable _ Henc). simpl.
  fold prefix. fold a.
  destruct (blen (remaining st) <=? a) eqn:E.
  - left. apply Z.leb_le in E. now split.
  - right. apply Z.leb_gt in E. split; [assumption|].
    destruct (split_point_spec (remaining st) a Henc Ha) as (i & Hi & Hrng & Hfit & Hpos).
    exists i. rewrite Hi. simpl. repeat split; auto; lia.
Qed.

Lemma reach_trans max_bytes est a b c :
  reach max_bytes est a b -> reach max_bytes est b c -> reach max_bytes est a c.
Proof.
  induction 1 as [|a a1 b Hne Hstep _ IH]; intros Hbc; [assumption|].
  eapply reach_next; eauto.
Qed.

(** The parts of a list all encode and stay within [max_bytes]. *)
Definition within (max_bytes : Z) (ps : list str) : Prop :=
  Forall (fun p => exists n, utf8_len p = Done n /\ n <= max_bytes) ps.

Lemma within_prefixed max_bytes prefix body :
  ascii prefix -> encodable body -> len prefix + blen body <= max_bytes ->
  exists n, utf8_len (prefix ++ body) = Done n /\ n <= max_bytes.
Proof.
  intros Hp Hb Hle. destruct (ascii_encodable _ Hp) as [Hpe Hpl].
  exists (blen (prefix ++ body)). split.
  - apply utf8_len_encodable, encodable_app; assumption.
  - rewrite blen_app. lia.
Qed.

(** The loop, run from any state whose rounds are all roomy, ends; it adds
    one numbered part per body, and the bodies with the whitespace trimmed
    between them are the text it was given. *)
Lemma while_remaining_spec max_bytes est : forall fuel st,
  (length (remaining st) <= fuel)%nat ->
  encodable (remaining st) ->
  (forall st', reach max_bytes est st st' -> remaining st' <> [] -> roomy max_bytes est st') ->
  exists bodies gaps,
    while_remaining fuel max_bytes est st
      = Done (parts st ++ numbered (part_num st) est bodies) /\
    length gaps = length bodies /\
    Forall blank gaps /\
    weave bodies gaps = remaining st /\
    within max_bytes (numbered (part_num st) est bodies).
Proof.
  induction fuel as [|f IH]; intros st Hlen Henc Hroomy.
  - destruct (remaining st) eqn:E; [|simpl in Hlen; lia].
    exists [], []. simpl. rewrite E, app_nil_r. repeat split; constructor.
  - destruct (remaining st) as [|c t] eqn:E.
    { exists [], []. simpl. rewrite E, app_nil_r. repeat split; constructor. }
    assert (Hne : remaining st <> []) by (rewrite E; discriminate).
    pose proof (Hroomy st (reach_here _ _ st) Hne) as Hr. apply roomy_iff in Hr.
    simpl while_remaining. rewrite E. rewrite <- E in *.
    destruct (loop_body_step max_bytes est st Henc ltac:(lia))
      as [[Hfit Hb] | [Hbig (i & Hsp & Hrng & Hfit & Hpos & Hb)]]; rewrite Hb; cbn [bind].
    + exists [remaining st], [[]]. cbn [numbered weave length]. rewrite !app_nil_r.
      repeat split; [repeat constructor|].
      constructor; [|constructor].
      apply within_prefixed; [apply part_prefix_ascii | assumption | lia].
    + specialize (Hpos Hr Hne).
      set (st1 := {| remaining := lstrip (slice_from (remaining st) i);
                     part_num := part_num st + 1;
                     parts := parts st ++ [part_prefix (part_num st) est
                                             ++ rstrip (slice_to (remaining st) i)] |}) in *.
      destruct (IH st1) as (bodies & gaps & Hrun & Hlg & Hblank & Hweave & Hwithin).
      * simpl. rewrite slice_from_nonneg by lia.
        pose proof (lstrip_length (skipn (Z.to_nat i) (remaining st))) as Hl.
        rewrite length_skipn in Hl. lia.
      * simpl. apply encodable_lstrip, encodable_skipn, Henc.
      * intros st' Hreach. apply Hroomy. eapply reach_next; eauto.
      * destruct (rstrip_decomp (slice_to (remaining st) i)) as (w1 & Hw1 & E1).
        destruct (lstrip_decomp (slice_from (remaining st) i)) as (w2 & Hw2 & E2).
        exists (rstrip (slice_to (remaining st) i) :: bodies), ((w1 ++ w2) :: gaps).
        rewrite Hrun. cbn [numbered weave length st1 parts part_num remaining].
        rewrite <- app_assoc. cbn [app].
        repeat split.
        -- now rewrite Hlg.
        -- constructor; [apply Forall_app; now split | assumption].
        -- simpl in Hweave. rewrite Hweave.
           rewrite <- (slice_split (remaining st) i) at 3.
           rewrite E1 at 2. rewrite E2 at 2. now rewrite <- !app_assoc.
        -- constructor; [|exact Hwithin].
           apply within_prefixed; [apply part_prefix_ascii | |].
           ++ apply encodable_rstrip, encodable_firstn, Henc.
           ++ pose proof (blen_rstrip (slice_to (remaining st) i)). lia.
Qed.

(** *** The renumbering pass *)

Lemma renumber_numbered bodies : forall i total j est,
  renumber i total (numbered j est bodies) = numbered i total bodies.
Proof.
  induction bodies as [|b bs IH]; intros i total j est; [reflexivity|].
  cbn [numbered renumber]. now rewrite prefix_end, IH.
Qed.

Lemma numbered_length bodies : forall i total, length (numbered i total bodies) = length bodies.
Proof. induction bodies as [|b bs IH]; intros; simpl; [reflexivity | now rewrite IH]. Qed.

Lemma numbered_nth bodies : forall i total k b,
  nth_error bodies k = Some b ->
  nth_error (numbered i total bodies) k = Some (part_prefix (i + Z.of_nat k) total ++ b).
Proof.
  induction bodies as [|b0 bs IH]; intros i total [|k] b H; simpl in H; try discriminate.
  - inversion H; subst. cbn [numbered nth_error]. now rewrite Z.add_0_r.
  - cbn [numbered nth_error]. rewrite (IH _ _ _ _ H). do 3 f_equal. lia.
Qed.

(** *** The whole of [split_message] *)

(** [estimated_parts], from the byte length of the content. *)
Definition estimate (content_bytes max_bytes : Z) : Z :=
  (content_bytes + (max_bytes - 7) - 1) / (max_bytes - 7).

(** The state in which the loop starts. *)
Definition start (content : str) : loop_state :=
  {| remaining := content; part_num := 1; parts := [] |}.

(** A content that does not fit is cut into bodies, one part each, numbered
    with the count of parts; what lies between two bodies is whitespace. *)
Lemma split_message_run content max_bytes n fuel :
  utf8_len content = Done n -> max_bytes < n -> max_bytes <> 7 ->
  (forall st, reach max_bytes (estimate n max_bytes) (start content) st ->
              remaining st <> [] -> roomy max_bytes (estimate n max_bytes) st) ->
  (length content <= fuel)%nat ->
  exists bodies gaps,
    split_message fuel content (Some max_bytes) = Done (numbered 1 (len bodies) bodies) /\
    length gaps = length bodies /\
    Forall blank gaps /\
    weave bodies gaps = content /\
    within max_bytes (numbered 1 (estimate n max_bytes) bodies).
Proof.
  intros Hn Hbig H7 Hroomy Hfuel.
  destruct (utf8_len_Done _ _ Hn) as [Henc ->].
  destruct (while_remaining_spec max_bytes (estimate (blen content) max_bytes) fuel (start content))
    as (bodies & gaps & Hrun & Hlg & Hblank & Hweave & Hwithin); auto.
  exists bodies, gaps. unfold split_message. rewrite Hn. cbn [bind].
  destruct (blen content <=? max_bytes) eqn:E; [apply Z.leb_le in E; lia|].
  destruct (max_bytes - 7 =? 0) eqn:E7; [apply Z.eqb_eq in E7; lia|].
  change ((blen content + (max_bytes - 7) - 1) / (max_bytes - 7))
    with (estimate (blen content) max_bytes).
  change {| remaining := content; part_num := 1; parts := [] |} with (start content).
  rewrite Hrun. cbn [bind start parts app part_num].
  assert (Hl : len (numbered 1 (estimate (blen content) max_bytes) bodies) = len bodies)
    by (unfold len; now rewrite numbered_length).
  rewrite Hl.
  destruct (len bodies =? estimate (blen content) max_bytes) eqn:El; cbn [negb].
  - apply Z.eqb_eq in El. rewrite <- El at 1. repeat split; auto.
  - apply Z.eqb_neq in El. rewrite renumber_numbered. repeat split; auto.
Qed.

(** *** A budget that makes every round roomy *)

Lemma digits_from_grows fuel : forall n acc,
  (length acc <= length (digits_from fuel n acc))%nat.
Proof.
  induction fuel as [|f IH]; intros n acc; simpl; [lia|].
  destruct (n <? 10); [simpl; lia|].
  etransitivity; [|apply IH]. simpl. lia.
Qed.

Lemma str_of_int_nonempty n : 1 <= len (str_of_int n).
Proof.
  unfold str_of_int, len. destruct (n <? 0); [cbn [length]; lia|].
  cbn [digits_from]. destruct (n <? 10); [cbn [length]; lia|].
  pose proof (digits_from_grows (Z.to_nat (Z.log2 n)) (n / 10)
                [(48 + Z.to_N (n mod 10))%N]) as H.
  cbn [length] in H. lia.
Qed.

Lemma digits_from_mono fa : forall fb a b acca accb,
  0 <= a <= b -> a < 2 ^ Z.of_nat fa -> b < 2 ^ Z.of_nat (S fb) ->
  (length acca <= length accb)%nat ->
  (length (digits_from fa a acca) <= length (digits_from (S fb) b accb))%nat.
Proof.
  induction fa as [|f IH]; intros fb a b acca accb Hab Ha Hb Hacc.
  - change (digits_from 0 a acca) with acca.
    etransitivity; [exact Hacc | apply digits_from_grows].
  - cbn [digits_from]. destruct (a <? 10) eqn:Ea.
    + destruct (b <? 10); [simpl; lia|].
      etransitivity; [|apply digits_from_grows]. simpl. lia.
    + apply Z.ltb_ge in Ea. destruct (b <? 10) eqn:Eb; [apply Z.ltb_lt in Eb; lia|].
      rewrite Nat2Z.inj_succ, Z.pow_succ_r in Ha, Hb by lia.
      assert (Hb10 : 1 <= b / 10) by (apply Z.div_le_lower_bound; lia).
      assert (Hbq : b / 10 < 2 ^ Z.of_nat fb)
        by (apply Z.div_lt_upper_bound; lia).
      destruct fb as [|fb']; [simpl in Hbq; lia|].
      apply IH.
      * split; [apply Z.div_pos; lia | apply Z.div_le_mono; lia].
      * apply Z.div_lt_upper_bound; lia.
      * exact Hbq.
      * simpl. lia.
Qed.

Lemma log2_fuel n : 0 <= n -> n < 2 ^ Z.of_nat (S (Z.to_nat (Z.log2 n))).
Proof.
  intros Hn. rewrite Nat2Z.inj_succ, Z2Nat.id by apply Z.log2_nonneg.
  destruct (Z.eq_dec n 0) as [-> | Hne]; [reflexivity|].
  apply Z.log2_spec. lia.
Qed.

(** A numeral is no longer than the numeral of a larger number. *)
Lemma str_of_int_mono a b : 0 <= a <= b -> len (str_of_int a) <= len (str_of_int b).
Proof.
  intros Hab. unfold len, str_of_int.
  destruct (a <? 0) eqn:Ea; [apply Z.ltb_lt in Ea; lia|].
  destruct (b <? 0) eqn:Eb; [apply Z.ltb_lt in Eb; lia|].
  apply Nat2Z.inj_le, digits_from_mono; auto using log2_fuel.
  - apply log2_fuel; lia.
  - apply log2_fuel; lia.
Qed.

Lemma part_prefix_len i n :
  len (part_prefix i n) = 4 + len (str_of_int i) + len (str_of_int n).
Proof.
  unfold part_prefix, len. rewrite !length_app. simpl length. lia.
Qed.

(** The budget under which a content of [content_bytes] bytes can be split:
    four bytes of body behind the longest prefix the loop can write. *)
Definition min_budget (content_bytes : Z) : Z := 8 + 2 * len (str_of_int content_bytes).

(** What the rounds of the loop preserve. *)
Definition progress (content : str) (st : loop_state) : Prop :=
  encodable (remaining st) /\ 1 <= part_num st /\
  part_num st + len (remaining st) <= 1 + len content.

Lemma progress_reach content max_bytes est :
  (forall i, 1 <= i <= len content -> 4 <= max_bytes - len (part_prefix i est)) ->
  forall st st', reach max_bytes est st st' -> progress content st -> progress content st'.
Proof.
  intros Hbudget st st' Hreach.
  induction Hreach as [|st st1 st2 Hne Hstep _ IH]; intros (Henc & H1 & Hsum); [now split|].
  apply IH. clear IH.
  assert (Hlen : 1 <= len (remaining st))
    by (destruct (remaining st); [congruence | unfold len; simpl; lia]).
  assert (Hr : 4 <= max_bytes - len (part_prefix (part_num st) est)) by (apply Hbudget; lia).
  destruct (loop_body_step max_bytes est st Henc ltac:(lia))
    as [[_ Hb] | [_ (i & _ & Hrng & _ & Hpos & Hb)]]; rewrite Hb in Hstep; [discriminate|].
  inversion Hstep; subst st1. clear Hstep. specialize (Hpos Hr Hne).
  unfold progress. cbn [remaining part_num]. repeat split.
  - apply encodable_lstrip, encodable_skipn, Henc.
  - lia.
  - rewrite slice_from_nonneg by lia.
    pose proof (lstrip_length (skipn (Z.to_nat i) (remaining st))) as Hl.
    rewrite length_skipn in Hl. unfold len in *. lia.
Qed.

Lemma estimate_range n max_bytes : 8 <= max_bytes -> 1 <= n -> 0 <= estimate n max_bytes <= n.
Proof.
  intros Hm Hn. unfold estimate. split.
  - apply Z.div_pos; lia.
  - apply Z.div_le_upper_bound; nia.
Qed.

(** Under the budget every round the loop comes to is roomy. *)
Lemma budget_roomy content max_bytes n :
  utf8_len content = Done n -> max_bytes < n -> min_budget n <= max_bytes ->
  forall st, reach max_bytes (estimate n max_bytes) (start content) st ->
             remaining st <> [] -> roomy max_bytes (estimate n max_bytes) st.
Proof.
  intros Hn Hbig Hbudget.
  destruct (utf8_len_Done _ _ Hn) as [Henc ->].
  pose proof (blen_bounds _ Henc) as Hb.
  assert (Hd : 1 <= len (str_of_int (blen content))).
  { pose proof (str_of_int_mono 0 (blen content) ltac:(pose proof (blen_nonneg content); lia)) as H.
    unfold len in H at 1. simpl in H. lia. }
  unfold min_budget in Hbudget.
  pose proof (estimate_range (blen content) max_bytes ltac:(lia) ltac:(lia)) as He.
  assert (Hall : forall i, 1 <= i <= len content ->
                 4 <= max_bytes - len (part_prefix i (estimate (blen content) max_bytes))).
  { intros i Hi. rewrite part_prefix_len.
    pose proof (str_of_int_mono i (blen content) ltac:(lia)).
    pose proof (str_of_int_mono (estimate (blen content) max_bytes) (blen content) ltac:(lia)).
    lia. }
  intros st Hreach Hne.
  destruct (progress_reach content max_bytes _ Hall _ _ Hreach) as (_ & H1 & Hsum).
  { unfold progress, start. cbn [remaining part_num]. repeat split; auto; lia. }
  apply roomy_iff, Hall.
  assert (1 <= len (remaining st))
    by (destruct (remaining st); [congruence | unfold len; simpl; lia]).
  lia.
Qed.

(** *** What the specification states of the splitter *)

(** The budget a call runs with: [max_bytes], or the transport ceiling. *)
Definition budget_of (max_bytes : option Z) : Z :=
  match max_bytes with None => MAX_MESSAGE_BYTES | Some m => m end.

Lemma fits_unchanged fuel content max_bytes n :
  utf8_len content = Done n -> n <= budget_of max_bytes ->
  split_message fuel content max_bytes = Done [content].
Proof.
  intros Hn Hle. unfold split_message. fold (budget_of max_bytes).
  rewrite Hn. cbn [bind]. apply Z.leb_le in Hle. now rewrite Hle.
Qed.

(** Under the budget a content that does not fit is cut into bodies, each
    sent behind the prefix of its position, with whitespace between them. *)
Lemma split_message_cut content max_bytes n :
  utf8_len content = Done n -> max_bytes < n -> min_budget n <= max_bytes ->
  exists bodies gaps,
    split_message (length content) content (Some max_bytes)
      = Done (numbered 1 (len bodies) bodies) /\
    length gaps = length bodies /\
    Forall blank gaps /\
    weave bodies gaps = content.
Proof.
  intros Hn Hbig Hbudget.
  assert (H7 : max_bytes <> 7).
  { unfold min_budget in Hbudget. pose proof (str_of_int_nonempty n). lia. }
  destruct (split_message_run content max_bytes n (length content) Hn Hbig H7)
    as (bodies & gaps & Hrun & Hlg & Hblank & Hweave & _); [now apply budget_roomy | lia |].
  exists bodies, gaps. repeat split; assumption.
Qed.

(** C7. A content whose UTF-8 encoding is at most the budget comes back as
    the only part, unchanged and without a part-number prefix. *)
Theorem split_message_fits fuel content max_bytes n :
  utf8_len content = Done n -> n <= budget_of max_bytes ->
  split_message fuel content max_bytes = Done [content].
Proof.
  intros Hn Hle. unfold split_message. fold (budget_of max_bytes).
  rewrite Hn. cbn [bind]. apply Z.leb_le in Hle. now rewrite Hle.
Qed.

Lemma split_message_fits_witness :
  utf8_len (lit "ping ok") = Done 7 /\
  split_message 0 (lit "ping ok") None = Done [lit "ping ok"].
Proof.
  split; [reflexivity|].
  apply (split_message_fits 0 (lit "ping ok") None 7); [reflexivity | vm_compute; discriminate].
Defined.

(** A text of 809 bytes: a first run of 144 letters, then nine words of 73
    letters with one space between them. *)
Definition crowded : str :=
  repeat 65%N 144 ++ concat (repeat (repeat 66%N 73 ++ [32%N]) 8) ++ repeat 66%N 73.

(** C1. At the transport ceiling of 150 bytes the estimate for [crowded] is 6
    parts and the loop makes 10: the renumbering pass writes ["[1/10] "] where
    the loop had budgeted for ["[1/6] "], and the first part takes 151 bytes. *)
Theorem split_message_over_budget :
  exists first rest,
    utf8_len crowded = Done 809 /\
    estimate 809 MAX_MESSAGE_BYTES = 6 /\
    split_message 10 crowded (Some MAX_MESSAGE_BYTES) = Done (first :: rest) /\
    len (first :: rest) = 10 /\
    first = part_prefix 1 10 ++ repeat 65%N 144 /\
    utf8_len first = Done 151.
Proof.
  eexists. eexists.
  split; [vm_compute; reflexivity|].
  split; [vm_compute; reflexivity|].
  split; [vm_compute; reflexivity|].
  repeat split; vm_compute; reflexivity.
Qed.

(** The parts exceed the budget only where the renumbering pass writes a
    longer total than the loop had budgeted for: as long as the count of
    parts has no more digits than the estimate, every part is within
    [max_bytes]. *)
Lemma within_renumbered max_bytes est total bodies : forall i,
  within max_bytes (numbered i est bodies) ->
  len (str_of_int total) <= len (str_of_int est) ->
  within max_bytes (numbered i total bodies).
Proof.
  induction bodies as [|b bs IH]; intros i Hw Hd; [constructor|].
  cbn [numbered] in *.
  pose proof (Forall_inv Hw) as (n & Hn & Hle). apply Forall_inv_tail in Hw.
  constructor; [|now apply IH].
  destruct (utf8_len_Done _ _ Hn) as [Henc ->].
  apply Forall_app in Henc. destruct Henc as [_ Hb].
  rewrite blen_app in Hle.
  destruct (ascii_encodable _ (part_prefix_ascii i est)) as [_ Hpl]. rewrite Hpl in Hle.
  apply within_prefixed; [apply part_prefix_ascii | assumption |].
  rewrite part_prefix_len in *. lia.
Qed.

Lemma split_message_within content max_bytes n :
  utf8_len content = Done n -> max_bytes < n -> min_budget n <= max_bytes ->
  exists parts,
    split_message (length content) content (Some max_bytes) = Done parts /\
    (len (str_of_int (len parts)) <= len (str_of_int (estimate n max_bytes)) ->
     within max_bytes parts).
Proof.
  intros Hn Hbig Hbudget.
  assert (H7 : max_bytes <> 7).
  { unfold min_budget in Hbudget. pose proof (str_of_int_nonempty n). lia. }
  destruct (split_message_run content max_bytes n (length content) Hn Hbig H7)
    as (bodies & gaps & Hrun & _ & _ & _ & Hw); [now apply budget_roomy | lia |].
  eexists. split; [exact Hrun|].
  assert (Hl : len (numbered 1 (len bodies) bodies) = len bodies)
    by (unfold len; now rewrite numbered_length).
  rewrite Hl. intros Hd. eapply within_renumbered; eauto.
Qed.

(** The body of a part, as the renumbering pass takes it:
    what follows the first ["] "]. *)
Definition body_of (part : str) : str :=
  slice_from part (find part (lit "] ") + 2).

(** Two runs of 100 letters with one space between them. *)
Definition two_words : str := repeat 65%N 100 ++ [32%N] ++ repeat 66%N 100.

(** C2, as stated, fails: the space at which [two_words] is cut belongs to
    no body, so the bodies put together are one character short. *)
Lemma split_message_drops_whitespace :
  exists parts,
    split_message 2 two_words None = Done parts /\
    concat (map body_of parts) <> two_words /\
    concat (map (fun p => strip (body_of p)) parts) <> two_words /\
    len (concat (map body_of parts)) = len two_words - 1.
Proof.
  eexists. split; [vm_compute; reflexivity|].
  repeat split; vm_compute; congruence.
Qed.

(** C2, amended. Under the budget the content is cut into bodies with only
    whitespace between and after them: every body followed by the
    whitespace trimmed behind it gives back the content. A content that
    fits is its own single body; otherwise every body is sent behind the
    prefix of its position. *)
Theorem split_message_bodies content max_bytes n :
  utf8_len content = Done n -> min_budget n <= max_bytes ->
  exists bodies gaps,
    split_message (length content) content (Some max_bytes)
      = Done (if n <=? max_bytes then bodies else numbered 1 (len bodies) bodies) /\
    length gaps = length bodies /\
    Forall blank gaps /\
    weave bodies gaps = content.
Proof.
  intros Hn Hbudget. destruct (n <=? max_bytes) eqn:E.
  - apply Z.leb_le in E. exists [content], [[]].
    rewrite (fits_unchanged _ content (Some max_bytes) n Hn E).
    cbn [weave length]. rewrite !app_nil_r. repeat split; repeat constructor.
  - apply Z.leb_gt in E. now apply (split_message_cut content max_bytes n).
Qed.

Lemma split_message_bodies_witness :
  utf8_len (lit "hello world, this is") = Done 20 /\
  min_budget 20 <= 12 /\
  exists bodies gaps,
    split_message 20 (lit "hello world, this is") (Some 12)
      = Done (if 20 <=? 12 then bodies else numbered 1 (len bodies) bodies) /\
    length gaps = length bodies /\
    Forall blank gaps /\
    weave bodies gaps = lit "hello world, this is".
Proof.
  split; [reflexivity|]. split; [vm_compute; discriminate|].
  apply (split_message_bodies (lit "hello world, this is") 12 20);
    [reflexivity | vm_compute; discriminate].
Defined.

(** C6, as stated, fails: a content that fits comes back as one part
    without any prefix, not behind ["[1/1] "]. *)
Lemma split_message_single_part_unnumbered :
  exists parts,
    split_message 0 (lit "ok") (Some 150) = Done parts /\
    len parts = 1 /\
    forall body, nth_error parts 0 <> Some (part_prefix 1 (len parts) ++ body).
Proof.
  eexists. split; [vm_compute; reflexivity|]. split; [reflexivity|].
  intros body. vm_compute. intros H. inversion H.
Qed.

(** C6, amended. Under the budget a content that does not fit comes back in
    parts of which the one at position [i] (from [1]) starts with
    ["[i/n] "], [n] being the number of parts returned. *)
Theorem split_message_numbering content max_bytes n :
  utf8_len content = Done n -> max_bytes < n -> min_budget n <= max_bytes ->
  exists parts,
    split_message (length content) content (Some max_bytes) = Done parts /\
    forall i part, nth_error parts i = Some part ->
      exists body, part = part_prefix (Z.of_nat i + 1) (len parts) ++ body.
Proof.
  intros Hn Hbig Hbudget.
  destruct (split_message_cut content max_bytes n Hn Hbig Hbudget)
    as (bodies & gaps & Hrun & _).
  eexists. split; [exact Hrun|].
  assert (Hl : len (numbered 1 (len bodies) bodies) = len bodies)
    by (unfold len; now rewrite numbered_length).
  rewrite Hl. intros i part Hi.
  destruct (nth_error bodies i) as [b|] eqn:Eb.
  - rewrite (numbered_nth _ _ _ _ _ Eb) in Hi. inversion Hi; subst.
    exists b. now replace (Z.of_nat i + 1) with (1 + Z.of_nat i) by lia.
  - apply nth_error_None in Eb.
    assert (nth_error (numbered 1 (len bodies) bodies) i = None)
      by (apply nth_error_None; now rewrite numbered_length).
    congruence.
Qed.

Lemma split_message_numbering_witness :
  utf8_len (lit "hello world, this is") = Done 20 /\
  12 < 20 /\
  min_budget 20 <= 12 /\
  exists parts,
    split_message 20 (lit "hello world, this is") (Some 12) = Done parts /\
    forall i part, nth_error parts i = Some part ->
      exists body, part = part_prefix (Z.of_nat i + 1) (len parts) ++ body.
Proof.
  split; [reflexivity|]. split; [lia|]. split; [vm_compute; discriminate|].
  apply (split_message_numbering (lit "hello world, this is") 12 20);
    [reflexivity | lia | vm_compute; discriminate].
Defined.

(** *** Termination *)

(** A round that goes on has cut [remaining] at the index [split_point] gave. *)
Lemma loop_body_continue max_bytes est st st1 :
  loop_body max_bytes est st = Done (Continue st1) ->
  exists i,
    split_point (remaining st) (max_bytes - len (part_prefix (part_num st) est)) = Done i /\
    st1 = {| remaining := lstrip (slice_from (remaining st) i);
             part_num := part_num st + 1;
             parts := parts st ++ [part_prefix (part_num st) est
                                     ++ rstrip (slice_to (remaining st) i)] |}.
Proof.
  unfold loop_body. rewrite part_prefix_bytes. cbn [bind].
  destruct (utf8_len (remaining st)) as [n| |]; cbn [bind]; try discriminate.
  destruct (n <=? _); [discriminate|].
  destruct (split_point _ _) as [i| |]; cbn [bind]; try discriminate.
  intros H. inversion H. now exists i.
Qed.

Lemma reach_encodable max_bytes est st st' :
  reach max_bytes est st st' -> encodable (remaining st) -> encodable (remaining st').
Proof.
  induction 1 as [|st st1 st2 _ Hstep _ IH]; intros Henc; [assumption|].
  apply IH. destruct (loop_body_continue _ _ _ _ Hstep) as (i & _ & ->).
  cbn [remaining]. apply encodable_lstrip, encodable_skipn, Henc.
Qed.

(** [iteration content max_bytes est st]: the call
    [split_message(content, max_bytes)] runs a round of its loop from the
    state [st], with [est] for [estimated_parts]. *)
Definition iteration (content : str) (max_bytes est : Z) (st : loop_state) : Prop :=
  exists n,
    utf8_len content = Done n /\ max_bytes < n /\ max_bytes - 7 <> 0 /\
    est = estimate n max_bytes /\
    reach max_bytes est (start content) st /\ remaining st <> [].

(** At every round the budget left behind the prefix is at least 4 bytes. *)
Definition viable (content : str) (max_bytes : Z) : Prop :=
  forall est st, iteration content max_bytes est st -> roomy max_bytes est st.

(** C10. When every round of the loop has at least 4 bytes left behind its
    prefix, [split_message] terminates, within [len(content)] rounds: every
    round that goes on cuts at an index of at least 1 and leaves a strictly
    shorter [remaining]. *)
Theorem split_message_terminates content max_bytes :
  viable content max_bytes ->
  (forall fuel, (length content <= fuel)%nat ->
     split_message fuel content (Some max_bytes) <> OutOfFuel) /\
  (forall est st st',
     iteration content max_bytes est st ->
     loop_body max_bytes est st = Done (Continue st') ->
     (exists a i,
        available_bytes max_bytes est st = Done a /\
        split_point (remaining st) a = Done i /\ 1 <= i) /\
     (length (remaining st') < length (remaining st))%nat).
Proof.
  intros Hv. split.
  - intros fuel Hfuel.
    destruct (utf8_len_cases content) as [[Henc Hn] | Hn].
    + destruct (Z.le_gt_cases (blen content) max_bytes) as [Hfit | Hbig].
      * now rewrite (fits_unchanged fuel content (Some max_bytes) _ Hn Hfit).
      * destruct (Z.eq_dec max_bytes 7) as [-> | H7].
        { unfold split_message. rewrite Hn. cbn [bind].
          destruct (blen content <=? 7) eqn:E; [apply Z.leb_le in E; lia|].
          discriminate. }
        destruct (split_message_run content max_bytes _ fuel Hn Hbig H7)
          as (bodies & gaps & -> & _); [|assumption|discriminate].
        intros st Hreach Hne. apply Hv. exists (blen content).
        repeat split; auto; lia.
    + unfold split_message. rewrite Hn. discriminate.
  - intros est st st' Hit Hstep.
    pose proof (Hv est st Hit) as Hr. apply roomy_iff in Hr.
    destruct Hit as (n & Hn & _ & _ & _ & Hreach & Hne).
    destruct (utf8_len_Done _ _ Hn) as [Henc _].
    pose proof (reach_encodable _ _ _ _ Hreach Henc) as Hrem.
    destruct (loop_body_step max_bytes est st Hrem ltac:(lia))
      as [[_ Hb] | [_ (i & Hsp & Hrng & _ & Hpos & Hb)]]; rewrite Hb in Hstep;
      [discriminate|].
    inversion Hstep; subst st'. specialize (Hpos Hr Hne). split.
    + exists (max_bytes - len (part_prefix (part_num st) est)), i.
      rewrite available_bytes_eq. repeat split; auto.
    + cbn [remaining]. rewrite slice_from_nonneg by lia.
      pose proof (lstrip_length (skipn (Z.to_nat i) (remaining st))) as Hl.
      rewrite length_skipn in Hl. unfold len in Hrng. lia.
Qed.

Lemma split_message_terminates_witness :
  viable (lit "hello world, this is") 12 /\
  (forall fuel, (length (lit "hello world, this is") <= fuel)%nat ->
     split_message fuel (lit "hello world, this is") (Some 12) <> OutOfFuel) /\
  (forall est st st',
     iteration (lit "hello world, this is") 12 est st ->
     loop_body 12 est st = Done (Continue st') ->
     (exists a i,
        available_bytes 12 est st = Done a /\
        split_point (remaining st) a = Done i /\ 1 <= i) /\
     (length (remaining st') < length (remaining st))%nat).
Proof.
  assert (Hv : viable (lit "hello world, this is") 12).
  { intros est st (n & Hn & Hbig & _ & -> & Hreach & Hne).
    apply (budget_roomy (lit "hello world, this is") 12 n); auto.
    vm_compute in Hn. inversion Hn. vm_compute. discriminate. }
  split; [exact Hv|].
  exact (split_message_terminates (lit "hello world, this is") 12 Hv).
Defined.

(** Three code points of four bytes each. *)
Definition three_wide : str := [128512%N; 128513%N; 128514%N].

(** Without the four bytes the loop need not end: with 8 bytes for
    [three_wide] no round has room for a code point, the cut is at index 0
    and [remaining] stays as it is, whatever the fuel. *)
Lemma bisect_nothing_fits text max_bytes :
  encodable text -> max_bytes < blen (slice_to text 1) ->
  forall fuel high,
    0 <= high <= len text -> high <= Z.of_nat fuel ->
    bisect fuel text max_bytes 0 high = Done 0.
Proof.
  intros Henc Hfirst. induction fuel as [|f IH]; intros high Hhigh Hfuel.
  - cbn [bisect]. destruct (0 <? high) eqn:E; [apply Z.ltb_lt in E; lia | reflexivity].
  - cbn [bisect]. destruct (0 <? high) eqn:E; [|reflexivity].
    apply Z.ltb_lt in E. pose proof (midpoint_range 0 high E) as Hm.
    set (mid := (0 + high + 1) / 2) in *.
    rewrite (utf8_len_encodable (slice_to text mid)) by apply encodable_firstn, Henc.
    cbn [bind].
    assert (Hmid : max_bytes < blen (slice_to text mid)).
    { rewrite slice_to_nonneg in * by lia.
      pose proof (blen_firstn_mono (Z.to_nat 1) (Z.to_nat mid) text ltac:(lia)). lia. }
    destruct (blen (slice_to text mid) <=? max_bytes) eqn:Eb;
      [apply Z.leb_le in Eb; lia|].
    apply IH; lia.
Qed.

Lemma split_point_stuck text a :
  encodable text -> a < blen (slice_to text 1) -> split_point text a = Done 0.
Proof.
  intros Henc Ha. unfold split_point, _find_byte_safe_split.
  rewrite (utf8_len_encodable _ Henc). cbn [bind].
  assert (blen (slice_to text 1) <= blen text) by apply blen_firstn_le.
  destruct (blen text <=? a) eqn:E; [apply Z.leb_le in E; lia|].
  rewrite (bisect_nothing_fits text a Henc Ha) by (unfold len; lia).
  reflexivity.
Qed.

Lemma while_remaining_stuck max_bytes est : forall fuel st,
  remaining st = three_wide -> max_bytes < 10 ->
  while_remaining fuel max_bytes est st = OutOfFuel.
Proof.
  assert (Henc : encodable three_wide) by (repeat constructor; discriminate).
  induction fuel as [|f IH]; intros st Hrem Hmax.
  - simpl. now rewrite Hrem.
  - cbn [while_remaining]. rewrite Hrem. change (128512%N :: _) with three_wide.
    unfold loop_body. rewrite part_prefix_bytes, Hrem. cbn [bind].
    rewrite (utf8_len_encodable _ Henc). cbn [bind].
    pose proof (part_prefix_len (part_num st) est) as Hl.
    pose proof (str_of_int_nonempty (part_num st)).
    pose proof (str_of_int_nonempty est).
    change (blen three_wide) with 12.
    destruct (12 <=? max_bytes - len (part_prefix (part_num st) est)) eqn:E;
      [apply Z.leb_le in E; lia|].
    rewrite split_point_stuck by (auto; change (blen (slice_to three_wide 1)) with 4; lia).
    cbn [bind]. apply IH; [reflexivity | assumption].
Qed.

Lemma split_message_diverges fuel :
  split_message fuel three_wide (Some 8) = OutOfFuel.
Proof.
  unfold split_message. vm_compute (utf8_len three_wide). cbn [bind].
  change (12 <=? 8) with false. change (8 - 7 =? 0) with false. cbv iota.
  now rewrite while_remaining_stuck.
Qed.

End Splitter.

(** ** The bot and its collaborators

    The transport, the rate limiters, the plugins and the clock are not part
    of [command_manager.py]. A call made on one of them for its effect
    leaves an event in the [trace]; a call made for its answer reads the
    answer from the environment, as a function of the events so far.
    A collaborator call outside any [try] is taken not to raise. *)

Module Bot.

(** [MeshMessage], as far as the engine reads it. *)
Record MeshMessage := {
  msg_content : str;
  msg_sender_id : str;
  msg_is_dm : bool;
  msg_channel : str
}.

(** [meshcore.EventType], as far as the engine tells its members apart. *)
Inductive EventType :=
| ERROR
| MSG_SENT
| OK
| OTHER (name : str).

(** The [payload] of an event: a [dict], with what it has under ['reason'],
    or a value of another type. *)
Inductive payload :=
| Dict (reason : option str)
| NotDict.

(** What a send primitive returns: an object that tests false ([None]
    among them), an object with a [type] attribute (and a [payload]
    attribute or none), or a true object without a [type]. *)
Inductive result :=
| Falsy
| Event (type : EventType) (payload : option payload)
| Untyped.

(** How a call of the transport ends. *)
Inductive answer :=
| Returns (r : result)
| RaisesAttributeError
| RaisesError.

(** A contact of the transport: a [dict], read under ['name'] and ['adv_name']. *)
Record contact := { contact_name : option str; contact_adv_name : option str }.

Inductive call :=
| wait_for_tx
| sleep (ms : Z)
| record_send
| record_tx
| send_msg_with_retry (to : contact) (content : str)
    (max_attempts max_flood_attempts flood_after timeout : Z)
| send_msg (to : contact) (content : str)
| send_chan_msg (channel_num : Z) (content : str)
| time_time
| check_internet_connectivity
| check_internet_connectivity_async
| record_execution (command_name : str) (user : option str)
| execute (command_name : str)
| record_command (command_name : str) (response_sent : bool)
| capture_command (command_name response : str) (success : bool).

Definition trace := list call.

(** [bot.meshcore.self_info]: nothing usable, a [dict] with what it has under
    ['name'] and ['user_name'], or an object with these attributes or
    without ([None] for a missing attribute, [Some None] for one that
    holds [None]). *)
Inductive self_info :=
| NoInfo
| InfoDict (name user_name : option str)
| InfoObject (name user_name : option (option str)).

End Bot.

Import Bot.

(** ** The delivery pipeline *)

Module Delivery.

Import Splitter.

(** What the pipeline reads from the bot, its configuration and the transport. *)
Record env := {
  (* [self.bot.connected and self.bot.meshcore] *)
  connected : trace -> bool;
  (* [self.bot.tx_delay_ms] *)
  tx_delay_ms : Z;
  (* [self.bot.rate_limiter.can_send()] *)
  can_send : trace -> bool;
  (* [self.bot.meshcore.get_contact_by_name(name)]; [None] for a false answer *)
  get_contact_by_name : trace -> str -> option contact;
  (* [hasattr(meshcore, 'commands') and hasattr(meshcore.commands, 'send_msg_with_retry')] *)
  has_send_msg_with_retry : bool;
  (* [config.getint('Bot', 'dm_max_retries', fallback=3)] and its neighbours *)
  dm_max_retries : Z;
  dm_max_flood_attempts : Z;
  dm_flood_after : Z;
  (* [self.bot.channel_manager.get_channel_number(channel)] *)
  get_channel_number : trace -> str -> option Z;
  (* how the transport ends the send that [call] stands for *)
  transmit : trace -> call -> answer;
  (* [self.bot.meshcore.self_info] *)
  bot_self_info : trace -> self_info
}.

Section Pipeline.

Variable E : env.

(** [_apply_tx_delay]: [asyncio.sleep(tx_delay_ms / 1000.0)]. *)
Definition _apply_tx_delay (t : trace) : trace :=
  if tx_delay_ms E >? 0 then t ++ [sleep (tx_delay_ms E)] else t.

(** [_check_rate_limits]; the reason it returns is read by the logger only. *)
Definition _check_rate_limits (t : trace) : bool * trace :=
  if negb (can_send E t) then (false, t)
  else
    let t := t ++ [wait_for_tx] in
    let t := _apply_tx_delay t in
    (true, t).

(** [self.bot.rate_limiter.record_send(); self.bot.bot_tx_rate_limiter.record_tx()] *)
Definition record_both (t : trace) : trace := t ++ [record_send; record_tx].

Definition is_no_event_received (error_payload : payload) : bool :=
  match error_payload with
  | Dict (Some reason) => str_eqb reason (lit "no_event_received")
  | Dict None => false
  | NotDict => false
  end.

(** [_handle_send_result] *)
Definition _handle_send_result (r : result) (operation_name target : str)
    (used_retry_method : bool) (t : trace) : bool * trace :=
  match r with
  | Falsy => (false, t)
  | Event type payload =>
      match type with
      | ERROR => (false, t)
      | MSG_SENT | OK => (true, record_both t)
      | OTHER _ =>
          if str_eqb operation_name (lit "Channel message") then
            let error_payload := match payload with Some p => p | None => Dict None end in
            if is_no_event_received error_payload then (true, record_both t)
            else (false, t)
          else (false, t)
      end
  | Untyped => (true, record_both t)
  end.

(** [contact.get('name', contact.get('adv_name', recipient_id))] *)
Definition name_of (c : contact) (recipient_id : str) : str :=
  match contact_name c with
  | Some n => n
  | None => match contact_adv_name c with Some n => n | None => recipient_id end
  end.

(** The transport is called; the call is on the trace however it ends. *)
Definition perform (c : call) (t : trace) : answer * trace :=
  (transmit E t c, t ++ [c]).

(** The inner [try] of [_send_dm_single]: [send_msg_with_retry] where the
    transport has it, [send_msg] otherwise and after an [AttributeError]. *)
Definition send_to_contact (to : contact) (content : str) (t : trace) : answer * trace :=
  let first :=
    if has_send_msg_with_retry E then
      send_msg_with_retry to content
        (dm_max_retries E) (dm_max_flood_attempts E) (dm_flood_after E) 0
    else send_msg to content in
  let '(a, t) := perform first t in
  match a with
  | RaisesAttributeError => perform (send_msg to content) t
  | _ => (a, t)
  end.

(** [_send_dm_single]; [except Exception] answers [False]. *)
Definition _send_dm_single (recipient_id content : str) (t : trace) : bool * trace :=
  let '(can_send, t) := _check_rate_limits t in
  if negb can_send then (false, t)
  else
    match get_contact_by_name E t recipient_id with
    | None => (false, t)
    | Some to =>
        let target := name_of to recipient_id in
        let '(a, t) := send_to_contact to content t in
        let used_retry_method := has_send_msg_with_retry E in
        match a with
        | Returns r => _handle_send_result r (lit "DM") target used_retry_method t
        | RaisesAttributeError => (false, t)
        | RaisesError => (false, t)
        end
    end.

(** [f"{channel} (channel {channel_num})"] *)
Definition channel_target (channel : str) (channel_num : Z) : str :=
  channel ++ lit " (channel " ++ str_of_int channel_num ++ lit ")".

(** [_send_channel_message_single]; [except Exception] answers [False]. *)
Definition _send_channel_message_single (channel content : str) (t : trace) : bool * trace :=
  let '(can_send, t) := _check_rate_limits t in
  if negb can_send then (false, t)
  else
    match get_channel_number E t channel with
    | None => (false, t)
    | Some channel_num =>
        let '(a, t) := perform (send_chan_msg channel_num content) t in
        match a with
        | Returns r =>
            _handle_send_result r (lit "Channel message")
              (channel_target channel channel_num) false t
        | RaisesAttributeError => (false, t)
        | RaisesError => (false, t)
        end
    end.

(** [for i, part in enumerate(parts)] of [send_dm] and of
    [send_channel_message], which differ in the [single] they call:
    a failure breaks out of the loop, a success is followed by a pause of
    two seconds unless the part was the last. *)
Fixpoint send_each (single : str -> trace -> bool * trace)
    (i count : Z) (parts : list str) (t : trace) : bool * trace :=
  match parts with
  | [] => (true, t)
  | part :: rest =>
      let '(success, t) := single part t in
      if negb success then (false, t)
      else
        let t := if i <? count - 1 then t ++ [sleep 2000] else t in
        send_each single (i + 1) count rest t
  end.

(** [send_dm] *)
Definition send_dm (fuel : nat) (recipient_id content : str) (t : trace)
  : outcome (bool * trace) :=
  if negb (connected E t) then Done (false, t)
  else
    parts <- split_message fuel content (Some MAX_MESSAGE_BYTES) ;;
    Done (send_each (_send_dm_single recipient_id) 0 (len parts) parts t).

Definition truthy (s : option str) : bool :=
  match s with
  | Some (_ :: _) => true
  | Some [] => false
  | None => false
  end.

(** The [username] that [send_channel_message] reads from [self_info]. *)
Definition username_of (info : self_info) : option str :=
  match info with
  | NoInfo => None
  | InfoDict name user_name => if truthy name then name else user_name
  | InfoObject (Some name) _ => name
  | InfoObject None (Some user_name) => user_name
  | InfoObject None None => None
  end.

(** The budget of a channel message: the transport puts ["<username>: "]
    before it. *)
Definition channel_max_bytes (t : trace) : outcome Z :=
  let username := username_of (bot_self_info E t) in
  if truthy username then
    username_bytes <- utf8_len (match username with Some u => u | None => [] end) ;;
    Done (MAX_MESSAGE_BYTES - username_bytes - 2)
  else Done (MAX_MESSAGE_BYTES - 17).

(** [send_channel_message] *)
Definition send_channel_message (fuel : nat) (channel content : str) (t : trace)
  : outcome (bool * trace) :=
  if negb (connected E t) then Done (false, t)
  else
    max_bytes <- channel_max_bytes t ;;
    parts <- split_message fuel content (Some max_bytes) ;;
    Done (send_each (_send_channel_message_single channel) 0 (len parts) parts t).

(** *** The classification of send results *)

(** C5. [_handle_send_result] fails on a missing result and on an
    error-typed event, succeeds on a sent- or ok-typed event, succeeds for a
    channel send on an event of another type whose payload has the reason
    ['no_event_received'], and fails on every other event of another type;
    both rate limiters are recorded on the successes, and on them only. *)
Theorem handle_send_result_classifies (r : result) (operation_name target : str)
    (used_retry_method : bool) (t : trace) :
  let out := _handle_send_result r operation_name target used_retry_method t in
  (r = Falsy -> out = (false, t)) /\
  (forall p, r = Event ERROR p -> out = (false, t)) /\
  (forall ty p, r = Event ty p -> ty = MSG_SENT \/ ty = OK ->
     out = (true, t ++ [record_send; record_tx])) /\
  (forall name p, r = Event (OTHER name) p ->
     operation_name = lit "Channel message" ->
     p = Some (Dict (Some (lit "no_event_received"))) ->
     out = (true, t ++ [record_send; record_tx])) /\
  (forall name p, r = Event (OTHER name) p ->
     ~ (operation_name = lit "Channel message" /\
        p = Some (Dict (Some (lit "no_event_received")))) ->
     out = (false, t)) /\
  (fst out = true -> snd out = t ++ [record_send; record_tx]) /\
  (fst out = false -> snd out = t).
Proof.
  assert (Heqb : forall a b, str_eqb a b = true <-> a = b).
  { intros a b. unfold str_eqb. destruct (list_eq_dec N.eq_dec a b); split; congruence. }
  cbv zeta. repeat split.
  - now intros ->.
  - now intros p ->.
  - intros ty p -> [-> | ->]; reflexivity.
  - intros name p -> -> ->. reflexivity.
  - intros name p -> Hnot. cbn [_handle_send_result].
    destruct (str_eqb operation_name (lit "Channel message")) eqn:Eop; [|reflexivity].
    apply Heqb in Eop.
    destruct p as [[[reason|]|]|]; cbn [is_no_event_received]; try reflexivity.
    destruct (str_eqb reason (lit "no_event_received")) eqn:Er; [|reflexivity].
    apply Heqb in Er. subst. elim Hnot. now split.
  - destruct r as [|[| | |name] p|]; cbn; try discriminate; try reflexivity.
    destruct (str_eqb operation_name _); [|discriminate].
    destruct (is_no_event_received _); [reflexivity | discriminate].
  - destruct r as [|[| | |name] p|]; cbn; try discriminate; try reflexivity.
    destruct (str_eqb operation_name _); [|reflexivity].
    destruct (is_no_event_received _); [discriminate | reflexivity].
Qed.

Lemma handle_send_result_classifies_witness :
  _handle_send_result
    (Event (OTHER (lit "TIMEOUT")) (Some (Dict (Some (lit "no_event_received")))))
    (lit "Channel message") (lit "public (channel 0)") false [wait_for_tx]
  = (true, [wait_for_tx; record_send; record_tx]) /\
  _handle_send_result
    (Event (OTHER (lit "TIMEOUT")) (Some (Dict (Some (lit "no_event_received")))))
    (lit "DM") (lit "peer") true [wait_for_tx]
  = (false, [wait_for_tx]).
Proof.
  split.
  - exact (proj1 (proj2 (proj2 (proj2
             (handle_send_result_classifies
                (Event (OTHER (lit "TIMEOUT")) (Some (Dict (Some (lit "no_event_received")))))
                (lit "Channel message") (lit "public (channel 0)") false [wait_for_tx]))))
             (lit "TIMEOUT") _ eq_refl eq_refl eq_refl).
  - reflexivity.
Defined.

(** A true result that has no [type] attribute counts as sent. *)
Lemma handle_send_result_untyped operation_name target used_retry_method t :
  _handle_send_result Untyped operation_name target used_retry_method t
  = (true, t ++ [record_send; record_tx]).
Proof. reflexivity. Qed.

(** The error type is looked at first: the reason ['no_event_received']
    does not save an error-typed event, on a channel either. *)
Lemma handle_send_result_error_first target used_retry_method t :
  _handle_send_result (Event ERROR (Some (Dict (Some (lit "no_event_received")))))
    (lit "Channel message") target used_retry_method t = (false, t).
Proof. reflexivity. Qed.

(** *** Sending the parts in order *)

(** Where a message goes. *)
Inductive destination :=
| Direct (recipient_id : str)
| Channel (channel : str).

(** The single send of a part. *)
Definition single_to (d : destination) : str -> trace -> bool * trace :=
  match d with
  | Direct recipient_id => _send_dm_single recipient_id
  | Channel channel => _send_channel_message_single channel
  end.

(** The parts the entry point for [d] cuts [content] into. *)
Definition parts_to (fuel : nat) (d : destination) (content : str) (t : trace)
  : outcome (list str) :=
  match d with
  | Direct _ => split_message fuel content (Some MAX_MESSAGE_BYTES)
  | Channel _ =>
      max_bytes <- channel_max_bytes t ;;
      split_message fuel content (Some max_bytes)
  end.

(** The entry point for [d]. *)
Definition send_to (fuel : nat) (d : destination) (content : str) (t : trace)
  : outcome (bool * trace) :=
  match d with
  | Direct recipient_id => send_dm fuel recipient_id content t
  | Channel channel => send_channel_message fuel channel content t
  end.

(** The trace after every part of [pre] was sent with success, each followed
    by the pause between parts; [None] when one of them fails. *)
Fixpoint sent_all (single : str -> trace -> bool * trace) (pre : list str) (t : trace)
  : option trace :=
  match pre with
  | [] => Some t
  | part :: rest =>
      let '(success, t) := single part t in
      if success then sent_all single rest (t ++ [sleep 2000]) else None
  end.

Lemma send_each_aborts single pre p post : forall i count t t1 t2,
  i + len pre < count ->
  sent_all single pre t = Some t1 ->
  single p t1 = (false, t2) ->
  send_each single i count (pre ++ p :: post) t = (false, t2).
Proof.
  unfold len. induction pre as [|q pre IH]; intros i count t t1 t2 Hcount Hpre Hp.
  - simpl in Hpre. inversion Hpre; subst. cbn [app send_each]. now rewrite Hp.
  - cbn [app send_each]. cbn [sent_all] in Hpre.
    destruct (single q t) as [[|] tq]; [|discriminate]. cbn [negb].
    simpl length in Hcount.
    destruct (i <? count - 1) eqn:Ei; [|apply Z.ltb_ge in Ei; lia].
    apply (IH (i + 1) count _ t1 t2); auto. lia.
Qed.

(** When no part fails the call answers [True]. *)
Lemma send_each_all_sent single parts : forall i count t t1,
  i + len parts = count ->
  sent_all single parts t = Some t1 ->
  fst (send_each single i count parts t) = true.
Proof.
  unfold len. induction parts as [|q rest IH]; intros i count t t1 Hcount Hall.
  - reflexivity.
  - cbn [send_each]. cbn [sent_all] in Hall.
    destruct (single q t) as [[|] tq]; [|discriminate]. cbn [negb].
    simpl length in Hcount.
    destruct rest as [|q2 rest]; [reflexivity|].
    destruct (i <? count - 1) eqn:Ei; [|apply Z.ltb_ge in Ei; simpl length in *; lia].
    apply (IH (i + 1) count _ t1); [simpl length in *; lia | exact Hall].
Qed.

(** C3. The parts of a message go out in order through the single send of
    their pipeline; when the parts before [p] were sent and the single send
    of [p] fails, the call answers [False] with the trace the failed send
    left: nothing is called for the parts after [p]. *)
Theorem multi_part_send_aborts fuel d content t pre p post t1 t2 :
  connected E t = true ->
  parts_to fuel d content t = Done (pre ++ p :: post) ->
  sent_all (single_to d) pre t = Some t1 ->
  single_to d p t1 = (false, t2) ->
  send_to fuel d content t = Done (false, t2).
Proof.
  intros Hconn Hparts Hpre Hp.
  destruct d as [recipient_id | channel]; cbn [send_to parts_to single_to] in *.
  - unfold send_dm. rewrite Hconn, Hparts. cbn [negb bind]. f_equal.
    eapply send_each_aborts; eauto.
    unfold len. rewrite length_app. simpl length. lia.
  - unfold send_channel_message. rewrite Hconn. cbn [negb].
    destruct (channel_max_bytes t) as [max_bytes| |]; cbn [bind] in *; try discriminate.
    rewrite Hparts. cbn [bind]. f_equal.
    eapply send_each_aborts; eauto.
    unfold len. rewrite length_app. simpl length. lia.
Qed.

End Pipeline.

(** *** A message of three parts whose second part fails *)

Definition peer : contact := {| contact_name := Some (lit "peer"); contact_adv_name := None |}.

(** A transport that reports an error for every part numbered 2. *)
Definition failing_second : env := {|
  connected := fun _ => true;
  tx_delay_ms := 0;
  can_send := fun _ => true;
  get_contact_by_name := fun _ _ => Some peer;
  has_send_msg_with_retry := true;
  dm_max_retries := 3;
  dm_max_flood_attempts := 2;
  dm_flood_after := 2;
  get_channel_number := fun _ _ => Some 0;
  transmit := fun _ c =>
    match c with
    | send_msg_with_retry _ content _ _ _ _ | send_msg _ content | send_chan_msg _ content =>
        if startswith content (lit "[2/") then Returns (Event ERROR None)
        else Returns (Event MSG_SENT None)
    | _ => RaisesError
    end;
  bot_self_info := fun _ => NoInfo
|}.

(** 300 letters: three parts at the ceiling of 150 bytes. *)
Definition long_text : str := repeat 65%N 300.

Definition part1 : str := part_prefix 1 3 ++ repeat 65%N 144.
Definition part2 : str := part_prefix 2 3 ++ repeat 65%N 144.
Definition part3 : str := part_prefix 3 3 ++ repeat 65%N 12.

(** The trace shows the first part going out and being recorded, the pause,
    and the second part handed to the transport; the third part never is. *)
Lemma multi_part_send_aborts_witness :
  connected failing_second [] = true /\
  parts_to failing_second 3 (Direct (lit "peer")) long_text [] = Done ([part1] ++ part2 :: [part3]) /\
  send_to failing_second 3 (Direct (lit "peer")) long_text []
  = Done (false,
          [wait_for_tx; send_msg_with_retry peer part1 3 2 2 0; record_send; record_tx;
           sleep 2000;
           wait_for_tx; send_msg_with_retry peer part2 3 2 2 0]) /\
  send_to failing_second 3 (Channel (lit "public")) long_text []
  = Done (false,
          [wait_for_tx; send_chan_msg 0 (part_prefix 1 3 ++ repeat 65%N 127);
           record_send; record_tx;
           sleep 2000;
           wait_for_tx; send_chan_msg 0 (part_prefix 2 3 ++ repeat 65%N 127)]).
Proof.
  split; [reflexivity|]. split; [vm_compute; reflexivity|]. split.
  - apply (multi_part_send_aborts failing_second 3 (Direct (lit "peer")) long_text []
             [part1] part2 [part3]
             [wait_for_tx; send_msg_with_retry peer part1 3 2 2 0; record_send; record_tx;
              sleep 2000]);
      vm_compute; reflexivity.
  - vm_compute. reflexivity.
Defined.

End Delivery.

(** ** The connectivity cache *)

Module Connectivity.

(** A Python [float] is an IEEE 754 binary64 number: a [float] of Rocq. *)
Import PrimFloat.

(** [InternetStatusCache]. Its [_lock] is the [asyncio.Lock] that
    [_check_internet_cached_async] holds from its first statement to its
    [return]: two calls of it never interleave, and a call is a function
    from the cache and trace it finds to those it leaves. The [timestamp]
    is a reading of the clock, or the [0] of [__init__], which the
    subtraction converts to the float [0.0]. *)
Record InternetStatusCache := { has_internet : bool; timestamp : float }.

(** The clock and the two probes of [utils.py], which open sockets. *)
Record env := {
  (* what [time.time()] returns *)
  clock : trace -> float;
  (* what [check_internet_connectivity()] returns *)
  probe : trace -> bool;
  (* what [await check_internet_connectivity_async()] returns *)
  probe_async : trace -> bool
}.

(** [a < b] on rationals. *)
Definition Qltb (a b : Q) : bool := negb (Qle_bool b a).

(** [self._internet_cache_duration]: the [int] 30, which the comparison
    with a float takes at its value, the float [30.0]. *)
Definition _internet_cache_duration : float := 30%float.

Section Cache.

Variable E : env.

(** [time.time()] *)
Definition time_now (t : trace) : float * trace := (clock E t, t ++ [time_time]).

(** [InternetStatusCache.is_valid]:
    [time.time() - self.timestamp < cache_duration], on floats. *)
Definition is_valid (c : InternetStatusCache) (cache_duration : float) (t : trace)
  : bool * trace :=
  let '(now, t) := time_now t in
  (PrimFloat.ltb (PrimFloat.sub now (timestamp c)) cache_duration, t).

(** [_check_internet_cached]: the answer, the cache and the trace it leaves. *)
Definition _check_internet_cached (c : InternetStatusCache) (t : trace)
  : bool * InternetStatusCache * trace :=
  let '(current_time, t) := time_now t in
  let '(valid, t) := is_valid c _internet_cache_duration t in
  if valid then (has_internet c, c, t)
  else
    let has := probe E t in
    let t := t ++ [check_internet_connectivity] in
    (has, {| has_internet := has; timestamp := current_time |}, t).

(** [_check_internet_cached_async], under its lock. *)
Definition _check_internet_cached_async (c : InternetStatusCache) (t : trace)
  : bool * InternetStatusCache * trace :=
  let '(current_time, t) := time_now t in
  let '(valid, t) := is_valid c _internet_cache_duration t in
  if valid then (has_internet c, c, t)
  else
    let has := probe_async E t in
    let t := t ++ [check_internet_connectivity_async] in
    (has, {| has_internet := has; timestamp := current_time |}, t).

(** *** What the asynchronous path serves *)

Definition is_probe (c : call) : bool :=
  match c with
  | check_internet_connectivity_async => true
  | _ => false
  end.

(** The number of asynchronous probes on a trace. *)
Definition probes (t : trace) : nat := length (filter is_probe t).

(** The time a call that starts on the trace [t] reads as [current_time]. *)
Definition started_at (t : trace) : float := clock E t.

(** The time at which a call that starts on the trace [t] checks the cache. *)
Definition checked_at (t : trace) : float := clock E (t ++ [time_time]).

(** The age of the cache when a call from [t] checks it: the difference of
    the two readings, rounded as the subtraction of the floats rounds it. *)
Definition age (c : InternetStatusCache) (t : trace) : float :=
  PrimFloat.sub (checked_at t) (timestamp c).

(** The cache is younger than its time to live when a call from [t] checks
    it: its age is less than 30 seconds. *)
Definition within_ttl (c : InternetStatusCache) (t : trace) : Prop :=
  PrimFloat.ltb (age c t) _internet_cache_duration = true.

(** Two and three calls, one after the other. *)
Definition twice (c : InternetStatusCache) (t : trace) :=
  let '(_, c1, t1) := _check_internet_cached_async c t in
  _check_internet_cached_async c1 t1.

Definition thrice (c : InternetStatusCache) (t : trace) :=
  let '(_, c1, t1) := _check_internet_cached_async c t in
  twice c1 t1.

Lemma probes_app t u : probes (t ++ u) = (probes t + probes u)%nat.
Proof. unfold probes. now rewrite filter_app, length_app. Qed.

Lemma probes_reads t : probes (t ++ [time_time; time_time]) = probes t.
Proof. rewrite probes_app. cbn. lia. Qed.

Lemma probes_probed t :
  probes (t ++ [time_time; time_time; check_internet_connectivity_async]) = S (probes t).
Proof. rewrite probes_app. cbn. lia. Qed.

(** What one call does, by the age of the cache when it is checked. *)
Lemma cached_async_cases c t :
  (within_ttl c t /\
   _check_internet_cached_async c t = (has_internet c, c, t ++ [time_time; time_time]))
  \/
  (~ within_ttl c t /\
   _check_internet_cached_async c t =
     (probe_async E (t ++ [time_time; time_time]),
      {| has_internet := probe_async E (t ++ [time_time; time_time]);
         timestamp := started_at t |},
      t ++ [time_time; time_time; check_internet_connectivity_async])).
Proof.
  unfold _check_internet_cached_async, is_valid, time_now, within_ttl, age, checked_at,
    started_at.
  destruct (PrimFloat.ltb (PrimFloat.sub (clock E (t ++ [time_time])) (timestamp c))
              _internet_cache_duration) eqn:Ev.
  - left. split; [reflexivity|]. now rewrite <- app_assoc.
  - right. split; [discriminate|]. now rewrite <- !app_assoc.
Qed.

(** C9. A call of the asynchronous check answers with the result of a probe
    it made itself, or with the cached value while the cache is less than
    30 seconds old, and it probes exactly when the cache is not that young.
    So after a call that probed, two further calls that check the cache
    within the 30 seconds make no probe, and a further call that checks it
    later makes exactly one. The age of the cache is [age]: the float that
    [time.time() - self.timestamp] gives. *)
Theorem cached_async_serves_fresh (c : InternetStatusCache) (t : trace) :
  let '(v1, c1, t1) := _check_internet_cached_async c t in
  ((probes t1 = S (probes t) /\
    v1 = probe_async E (t ++ [time_time; time_time]) /\
    c1 = {| has_internet := v1; timestamp := started_at t |})
   \/
   (probes t1 = probes t /\ v1 = has_internet c /\ c1 = c /\ within_ttl c t)) /\
  (within_ttl c t <-> probes t1 = probes t) /\
  (~ within_ttl c t ->
   let '(v2, c2, t2) := _check_internet_cached_async c1 t1 in
   let '(v3, c3, t3) := _check_internet_cached_async c2 t2 in
   (within_ttl c1 t1 -> within_ttl c1 t2 ->
    probes t3 = S (probes t) /\ v2 = v1 /\ v3 = v1) /\
   (~ within_ttl c1 t1 -> probes t2 = S (probes t1))).
Proof.
  destruct (cached_async_cases c t) as [[Hin ->] | [Hout ->]].
  - pose proof (probes_reads t) as Hp.
    split; [right; auto|]. split; [tauto|]. intros Hout. now elim Hout.
  - set (v1 := probe_async E (t ++ [time_time; time_time])).
    set (c1 := {| has_internet := v1; timestamp := started_at t |}).
    set (t1 := t ++ [time_time; time_time; check_internet_connectivity_async]).
    assert (Hp1 : probes t1 = S (probes t)) by apply probes_probed.
    split; [left; auto|].
    split; [split; [tauto | intros H; lia]|].
    intros _.
    destruct (cached_async_cases c1 t1) as [[Hin1 ->] | [Hout1 ->]].
    + set (t2 := t1 ++ [time_time; time_time]).
      assert (Hp2 : probes t2 = probes t1) by apply probes_reads.
      destruct (cached_async_cases c1 t2) as [[Hin2 ->] | [Hout2 ->]].
      * split; [|tauto]. intros _ _. rewrite probes_reads. repeat split; lia.
      * split; tauto.
    + set (w := probe_async E (t1 ++ [time_time; time_time])).
      set (c2 := {| has_internet := w; timestamp := started_at t1 |}).
      set (t2 := t1 ++ [time_time; time_time; check_internet_connectivity_async]).
      destruct (_check_internet_cached_async c2 t2) as [[v3 c3] t3].
      split; [tauto|]. intros _. apply probes_probed.
Qed.

End Cache.

(** *** A clock of one second per event *)

(** The clock reads 1000 at the start and a second more after every call. *)
Definition ticking : env := {|
  clock := fun t => fold_left (fun now _ => add now 1%float) t 1000%float;
  probe := fun _ => true;
  probe_async := fun _ => false
|}.

(** The cache as [__init__] leaves it. *)
Definition initial_cache : InternetStatusCache :=
  {| has_internet := true; timestamp := 0%float |}.

(** From the initial cache the first call probes, and the two calls that
    follow within the 30 seconds serve what it found: one probe in all. *)
Lemma cached_async_serves_fresh_witness :
  ~ within_ttl ticking initial_cache [] /\
  _check_internet_cached_async ticking initial_cache []
  = (false, {| has_internet := false; timestamp := 1000%float |},
     [time_time; time_time; check_internet_connectivity_async]) /\
  probes [time_time; time_time; check_internet_connectivity_async] = 1%nat /\
  (let '(v3, c3, t3) := thrice ticking initial_cache [] in
   probes t3 = 1%nat /\ v3 = false).
Proof.
  pose proof (cached_async_serves_fresh ticking initial_cache []) as H.
  assert (Hout : ~ within_ttl ticking initial_cache []).
  { intros Hlt. vm_compute in Hlt. discriminate. }
  split; [exact Hout|]. split; [reflexivity|]. split; [reflexivity|].
  unfold thrice, twice.
  destruct (_check_internet_cached_async ticking initial_cache []) as [[v1 c1] t1] eqn:E1.
  destruct H as (_ & _ & H). specialize (H Hout).
  inversion E1; subst v1 c1 t1.
  destruct (_check_internet_cached_async ticking _ _) as [[v2 c2] t2] eqn:E2.
  inversion E2; subst v2 c2 t2.
  destruct (_check_internet_cached_async ticking _ _) as [[v3 c3] t3] eqn:E3.
  destruct H as [H _].
  assert (H1 : within_ttl ticking
                 {| has_internet := false; timestamp := 1000%float |}
                 [time_time; time_time; check_internet_connectivity_async])
    by (vm_compute; reflexivity).
  assert (H2 : within_ttl ticking
                 {| has_internet := false; timestamp := 1000%float |}
                 [time_time; time_time; check_internet_connectivity_async;
                  time_time; time_time])
    by (vm_compute; reflexivity).
  destruct (H H1 H2) as (Hp & _ & Hv). split; [exact Hp | exact Hv].
Defined.

(** *** The age near the 30 seconds *)

(** A clock that stands at 30 seconds. *)
Definition standing : env := {|
  clock := fun _ => 30%float;
  probe := fun _ => true;
  probe_async := fun _ => false
|}.

(** The age is a float: for a cache stamped at [2^-60] and checked at
    [30.0] the subtraction rounds to [30.0], which is not less than 30, and
    the call probes. *)
Remark age_is_rounded :
  age standing {| has_internet := true; timestamp := 0x1p-60%float |} [] = 30%float /\
  _check_internet_cached_async standing
    {| has_internet := true; timestamp := 0x1p-60%float |} []
  = (false, {| has_internet := false; timestamp := 30%float |},
     [time_time; time_time; check_internet_connectivity_async]).
Proof. split; vm_compute; reflexivity. Qed.

End Connectivity.

(** ** Plugins

    [BaseCommand] and the plugins are not part of [command_manager.py]; a
    command is what the engine reads of it. What a command answers may
    depend on what happened before: its answers are functions of the trace. *)

Module Plugin.

(** A value passed to [translate] by keyword. *)
Inductive arg :=
| Text (s : str)
| Seconds (q : Q).

(** [get_remaining_cooldown]: absent or not callable, without a parameter,
    or with the user for parameter. *)
Inductive cooldown_accessor :=
| NoAccessor
| Global (remaining : trace -> Q)
| PerUser (remaining : trace -> str -> Q).

(** [_record_execution]: absent or not callable, without a parameter, or
    with the user for parameter. *)
Inductive recorder :=
| NoRecorder
| RecordGlobal
| RecordPerUser.

(** How [execute] ends: with its return value ([None] among them), or with
    an exception, given by its [str]. *)
Inductive ending :=
| Returned (success : option bool)
| Raised (error : str).

(** A run of [execute]: the responses it sends through
    [CommandManager.send_response], then its end. *)
Record execution := { responses : list str; ended : ending }.

Record command := {
  (* [cmd.name], where the command has the attribute *)
  name : option str;
  keywords : list str;
  should_execute : trace -> MeshMessage -> bool;
  can_execute : trace -> MeshMessage -> bool;
  can_execute_now : trace -> MeshMessage -> bool;
  requires_internet : bool;
  requires_dm : bool;
  is_channel_allowed : MeshMessage -> bool;
  requires_admin_access : bool;
  get_response_format : option str;
  format_response : MeshMessage -> str -> str;
  get_remaining_cooldown : cooldown_accessor;
  _record_execution : recorder;
  run : trace -> MeshMessage -> execution;
  translate : str -> list (str * arg) -> str;
  (* [command.last_response], where the command has the attribute *)
  last_response : trace -> option str;
  get_help_text : MeshMessage -> str;
  (* [get_available_commands_list()], where the command has the method *)
  get_available_commands_list : option str
}.

(** [self.commands]: a [dict], in the order of its keys. *)
Definition registry := list (str * command).

(** [d.get(key)] *)
Fixpoint get {A} (d : list (str * A)) (key : str) : option A :=
  match d with
  | [] => None
  | (k, v) :: rest => if str_eqb k key then Some v else get rest key
  end.

End Plugin.

Import Plugin.

(** ** The matching engine: [check_keywords] *)

Module Matching.

Import Connectivity.

(** What the engine reads besides the message. [str.lower] follows the
    Unicode case tables and [format_keyword_response] reads the clock and
    the database: both are taken as they come ([None] for a formatting
    that raises). *)
Record env := {
  lower : str -> str;
  commands : registry;
  (* [self.keywords] *)
  self_keywords : list (str * str);
  (* [self.bot.translator.translate], where the bot has a translator *)
  translator : option (str -> list (str * arg) -> str);
  format_keyword_response : str -> MeshMessage -> option str;
  net : Connectivity.env
}.

(** A match: the trigger and the response, [None] for a command that
    answers by itself. *)
Definition entry := (str * option str)%type.

(** [x in l] *)
Definition mem (x : str) (l : list str) : bool := existsb (str_eqb x) l.

(** [a <= b] on strings: by code points, a prefix first. *)
Fixpoint str_leb (a b : str) : bool :=
  match a, b with
  | [], _ => true
  | _ :: _, [] => false
  | x :: a', y :: b' => if (x <? y)%N then true else if (y <? x)%N then false else str_leb a' b'
  end.

Fixpoint insert_sorted (x : str) (l : list str) : list str :=
  match l with
  | [] => [x]
  | y :: rest => if str_leb x y then x :: l else y :: insert_sorted x rest
  end.

(** [sorted(l)] *)
Definition sorted (l : list str) : list str := fold_right insert_sorted [] l.

(** [sep.join(l)] *)
Fixpoint join (sep : str) (l : list str) : str :=
  match l with
  | [] => []
  | [x] => x
  | x :: rest => x ++ sep ++ join sep rest
  end.

(** [command_aliases] of [get_help_for_command] *)
Definition command_aliases : list (str * str) :=
  [(lit "t", lit "t_phrase"); (lit "advert", lit "advert"); (lit "test", lit "test");
   (lit "ping", lit "ping"); (lit "help", lit "help")].

Section Engine.

Variable E : env.

(** The content without surrounding whitespace and without a leading ['!']. *)
Definition command_text (message : MeshMessage) : str :=
  let content := strip (msg_content message) in
  if startswith content (lit "!") then strip (slice_from content 1) else content.

(** [get_general_help] *)
Definition get_general_help : str :=
  match get (self_keywords E) (lit "help") with
  | Some response => response
  | None => lit "Help not configured"
  end.

(** The text both branches of [get_help_for_command] answer for a command
    they found. *)
Definition specific_help (command_name help_text : str) : str :=
  match translator E with
  | Some tr =>
      tr (lit "commands.help.specific")
        [(lit "command", Text command_name); (lit "help_text", Text help_text)]
  | None => lit "Help " ++ command_name ++ lit ": " ++ help_text
  end.

(** The first command that has [command_name] among its keywords. *)
Fixpoint by_keyword (cmds : registry) (command_name : str) : option command :=
  match cmds with
  | [] => None
  | (_, cmd) :: rest =>
      if mem command_name (keywords cmd) then Some cmd else by_keyword rest command_name
  end.

(** [cmd.name if hasattr(cmd, 'name') else name] *)
Definition primary_name (item : str * command) : str :=
  match name (snd item) with Some n => n | None => fst item end.

(** [get_help_for_command]; a command takes the message with [get_help_text]. *)
Definition get_help_for_command (command_name : str) (message : MeshMessage) : str :=
  if mem (lower E command_name) [lit "commands"; lit "list"; lit "all"] then get_general_help
  else
    let normalized_name :=
      match get command_aliases command_name with Some n => n | None => command_name end in
    match get (commands E) normalized_name with
    | Some command => specific_help command_name (get_help_text command message)
    | None =>
        match by_keyword (commands E) command_name with
        | Some cmd => specific_help command_name (get_help_text cmd message)
        | None =>
            let available_str :=
              match get (commands E) (lit "help") with
              | Some help_command =>
                  match get_available_commands_list help_command with
                  | Some s => s
                  | None => []
                  end
              | None => []
              end in
            let available_str :=
              match available_str with
              | [] => join (lit ", ") (sorted (map primary_name (commands E)))
              | _ :: _ => available_str
              end in
            match translator E with
            | Some tr =>
                tr (lit "commands.help.unknown")
                  [(lit "command", Text command_name); (lit "available", Text available_str)]
            | None =>
                lit "Unknown: " ++ command_name ++ lit ". Available: " ++ available_str
                  ++ lit ". Try 'help' for command list."
            end
        end
    end.

(** The single match of the help path; the formatting is not guarded here. *)
Definition help_match (help_text : str) (message : MeshMessage) : outcome (list entry) :=
  match format_keyword_response E help_text message with
  | Some text => Done [(lit "help", Some text)]
  | None => Raise (OtherError (lit "format_keyword_response"))
  end.

(** [for help_keyword in help_keywords]: [Some] where the loop returns. *)
Fixpoint help_sweep (help_keywords : list str) (content_lower : str) (message : MeshMessage)
  : option (outcome (list entry)) :=
  match help_keywords with
  | [] => None
  | help_keyword :: rest =>
      if startswith content_lower (help_keyword ++ lit " ") then
        let command_name := strip (slice_from content_lower (len help_keyword)) in
        Some (help_match (get_help_for_command command_name message) message)
      else if str_eqb content_lower help_keyword then
        Some (help_match get_general_help message)
      else help_sweep rest content_lower message
  end.

(** [for command_name, command in self.commands.items()] *)
Fixpoint command_sweep (cmds : registry) (message : MeshMessage)
    (c : InternetStatusCache) (t : trace) : list entry * InternetStatusCache * trace :=
  match cmds with
  | [] => ([], c, t)
  | (command_name, command) :: rest =>
      if should_execute command t message then
        if negb (can_execute command t message) then command_sweep rest message c t
        else
          let '(has_internet, c, t) :=
            if requires_internet command then _check_internet_cached (net E) c t
            else (true, c, t) in
          if negb has_internet then command_sweep rest message c t
          else
            let found :=
              match get_response_format command with
              | Some (x :: response_format) =>
                  (command_name, Some (format_response command message (x :: response_format)))
              | Some [] => (command_name, None)
              | None => (command_name, None)
              end in
            let '(more, c, t) := command_sweep rest message c t in
            (found :: more, c, t)
      else command_sweep rest message c t
  end.

(** [any(keyword.lower() in [k.lower() for k in cmd.keywords] for cmd in self.commands.values())] *)
Definition owned (keyword : str) : bool :=
  existsb (fun item => mem (lower E keyword) (map (lower E) (keywords (snd item))))
    (commands E).

(** The formatted response, or the raw one when the formatting raises. *)
Definition respond (response_format : str) (message : MeshMessage) : str :=
  match format_keyword_response E response_format message with
  | Some response => response
  | None => response_format
  end.

(** [for keyword, response_format in self.keywords.items()] *)
Fixpoint residual_sweep (table : list (str * str)) (content_lower : str)
    (message : MeshMessage) : list entry :=
  match table with
  | [] => []
  | (keyword, response_format) :: rest =>
      let more := residual_sweep rest content_lower message in
      if owned keyword then more
      else
        let keyword_lower := lower E keyword in
        if str_eqb keyword_lower content_lower then
          (keyword, Some (respond response_format message)) :: more
        else if startswith content_lower keyword_lower then
          if (len content_lower =? len keyword_lower)
             || match nth_error content_lower (Z.to_nat (len keyword_lower)) with
                | Some ch => (ch =? 32)%N
                | None => false
                end
          then (keyword, Some (respond response_format message)) :: more
          else more
        else more
  end.

(** [check_keywords]: the matches, and the cache and the trace it leaves. *)
Definition check_keywords (message : MeshMessage) (c : InternetStatusCache) (t : trace)
  : outcome (list entry * InternetStatusCache * trace) :=
  let content_lower := lower E (command_text message) in
  let help_keywords :=
    match get (commands E) (lit "help") with
    | Some help_command => map (lower E) (keywords help_command)
    | None => [lit "help"]
    end in
  match help_sweep help_keywords content_lower message with
  | Some r => matches <- r ;; Done (matches, c, t)
  | None =>
      let '(matches, c, t) := command_sweep (commands E) message c t in
      Done (matches ++ residual_sweep (self_keywords E) content_lower message, c, t)
  end.

(** *** Keywords that a command owns *)

(** The matches that have [keyword] for trigger. *)
Definition triggered (keyword : str) (matches : list entry) : list entry :=
  filter (fun m => str_eqb (fst m) keyword) matches.

Lemma triggered_app keyword a b :
  triggered keyword (a ++ b) = triggered keyword a ++ triggered keyword b.
Proof. apply filter_app. Qed.

Lemma owned_by keyword command_name cmd :
  In (command_name, cmd) (commands E) ->
  In (lower E keyword) (map (lower E) (keywords cmd)) ->
  owned keyword = true.
Proof.
  intros Hcmd Hkw. unfold owned. apply existsb_exists.
  exists (command_name, cmd). split; [assumption|].
  unfold mem. apply existsb_exists. exists (lower E keyword).
  split; [assumption | now apply str_eqb_eq].
Qed.

Lemma residual_sweep_unowned table content_lower message : forall keyword response,
  In (keyword, response) (residual_sweep table content_lower message) ->
  owned keyword = false.
Proof.
  induction table as [|[k fmt] rest IH]; intros keyword response Hin; [contradiction|].
  cbn [residual_sweep] in Hin. destruct (owned k) eqn:Ek; [now apply IH in Hin|].
  assert (Hhead : forall r, In (keyword, response) ((k, r) :: residual_sweep rest content_lower message) ->
                            owned keyword = false).
  { intros r [H | H]; [inversion H; now subst | now apply IH in H]. }
  destruct (str_eqb (lower E k) content_lower); [now apply Hhead in Hin|].
  destruct (startswith content_lower (lower E k)); [|now apply IH in Hin].
  destruct (_ || _); [now apply Hhead in Hin | now apply IH in Hin].
Qed.

Lemma triggered_names keyword (names : list str) :
  NoDup names -> (length (filter (fun n => str_eqb n keyword) names) <= 1)%nat.
Proof.
  induction 1 as [|n rest Hnotin _ IH]; cbn [filter length]; [lia|].
  destruct (str_eqb n keyword) eqn:En; [|assumption].
  apply str_eqb_eq in En. subst n. cbn [length].
  assert (Hnone : filter (fun n => str_eqb n keyword) rest = []).
  { clear IH. induction rest as [|m rest IHr]; [reflexivity|]. cbn [filter].
    destruct (str_eqb m keyword) eqn:Em.
    - apply str_eqb_eq in Em. subst. elim Hnotin. now left.
    - apply IHr. intros H. apply Hnotin. now right. }
  rewrite Hnone. cbn. lia.
Qed.

(** The command sweep adds at most one match per command, under its name. *)
Lemma command_sweep_triggers keyword message : forall cmds c t,
  (length (triggered keyword (fst (fst (command_sweep cmds message c t))))
   <= length (filter (fun n => str_eqb n keyword) (map fst cmds)))%nat.
Proof.
  induction cmds as [|[command_name command] rest IH]; intros c t; [cbn; lia|].
  cbn [command_sweep map fst filter].
  assert (Hskip : forall c t,
    (length (triggered keyword (fst (fst (command_sweep rest message c t))))
     <= length (if str_eqb command_name keyword
                then command_name :: filter (fun n => str_eqb n keyword) (map fst rest)
                else filter (fun n => str_eqb n keyword) (map fst rest)))%nat).
  { intros c0 t0. specialize (IH c0 t0). destruct (str_eqb command_name keyword); cbn [length]; lia. }
  destruct (should_execute command t message); [|apply Hskip].
  destruct (negb (can_execute command t message)); [apply Hskip|].
  destruct (if requires_internet command then _check_internet_cached (net E) c t else (true, c, t))
    as [[has_internet c1] t1].
  destruct (negb has_internet); [apply Hskip|].
  specialize (IH c1 t1).
  destruct (command_sweep rest message c1 t1) as [[more c2] t2].
  cbn [fst] in *. unfold triggered in *.
  destruct (get_response_format command) as [[|x fmt]|]; cbn [filter fst];
    destruct (str_eqb command_name keyword); cbn [length]; lia.
Qed.

(** C8. A statically configured keyword that some registered command has in
    its keyword set (compared in lower case) is never matched by the sweep
    of the residual table; so, the names of the commands being the keys of
    a [dict], [check_keywords] returns at most one match under it. *)
Theorem owned_keyword_matches_once message keyword command_name cmd :
  In (command_name, cmd) (commands E) ->
  In (lower E keyword) (map (lower E) (keywords cmd)) ->
  (forall table content_lower response,
     ~ In (keyword, response) (residual_sweep table content_lower message)) /\
  (NoDup (map fst (commands E)) ->
   forall c t matches c' t',
     check_keywords message c t = Done (matches, c', t') ->
     (length (triggered keyword matches) <= 1)%nat).
Proof.
  intros Hcmd Hkw. pose proof (owned_by _ _ _ Hcmd Hkw) as Hown. split.
  - intros table content_lower response Hin.
    apply residual_sweep_unowned in Hin. congruence.
  - intros Hnodup c t matches c' t'. unfold check_keywords.
    destruct (help_sweep _ _ _) as [r|] eqn:Eh.
    + assert (Hr : r = Raise (OtherError (lit "format_keyword_response")) \/
                   exists text, r = Done [(lit "help", Some text)]).
      { clear -Eh. revert Eh.
        generalize (match get (commands E) (lit "help") with
                    | Some help_command => map (lower E) (keywords help_command)
                    | None => [lit "help"]
                    end).
        intros l. induction l as [|k rest IH]; cbn [help_sweep]; [discriminate|].
        unfold help_match.
        destruct (startswith _ _).
        { intros H. inversion H.
          destruct (format_keyword_response E _ message); [right; eauto | now left]. }
        destruct (str_eqb _ _); [|exact IH].
        intros H. inversion H.
        destruct (format_keyword_response E _ message); [right; eauto | now left]. }
      destruct Hr as [-> | (text & ->)]; cbn [bind]; [discriminate|].
      intros H. inversion H; subst. unfold triggered. cbn [filter fst].
      destruct (str_eqb _ keyword); cbn; lia.
    + pose proof (command_sweep_triggers keyword message (commands E) c t) as Hsweep.
      destruct (command_sweep (commands E) message c t) as [[found c1] t1].
      cbn [fst] in Hsweep. intros H. inversion H; subst.
      rewrite triggered_app, length_app.
      assert (Hres : triggered keyword
                       (residual_sweep (self_keywords E)
                          (lower E (command_text message)) message) = []).
      { unfold triggered. generalize (residual_sweep_unowned (self_keywords E)
                      (lower E (command_text message)) message).
        generalize (residual_sweep (self_keywords E) (lower E (command_text message)) message).
        intros l Hl. induction l as [|[k r] l IHl]; [reflexivity|]. cbn [filter fst].
        destruct (str_eqb k keyword) eqn:Ek.
        - apply str_eqb_eq in Ek. subst k.
          specialize (Hl keyword r (or_introl eq_refl)). congruence.
        - apply IHl. intros k' r' Hin. apply (Hl k' r'). now right. }
      rewrite Hres. cbn [length].
      pose proof (triggered_names keyword _ Hnodup). lia.
Qed.

End Engine.

(** *** A ["ping"] command and a static keyword ["ping"] *)

(** [str.lower] on ASCII letters. *)
Definition ascii_lower (s : str) : str :=
  map (fun ch => if (65 <=? ch)%N && (ch <=? 90)%N then (ch + 32)%N else ch) s.

Definition ping_command : command := {|
  name := Some (lit "ping");
  keywords := [lit "ping"; lit "Pong"];
  should_execute := fun _ m => str_eqb (ascii_lower (strip (msg_content m))) (lit "ping");
  can_execute := fun _ _ => true;
  can_execute_now := fun _ _ => true;
  requires_internet := false;
  requires_dm := false;
  is_channel_allowed := fun _ => true;
  requires_admin_access := false;
  get_response_format := Some (lit "Pong!");
  format_response := fun _ response_format => response_format;
  get_remaining_cooldown := NoAccessor;
  _record_execution := NoRecorder;
  run := fun _ _ => {| responses := []; ended := Returned None |};
  translate := fun key _ => key;
  last_response := fun _ => None;
  get_help_text := fun _ => lit "Replies with Pong";
  get_available_commands_list := None
|}.

Definition ping_bot : env := {|
  lower := ascii_lower;
  commands := [(lit "ping", ping_command)];
  self_keywords := [(lit "ping", lit "Pong from the table"); (lit "hello", lit "Hi")];
  translator := None;
  format_keyword_response := fun response_format _ => Some response_format;
  net := ticking
|}.

Definition ping_message : MeshMessage :=
  {| msg_content := lit "Ping"; msg_sender_id := lit "alice"; msg_is_dm := true;
     msg_channel := [] |}.

Lemma owned_keyword_matches_once_witness :
  In (lit "ping", ping_command) (commands ping_bot) /\
  In (lower ping_bot (lit "ping")) (map (lower ping_bot) (keywords ping_command)) /\
  NoDup (map fst (commands ping_bot)) /\
  check_keywords ping_bot ping_message initial_cache []
  = Done ([(lit "ping", Some (lit "Pong!"))], initial_cache, []) /\
  (length (triggered (lit "ping") [(lit "ping", Some (lit "Pong!"))]) <= 1)%nat.
Proof.
  assert (Hin : In (lit "ping", ping_command) (commands ping_bot)) by (left; reflexivity).
  assert (Hkw : In (lower ping_bot (lit "ping")) (map (lower ping_bot) (keywords ping_command)))
    by (left; reflexivity).
  assert (Hnd : NoDup (map fst (commands ping_bot)))
    by (constructor; [intros [] | constructor]).
  assert (Hrun : check_keywords ping_bot ping_message initial_cache []
                 = Done ([(lit "ping", Some (lit "Pong!"))], initial_cache, []))
    by (vm_compute; reflexivity).
  split; [exact Hin|]. split; [exact Hkw|]. split; [exact Hnd|]. split; [exact Hrun|].
  exact (proj2 (owned_keyword_matches_once ping_bot ping_message (lit "ping") (lit "ping")
                  ping_command Hin Hkw) Hnd _ _ _ _ _ Hrun).
Defined.

End Matching.

(** ** The execution gate and orchestrator: [execute_commands] *)

Module Orchestrator.

Import Connectivity Delivery.

Record env := {
  commands : registry;
  delivery : Delivery.env;
  net : Connectivity.env;
  (* [bot.web_viewer_integration] and its [bot_integration] are there *)
  web_viewer : bool
}.

(** What a [CommandManager] holds and changes, with the trace of its calls. *)
Record manager := {
  events : trace;
  _internet_cache : InternetStatusCache;
  _last_response : option str
}.

Definition with_events (m : manager) (t : trace) : manager :=
  {| events := t; _internet_cache := _internet_cache m; _last_response := _last_response m |}.

Definition emit (c : call) (m : manager) : manager := with_events m (events m ++ [c]).

Section Gate.

Variable E : env.

(** [send_response]; [except Exception] answers [False]. *)
Definition send_response (fuel : nat) (message : MeshMessage) (content : str) (m : manager)
  : outcome (bool * manager) :=
  let m := {| events := events m; _internet_cache := _internet_cache m;
              _last_response := Some content |} in
  let sent :=
    if msg_is_dm message then send_dm (delivery E) fuel (msg_sender_id message) content (events m)
    else send_channel_message (delivery E) fuel (msg_channel message) content (events m) in
  match sent with
  | Done (success, t) => Done (success, with_events m t)
  | Raise _ => Done (false, m)
  | OutOfFuel => OutOfFuel
  end.

(** [stats_command.record_command(message, command_name, response_sent)],
    where [self.commands] has a ['stats'] command. *)
Definition record_stats (command_name : str) (response_sent : bool) (m : manager) : manager :=
  match get (commands E) (lit "stats") with
  | Some _ => emit (record_command command_name response_sent) m
  | None => m
  end.

(** A rejection that is told to the user. *)
Definition tell (fuel : nat) (message : MeshMessage) (error_msg : str) (m : manager)
  : outcome (bool * manager) :=
  r <- send_response fuel message error_msg m ;;
  Done (true, snd r).

(** The branch [if not command.can_execute_now(message)]. *)
Definition reject (fuel : nat) (command_name : str) (command : command)
    (message : MeshMessage) (m : manager) : outcome manager :=
  r <- (if requires_dm command && negb (msg_is_dm message) then
          if is_channel_allowed command message then
            tell fuel message
              (translate command (lit "errors.dm_only") [(lit "command", Text command_name)]) m
          else Done (false, m)
        else if requires_admin_access command then
          tell fuel message
            (translate command (lit "errors.access_denied") [(lit "command", Text command_name)]) m
        else
          match get_remaining_cooldown command with
          | NoAccessor => Done (false, m)
          | Global remaining_of =>
              let remaining := remaining_of (events m) in
              if Qltb 0 remaining then
                tell fuel message
                  (translate command (lit "errors.cooldown")
                     [(lit "command", Text command_name); (lit "seconds", Seconds remaining)]) m
              else Done (false, m)
          | PerUser remaining_of =>
              let remaining := remaining_of (events m) (msg_sender_id message) in
              if Qltb 0 remaining then
                tell fuel message
                  (translate command (lit "errors.cooldown")
                     [(lit "command", Text command_name); (lit "seconds", Seconds remaining)]) m
              else Done (false, m)
          end) ;;
  Done (record_stats command_name (fst r) (snd r)).

(** The branch taken when the command needs the internet and there is none. *)
Definition no_internet (fuel : nat) (command_name : str) (command : command)
    (message : MeshMessage) (m : manager) : outcome manager :=
  let error_msg := translate command (lit "errors.no_internet") [(lit "command", Text command_name)] in
  let error_msg :=
    if str_eqb error_msg (lit "errors.no_internet") then
      command_name ++ lit " unavailable: No internet connection available"
    else error_msg in
  r <- send_response fuel message error_msg m ;;
  Done (record_stats command_name true (snd r)).

(** The responses a command sends while it executes. *)
Fixpoint send_responses (fuel : nat) (message : MeshMessage) (contents : list str)
    (m : manager) : outcome manager :=
  match contents with
  | [] => Done m
  | content :: rest =>
      r <- send_response fuel message content m ;;
      send_responses fuel message rest (snd r)
  end.

Definition nonempty (s : option str) : option str :=
  match s with
  | Some (x :: rest) => Some (x :: rest)
  | Some [] => None
  | None => None
  end.

(** The [try] of [execute_commands] and its [except Exception]. *)
Definition execute_command (fuel : nat) (command_name : str) (command : command)
    (message : MeshMessage) (m : manager) : outcome manager :=
  let m :=
    match _record_execution command with
    | NoRecorder => m
    | RecordGlobal => emit (record_execution command_name None) m
    | RecordPerUser => emit (record_execution command_name (Some (msg_sender_id message))) m
    end in
  let ex := run command (events m) message in
  let m := emit (execute command_name) m in
  m <- send_responses fuel message (responses ex) m ;;
  match ended ex with
  | Returned success =>
      let m := emit (sleep 100) m in
      let response :=
        match nonempty (last_response command (events m)) with
        | Some r => Some r
        | None => nonempty (_last_response m)
        end in
      let response_sent := match response with Some _ => true | None => false end in
      let m := record_stats command_name response_sent m in
      Done (if web_viewer E then
              emit (capture_command command_name
                      (match response with Some r => r | None => lit "Command executed" end)
                      (match success with Some b => b | None => true end)) m
            else m)
  | Raised error =>
      let error_msg :=
        translate command (lit "errors.execution_error")
          [(lit "command", Text command_name); (lit "error", Text error)] in
      r <- send_response fuel message error_msg m ;;
      let m := record_stats command_name true (snd r) in
      Done (if web_viewer E then
              emit (capture_command command_name (lit "Error: " ++ error) false) m
            else m)
  end.

(** What the loop does with a command that matches and has no response
    format, up to its [return]. *)
Definition handle (fuel : nat) (command_name : str) (command : command)
    (message : MeshMessage) (m : manager) : outcome manager :=
  if negb (can_execute_now command (events m) message) then
    reject fuel command_name command message m
  else if requires_internet command then
    let '(has_internet, c, t) :=
      _check_internet_cached_async (net E) (_internet_cache m) (events m) in
    let m := {| events := t; _internet_cache := c; _last_response := _last_response m |} in
    if negb has_internet then no_internet fuel command_name command message m
    else execute_command fuel command_name command message m
  else execute_command fuel command_name command message m.

(** [for command_name, command in self.commands.items()] *)
Fixpoint sweep (fuel : nat) (cmds : registry) (message : MeshMessage) (m : manager)
  : outcome manager :=
  match cmds with
  | [] => Done m
  | (command_name, command) :: rest =>
      if should_execute command (events m) message then
        match get_response_format command with
        | Some _ => sweep fuel rest message m
        | None => handle fuel command_name command message m
        end
      else sweep fuel rest message m
  end.

(** [execute_commands] *)
Definition execute_commands (fuel : nat) (message : MeshMessage) (m : manager)
  : outcome manager :=
  sweep fuel (commands E) message m.

(** *** One command per message *)

Definition is_execute (c : call) : bool :=
  match c with
  | execute _ => true
  | _ => false
  end.

(** The number of calls of an [execute] method on a trace. *)
Definition executions (t : trace) : nat := length (filter is_execute t).

Lemma executions_app t u : executions (t ++ u) = (executions t + executions u)%nat.
Proof. unfold executions. now rewrite filter_app, length_app. Qed.

(** A call other than [execute] leaves the count as it is. *)
Lemma executions_other t c : is_execute c = false -> executions (t ++ [c]) = executions t.
Proof.
  intros H. rewrite executions_app. unfold executions at 2. cbn [filter]. rewrite H. cbn. lia.
Qed.

Ltac calm :=
  repeat (rewrite executions_other by reflexivity); try reflexivity.

Section Sends.

Variable D : Delivery.env.

Lemma apply_tx_delay_calm t : executions (_apply_tx_delay D t) = executions t.
Proof. unfold _apply_tx_delay. destruct (_ >? 0); now calm. Qed.

Lemma check_rate_limits_calm t : executions (snd (_check_rate_limits D t)) = executions t.
Proof.
  unfold _check_rate_limits. destruct (negb _); cbn [snd]; [reflexivity|].
  rewrite apply_tx_delay_calm. now calm.
Qed.

Lemma handle_send_result_calm r operation_name target used t :
  executions (snd (_handle_send_result r operation_name target used t)) = executions t.
Proof.
  assert (Hboth : executions (record_both t) = executions t).
  { unfold record_both. rewrite executions_app. cbn. lia. }
  destruct r as [|[| | |n] p|]; cbn [_handle_send_result snd]; auto.
  destruct (str_eqb _ _); cbn [snd]; auto.
  destruct (is_no_event_received _); cbn [snd]; auto.
Qed.

Lemma send_to_contact_calm to content t :
  executions (snd (send_to_contact D to content t)) = executions t.
Proof.
  unfold send_to_contact, perform.
  destruct (has_send_msg_with_retry D); destruct (transmit D t _); cbn [snd]; now calm.
Qed.

Lemma send_dm_single_calm recipient_id content t :
  executions (snd (_send_dm_single D recipient_id content t)) = executions t.
Proof.
  unfold _send_dm_single. pose proof (check_rate_limits_calm t) as Hr.
  destruct (_check_rate_limits D t) as [ok t1]. cbn [snd] in Hr.
  destruct (negb ok); cbn [snd]; [assumption|].
  destruct (get_contact_by_name D t1 recipient_id) as [to|]; cbn [snd]; [|assumption].
  pose proof (send_to_contact_calm to content t1) as Hs.
  destruct (send_to_contact D to content t1) as [a t2]. cbn [snd] in Hs.
  destruct a as [r| |]; cbn [snd]; try congruence.
  rewrite handle_send_result_calm. congruence.
Qed.

Lemma send_channel_single_calm channel content t :
  executions (snd (_send_channel_message_single D channel content t)) = executions t.
Proof.
  unfold _send_channel_message_single, perform. pose proof (check_rate_limits_calm t) as Hr.
  destruct (_check_rate_limits D t) as [ok t1]. cbn [snd] in Hr.
  destruct (negb ok); cbn [snd]; [assumption|].
  destruct (get_channel_number D t1 channel) as [num|]; cbn [snd]; [|assumption].
  destruct (transmit D t1 _) as [r| |]; cbn [snd];
    rewrite ?handle_send_result_calm; calm; assumption.
Qed.

Lemma send_each_calm single :
  (forall part t, executions (snd (single part t)) = executions t) ->
  forall parts i count t,
    executions (snd (send_each single i count parts t)) = executions t.
Proof.
  intros Hsingle. induction parts as [|part rest IH]; intros i count t; [reflexivity|].
  cbn [send_each]. specialize (Hsingle part t).
  destruct (single part t) as [ok t1]. cbn [snd] in Hsingle.
  destruct (negb ok); cbn [snd]; [assumption|].
  rewrite IH. destruct (i <? count - 1); calm; assumption.
Qed.

Lemma send_dm_calm fuel recipient_id content t success t' :
  send_dm D fuel recipient_id content t = Done (success, t') ->
  executions t' = executions t.
Proof.
  unfold send_dm. destruct (negb _); [intros H; now inversion H|].
  destruct (Splitter.split_message _ _ _) as [parts| |]; cbn [bind]; try discriminate.
  intros H. inversion H.
  change t' with (snd (success, t')). rewrite <- H1.
  apply send_each_calm. apply send_dm_single_calm.
Qed.

Lemma send_channel_message_calm fuel channel content t success t' :
  send_channel_message D fuel channel content t = Done (success, t') ->
  executions t' = executions t.
Proof.
  unfold send_channel_message. destruct (negb _); [intros H; now inversion H|].
  destruct (channel_max_bytes D t) as [max_bytes| |]; cbn [bind]; try discriminate.
  destruct (Splitter.split_message _ _ _) as [parts| |]; cbn [bind]; try discriminate.
  intros H. inversion H.
  change t' with (snd (success, t')). rewrite <- H1.
  apply send_each_calm. apply send_channel_single_calm.
Qed.

End Sends.

Lemma send_response_calm fuel message content m success m' :
  send_response fuel message content m = Done (success, m') ->
  executions (events m') = executions (events m).
Proof.
  unfold send_response. cbn [events].
  destruct (msg_is_dm message).
  - destruct (send_dm _ _ _ _ _) as [[ok t]| |] eqn:Es; try discriminate.
    + intros H. inversion H; subst. cbn [with_events events].
      eapply send_dm_calm; eauto.
    + intros H. now inversion H.
  - destruct (send_channel_message _ _ _ _ _) as [[ok t]| |] eqn:Es; try discriminate.
    + intros H. inversion H; subst. cbn [with_events events].
      eapply send_channel_message_calm; eauto.
    + intros H. now inversion H.
Qed.

Lemma record_stats_calm command_name response_sent m :
  executions (events (record_stats command_name response_sent m)) = executions (events m).
Proof.
  unfold record_stats. destruct (get _ _); [|reflexivity].
  cbn [emit with_events events]. now calm.
Qed.

Lemma tell_calm fuel message error_msg m sent m' :
  tell fuel message error_msg m = Done (sent, m') ->
  executions (events m') = executions (events m).
Proof.
  unfold tell. destruct (send_response _ _ _ _) as [[ok m1]| |] eqn:Es; cbn [bind]; try discriminate.
  intros H. inversion H; subst. cbn [snd]. eapply send_response_calm; eauto.
Qed.

(** A rejection executes no command. *)
Lemma reject_calm fuel command_name command message m m' :
  reject fuel command_name command message m = Done m' ->
  executions (events m') = executions (events m).
Proof.
  unfold reject.
  match goal with |- context [bind ?x _] => destruct x as [[sent m1]| |] eqn:Er end;
    cbn [bind]; try discriminate.
  intros H. inversion H; subst. cbn [fst snd]. rewrite record_stats_calm.
  assert (Hno : forall s mm, Done (false, m) = Done (s, mm) ->
                executions (events mm) = executions (events m))
    by (intros s mm Hd; now inversion Hd).
  destruct (requires_dm command && negb (msg_is_dm message)).
  { destruct (is_channel_allowed command message); eauto using tell_calm. }
  destruct (requires_admin_access command); eauto using tell_calm.
  destruct (get_remaining_cooldown command) as [|rem|rem]; eauto;
    destruct (Qltb 0 _); eauto using tell_calm.
Qed.

Lemma no_internet_calm fuel command_name command message m m' :
  no_internet fuel command_name command message m = Done m' ->
  executions (events m') = executions (events m).
Proof.
  unfold no_internet.
  destruct (send_response _ _ _ _) as [[ok m1]| |] eqn:Es; cbn [bind]; try discriminate.
  intros H. inversion H; subst. cbn [snd]. rewrite record_stats_calm.
  eapply send_response_calm; eauto.
Qed.

Lemma send_responses_calm fuel message contents : forall m m',
  send_responses fuel message contents m = Done m' ->
  executions (events m') = executions (events m).
Proof.
  induction contents as [|content rest IH]; intros m m' H; cbn [send_responses] in H.
  - now inversion H.
  - destruct (send_response _ _ _ _) as [[ok m1]| |] eqn:Es; cbn [bind] in H; try discriminate.
    cbn [snd] in H. apply IH in H. rewrite H. eapply send_response_calm; eauto.
Qed.

(** The execution branch calls [execute] once. *)
Lemma execute_command_once fuel command_name command message m m' :
  execute_command fuel command_name command message m = Done m' ->
  executions (events m') = S (executions (events m)).
Proof.
  unfold execute_command.
  set (m0 := match _record_execution command with
             | NoRecorder => m
             | RecordGlobal => emit (record_execution command_name None) m
             | RecordPerUser =>
                 emit (record_execution command_name (Some (msg_sender_id message))) m
             end).
  assert (H0 : executions (events m0) = executions (events m)).
  { unfold m0. destruct (_record_execution command); cbn [emit with_events events]; now calm. }
  assert (H1 : executions (events (emit (execute command_name) m0))
               = S (executions (events m))).
  { cbn [emit with_events events]. rewrite executions_app. cbn. lia. }
  destruct (send_responses _ _ _ _) as [m2| |] eqn:Es; cbn [bind]; try discriminate.
  apply send_responses_calm in Es.
  destruct (ended _) as [success|error].
  - intros H. inversion H; subst. clear H.
    destruct (web_viewer E); cbn [emit with_events events];
      rewrite ?executions_other by reflexivity;
      rewrite record_stats_calm; cbn [emit with_events events];
      rewrite ?executions_other by reflexivity; congruence.
  - destruct (send_response _ _ _ m2) as [[ok m3]| |] eqn:Er; cbn [bind]; try discriminate.
    apply send_response_calm in Er.
    intros H. inversion H; subst. clear H. cbn [snd].
    destruct (web_viewer E); cbn [emit with_events events];
      rewrite ?executions_other by reflexivity;
      rewrite record_stats_calm; congruence.
Qed.

Lemma handle_at_most_once fuel command_name command message m m' :
  handle fuel command_name command message m = Done m' ->
  (executions (events m') <= S (executions (events m)))%nat.
Proof.
  unfold handle. destruct (negb (can_execute_now _ _ _)).
  { intros H. apply reject_calm in H. lia. }
  destruct (requires_internet command).
  - pose proof (cached_async_cases (net E) (_internet_cache m) (events m)) as Hc.
    destruct (_check_internet_cached_async _ _ _) as [[has c] t].
    assert (Ht : executions t = executions (events m)).
    { destruct Hc as [[_ Hc] | [_ Hc]]; inversion Hc; subst;
        rewrite executions_app; cbn; lia. }
    destruct (negb has); intros H.
    + apply no_internet_calm in H. cbn [events] in H. lia.
    + apply execute_command_once in H. cbn [events] in H. lia.
  - intros H. apply execute_command_once in H. lia.
Qed.

(** The manager after the asynchronous check of the connectivity. *)
Definition after_check (m : manager) : manager :=
  let '(_, c, t) := _check_internet_cached_async (net E) (_internet_cache m) (events m) in
  {| events := t; _internet_cache := c; _last_response := _last_response m |}.

(** A command the sweep passes over: it does not match, or it has a
    response format and was answered by [check_keywords]. *)
Definition passed_over (message : MeshMessage) (m : manager) (item : str * command) : Prop :=
  should_execute (snd item) (events m) message = false \/
  get_response_format (snd item) <> None.

Lemma sweep_passes fuel message m pre : forall rest,
  Forall (passed_over message m) pre ->
  sweep fuel (pre ++ rest) message m = sweep fuel rest message m.
Proof.
  induction pre as [|[n c] pre IH]; intros rest Hpre; [reflexivity|].
  inversion Hpre as [|? ? [Hno | Hfmt] Hrest]; subst; cbn [app sweep snd] in *.
  - rewrite Hno. now apply IH.
  - destruct (should_execute c (events m) message); [|now apply IH].
    destruct (get_response_format c); [now apply IH | congruence].
Qed.

(** C4. [execute_commands] calls the [execute] method of at most one command;
    and where [command] is the first command that matches the message and
    has no response format, the call is what the loop does with that
    command up to its [return] (a rejection, the message that there is no
    internet, or the execution), whatever commands come after it. *)
Theorem execute_commands_handles_one fuel message m :
  (forall m', execute_commands fuel message m = Done m' ->
     (executions (events m') <= S (executions (events m)))%nat) /\
  (forall pre command_name command post,
     commands E = pre ++ (command_name, command) :: post ->
     Forall (passed_over message m) pre ->
     should_execute command (events m) message = true ->
     get_response_format command = None ->
     execute_commands fuel message m = handle fuel command_name command message m /\
     (handle fuel command_name command message m
        = reject fuel command_name command message m \/
      handle fuel command_name command message m
        = no_internet fuel command_name command message (after_check m) \/
      handle fuel command_name command message m
        = execute_command fuel command_name command message (after_check m) \/
      handle fuel command_name command message m
        = execute_command fuel command_name command message m)).
Proof.
  split.
  - unfold execute_commands. generalize (commands E). intros cmds.
    induction cmds as [|[n c] rest IH]; intros m' H; cbn [sweep] in H.
    + inversion H. lia.
    + destruct (should_execute c (events m) message); [|now apply IH].
      destruct (get_response_format c); [now apply IH|].
      eapply handle_at_most_once; eauto.
  - intros pre command_name command post Hcmds Hpre Hmatch Hfmt. split.
    + unfold execute_commands. rewrite Hcmds, sweep_passes by assumption.
      cbn [sweep]. now rewrite Hmatch, Hfmt.
    + unfold handle, after_check. destruct (negb (can_execute_now _ _ _)); [now left|].
      destruct (requires_internet command); [|now right; right; right].
      destruct (_check_internet_cached_async _ _ _) as [[has c] t].
      destruct (negb has); right; [left | right; left]; reflexivity.
Qed.

End Gate.

(** *** Two commands that both match *)

Definition self_handling (reply : str) : command := {|
  name := None;
  keywords := [];
  should_execute := fun _ _ => true;
  can_execute := fun _ _ => true;
  can_execute_now := fun _ _ => true;
  requires_internet := false;
  requires_dm := false;
  is_channel_allowed := fun _ => true;
  requires_admin_access := false;
  get_response_format := None;
  format_response := fun _ response_format => response_format;
  get_remaining_cooldown := NoAccessor;
  _record_execution := RecordGlobal;
  run := fun _ _ => {| responses := [reply]; ended := Returned (Some true) |};
  translate := fun key _ => key;
  last_response := fun _ => None;
  get_help_text := fun _ => [];
  get_available_commands_list := None
|}.

(** A command with a response format, then two that answer by themselves. *)
Definition two_matching : env := {|
  commands := [(lit "ping", Matching.ping_command);
               (lit "wx", self_handling (lit "sunny"));
               (lit "echo", self_handling (lit "echo"))];
  delivery := failing_second;
  net := ticking;
  web_viewer := false
|}.

Definition fresh_manager : manager :=
  {| events := []; _internet_cache := initial_cache; _last_response := None |}.

(** Only ["wx"] is executed: its response goes out, and ["echo"], which
    matches as well, is never looked at. *)
Lemma execute_commands_handles_one_witness :
  commands two_matching
  = [(lit "ping", Matching.ping_command)]
      ++ (lit "wx", self_handling (lit "sunny")) :: [(lit "echo", self_handling (lit "echo"))] /\
  Forall (passed_over Matching.ping_message fresh_manager) [(lit "ping", Matching.ping_command)] /\
  execute_commands two_matching 1 Matching.ping_message fresh_manager
  = handle two_matching 1 (lit "wx") (self_handling (lit "sunny"))
      Matching.ping_message fresh_manager /\
  execute_commands two_matching 1 Matching.ping_message fresh_manager
  = Done {| events := [record_execution (lit "wx") None; execute (lit "wx");
                       wait_for_tx; send_msg_with_retry peer (lit "sunny") 3 2 2 0;
                       record_send; record_tx; sleep 100];
            _internet_cache := initial_cache;
            _last_response := Some (lit "sunny") |}.
Proof.
  assert (Hpre : Forall (passed_over Matching.ping_message fresh_manager)
                   [(lit "ping", Matching.ping_command)]).
  { constructor; [right; discriminate | constructor]. }
  split; [reflexivity|]. split; [exact Hpre|]. split.
  - exact (proj1 (proj2 (execute_commands_handles_one two_matching 1
                           Matching.ping_message fresh_manager)
                    [(lit "ping", Matching.ping_command)] (lit "wx")
                    (self_handling (lit "sunny"))
                    [(lit "echo", self_handling (lit "echo"))]
                    eq_refl Hpre eq_refl eq_refl)).
  - vm_compute. reflexivity.
Defined.

End Orchestrator.

(** ** More on the splitter *)

Module SplitterFacts.

Import Splitter.

(** X1. [_find_byte_safe_split] answers the largest index whose prefix fits the
    budget: the prefix up to it fits, and no longer prefix does. *)
Theorem find_byte_safe_split_largest text max_bytes n :
  utf8_len text = Done n -> 0 <= max_bytes ->
  exists r,
    _find_byte_safe_split text max_bytes = Done r /\
    0 <= r <= len text /\
    (exists k, utf8_len (slice_to text r) = Done k /\ k <= max_bytes) /\
    (forall j, r < j <= len text ->
       exists k, utf8_len (slice_to text j) = Done k /\ max_bytes < k).
Proof.
  intros Hn Hmax. destruct (utf8_len_Done _ _ Hn) as [Henc _].
  destruct (find_byte_safe_split_spec text max_bytes Henc Hmax)
    as (r & Hr & Hrng & Hfit & Hnext).
  exists r. repeat split; try assumption; try lia.
  - exists (blen (slice_to text r)). split; [|assumption].
    apply utf8_len_encodable, encodable_firstn, Henc.
  - intros j Hj. exists (blen (slice_to text j)). split.
    + apply utf8_len_encodable, encodable_firstn, Henc.
    + destruct Hnext as [-> | Hgt]; [lia|].
      rewrite slice_to_nonneg in * by lia.
      pose proof (blen_firstn_mono (Z.to_nat (r + 1)) (Z.to_nat j) text ltac:(lia)). lia.
Qed.

Lemma find_byte_safe_split_largest_witness :
  utf8_len [128512%N; 65%N; 128513%N] = Done 9 /\
  0 <= 6 /\
  exists r,
    _find_byte_safe_split [128512%N; 65%N; 128513%N] 6 = Done r /\
    0 <= r <= len [128512%N; 65%N; 128513%N] /\
    (exists k, utf8_len (slice_to [128512%N; 65%N; 128513%N] r) = Done k /\ k <= 6) /\
    (forall j, r < j <= len [128512%N; 65%N; 128513%N] ->
       exists k, utf8_len (slice_to [128512%N; 65%N; 128513%N] j) = Done k /\ 6 < k).
Proof.
  split; [reflexivity|]. split; [lia|].
  apply (find_byte_safe_split_largest [128512%N; 65%N; 128513%N] 6 9); [reflexivity | lia].
Defined.

(** X2. When not even the first code point fits the budget (a negative budget
    among them) the answer is the index 0. *)
Theorem find_byte_safe_split_nothing text max_bytes c rest w :
  text = c :: rest -> utf8_len text <> Raise UnicodeEncodeError ->
  utf8_width c = Some w -> max_bytes < w ->
  _find_byte_safe_split text max_bytes = Done 0.
Proof.
  intros -> Hok Hw Hlt.
  destruct (utf8_len_cases (c :: rest)) as [[Henc Hn] | Hn]; [|congruence].
  assert (Hfirst : max_bytes < blen (slice_to (c :: rest) 1)).
  { change (blen (slice_to (c :: rest) 1)) with (width c + 0).
    unfold width. rewrite Hw. lia. }
  unfold _find_byte_safe_split. rewrite Hn. cbn [bind].
  assert (blen (slice_to (c :: rest) 1) <= blen (c :: rest)) by apply blen_firstn_le.
  destruct (blen (c :: rest) <=? max_bytes) eqn:E; [apply Z.leb_le in E; lia|].
  apply bisect_nothing_fits; auto; unfold len; lia.
Qed.

Lemma find_byte_safe_split_nothing_witness :
  utf8_len [128512%N; 65%N] <> Raise UnicodeEncodeError /\
  utf8_width 128512%N = Some 4 /\
  _find_byte_safe_split [128512%N; 65%N] (-3) = Done 0.
Proof.
  assert (H : utf8_len [128512%N; 65%N] <> Raise UnicodeEncodeError) by discriminate.
  split; [exact H|]. split; [reflexivity|].
  apply (find_byte_safe_split_nothing [128512%N; 65%N] (-3) 128512%N [65%N] 4 eq_refl H eq_refl).
  lia.
Defined.

(** X3. Under the budget, a content that does not fit is split, and its parts
    stay within [max_bytes] unless the renumbering pass writes a total with
    more digits than the estimate had. *)
Theorem parts_within_estimate content max_bytes n :
  utf8_len content = Done n -> max_bytes < n -> min_budget n <= max_bytes ->
  exists parts,
    split_message (length content) content (Some max_bytes) = Done parts /\
    (len (str_of_int (len parts)) <= len (str_of_int (estimate n max_bytes)) ->
     within max_bytes parts).
Proof. apply split_message_within. Qed.

Lemma parts_within_estimate_witness :
  utf8_len (lit "hello world, this is") = Done 20 /\
  12 < 20 /\
  min_budget 20 <= 12 /\
  exists parts,
    split_message 20 (lit "hello world, this is") (Some 12) = Done parts /\
    (len (str_of_int (len parts)) <= len (str_of_int (estimate 20 12)) -> within 12 parts).
Proof.
  split; [reflexivity|]. split; [lia|]. split; [vm_compute; discriminate|].
  apply (parts_within_estimate (lit "hello world, this is") 12 20);
    [reflexivity | lia | vm_compute; discriminate].
Defined.

(** *** How many parts *)

Lemma renumber_length parts : forall i total, length (renumber i total parts) = length parts.
Proof. induction parts as [|p rest IH]; intros; simpl; [reflexivity | now rewrite IH]. Qed.

(** [1] for a text that is not empty, [0] for the empty one. *)
Definition some (s : str) : nat := match s with [] => 0 | _ :: _ => 1 end.

(** Every round that goes on takes at least one code point: the loop adds
    a part when there is text left, and no more parts than [remaining] has
    code points. *)
Lemma while_remaining_count max_bytes est : forall fuel st ps,
  encodable (remaining st) ->
  (forall st', reach max_bytes est st st' -> remaining st' <> [] -> roomy max_bytes est st') ->
  while_remaining fuel max_bytes est st = Done ps ->
  (length (parts st) + some (remaining st) <= length ps
   <= length (parts st) + length (remaining st))%nat.
Proof.
  induction fuel as [|f IH]; intros st ps Henc Hroomy Hrun.
  - cbn [while_remaining] in Hrun. destruct (remaining st); [|discriminate].
    inversion Hrun; subst. simpl. lia.
  - cbn [while_remaining] in Hrun. destruct (remaining st) as [|c t] eqn:Erem.
    { inversion Hrun; subst. simpl. lia. }
    assert (Hne : remaining st <> []) by (rewrite Erem; discriminate).
    pose proof (Hroomy st (reach_here _ _ st) Hne) as Hr. apply roomy_iff in Hr.
    rewrite <- Erem in *.
    assert (Hsome : some (remaining st) = 1%nat) by (rewrite Erem; reflexivity).
    assert (Hlen : (1 <= length (remaining st))%nat) by (rewrite Erem; simpl; lia).
    rewrite Hsome.
    destruct (loop_body_step max_bytes est st Henc ltac:(lia))
      as [[Hfit Hb] | [Hbig (i & Hsp & Hrng & Hfit & Hpos & Hb)]];
      rewrite Hb in Hrun; cbn [bind] in Hrun.
    + inversion Hrun; subst. rewrite length_app. cbn [length]. lia.
    + specialize (Hpos Hr Hne).
      apply IH in Hrun.
      * cbn [remaining parts] in Hrun. rewrite length_app in Hrun. cbn [length] in Hrun.
        rewrite slice_from_nonneg in Hrun by lia.
        pose proof (lstrip_length (skipn (Z.to_nat i) (remaining st))) as Hl.
        rewrite length_skipn in Hl. unfold len in Hrng. lia.
      * cbn [remaining]. apply encodable_lstrip, encodable_skipn, Henc.
      * intros st' Hreach. apply Hroomy. eapply reach_next; eauto.
Qed.

(** X4. A content that does not fit comes back in at least one part and in no
    more parts than it has code points. *)
Theorem split_message_count content max_bytes n :
  utf8_len content = Done n -> max_bytes < n -> min_budget n <= max_bytes ->
  exists parts,
    split_message (length content) content (Some max_bytes) = Done parts /\
    1 <= len parts <= len content.
Proof.
  intros Hn Hbig Hbudget.
  destruct (utf8_len_Done _ _ Hn) as [Henc Hnb].
  assert (Hd : 1 <= len (str_of_int n)) by apply str_of_int_nonempty.
  unfold min_budget in Hbudget.
  assert (Hne : content <> []).
  { intros ->. cbn in Hnb. lia. }
  unfold split_message. rewrite Hn. cbn [bind].
  destruct (n <=? max_bytes) eqn:E; [apply Z.leb_le in E; lia|].
  destruct (max_bytes - 7 =? 0) eqn:E7; [apply Z.eqb_eq in E7; lia|].
  change ((n + (max_bytes - 7) - 1) / (max_bytes - 7)) with (estimate n max_bytes).
  change {| remaining := content; part_num := 1; parts := [] |} with (start content).
  pose proof (budget_roomy content max_bytes n Hn Hbig ltac:(unfold min_budget; lia)) as Hroomy.
  destruct (while_remaining_spec max_bytes (estimate n max_bytes) (length content) (start content))
    as (bodies & gaps & Hrun & _); auto.
  pose proof (while_remaining_count max_bytes (estimate n max_bytes) (length content)
                (start content) _ Henc Hroomy Hrun) as Hcount.
  rewrite Hrun. cbn [bind].
  set (ps := parts (start content) ++ numbered (part_num (start content))
                                        (estimate n max_bytes) bodies) in *.
  change (remaining (start content)) with content in Hcount.
  change (length (parts (start content))) with 0%nat in Hcount.
  assert (Hs : some content = 1%nat) by (destruct content; [congruence | reflexivity]).
  rewrite Hs in Hcount.
  destruct (negb (len ps =? estimate n max_bytes)); eexists; (split; [reflexivity|]);
    unfold len; rewrite ?renumber_length; lia.
Qed.

Lemma split_message_count_witness :
  utf8_len (lit "hello world, this is") = Done 20 /\
  12 < 20 /\
  min_budget 20 <= 12 /\
  exists parts,
    split_message 20 (lit "hello world, this is") (Some 12) = Done parts /\
    1 <= len parts <= len (lit "hello world, this is").
Proof.
  split; [reflexivity|]. split; [lia|]. split; [vm_compute; discriminate|].
  apply (split_message_count (lit "hello world, this is") 12 20);
    [reflexivity | lia | vm_compute; discriminate].
Defined.

(** *** A content of whitespace only *)

Lemma blank_lstrip s : blank s -> lstrip s = [].
Proof.
  induction 1 as [|c t Hc _ IH]; [reflexivity|]. cbn [lstrip]. now rewrite Hc.
Qed.

Lemma blank_rstrip s : blank s -> rstrip s = [].
Proof.
  intros H. unfold rstrip. rewrite blank_lstrip; [reflexivity | now apply Forall_rev].
Qed.

Lemma blank_firstn k s : blank s -> blank (firstn k s).
Proof.
  intros H. rewrite <- (firstn_skipn k s) in H. now apply Forall_app in H.
Qed.

Lemma blank_skipn k s : blank s -> blank (skipn k s).
Proof.
  intros H. rewrite <- (firstn_skipn k s) in H. now apply Forall_app in H.
Qed.

Lemma estimate_two n max_bytes : 8 <= max_bytes -> max_bytes < n -> 2 <= estimate n max_bytes.
Proof.
  intros Hm Hn. unfold estimate. apply Z.div_le_lower_bound; lia.
Qed.

Lemma part_prefix_six i n : 6 <= len (part_prefix i n).
Proof.
  rewrite part_prefix_len.
  pose proof (str_of_int_nonempty i). pose proof (str_of_int_nonempty n). lia.
Qed.



(** *** A budget too small for the first code point *)

Lemma while_remaining_never max_bytes est c rest w :
  encodable (c :: rest) -> isspace c = false ->
  utf8_width c = Some w -> max_bytes - 6 < w ->
  forall fuel st, remaining st = c :: rest ->
    while_remaining fuel max_bytes est st = OutOfFuel.
Proof.
  intros Henc Hc Hw Hlt.
  assert (Hfirst : blen (slice_to (c :: rest) 1) = w).
  { change (blen (slice_to (c :: rest) 1)) with (width c + 0). unfold width. rewrite Hw. lia. }
  assert (Hall : w <= blen (c :: rest)).
  { rewrite <- Hfirst. apply blen_firstn_le. }
  induction fuel as [|f IH]; intros st Hrem.
  - cbn [while_remaining]. now rewrite Hrem.
  - cbn [while_remaining]. rewrite Hrem.
    unfold loop_body. rewrite part_prefix_bytes, Hrem. cbn [bind].
    rewrite (utf8_len_encodable _ Henc). cbn [bind].
    pose proof (part_prefix_six (part_num st) est) as H6.
    destruct (blen (c :: rest) <=? max_bytes - len (part_prefix (part_num st) est)) eqn:E;
      [apply Z.leb_le in E; lia|].
    rewrite split_point_stuck by (auto; lia). cbn [bind].
    apply IH. cbn [remaining]. change (slice_from (c :: rest) 0) with (c :: rest).
    cbn [lstrip]. now rewrite Hc.
Qed.

(** X6. [split_message] never returns when the budget, less the six bytes of
    the shortest prefix, is smaller than the first code point of a content
    that does not fit and does not start with whitespace: every round cuts
    at index 0 and leaves [remaining] as it was. (With a budget of 7 bytes
    the estimate divides by zero before the loop.) *)
Theorem split_message_never_returns content max_bytes n c rest w :
  utf8_len content = Done n -> max_bytes < n -> max_bytes <> 7 ->
  content = c :: rest -> isspace c = false ->
  utf8_width c = Some w -> max_bytes - 6 < w ->
  forall fuel, split_message fuel content (Some max_bytes) = OutOfFuel.
Proof.
  intros Hn Hbig H7 -> Hc Hw Hlt fuel.
  destruct (utf8_len_Done _ _ Hn) as [Henc _].
  unfold split_message. rewrite Hn. cbn [bind].
  destruct (n <=? max_bytes) eqn:E; [apply Z.leb_le in E; lia|].
  destruct (max_bytes - 7 =? 0) eqn:E7; [apply Z.eqb_eq in E7; lia|].
  now rewrite (while_remaining_never max_bytes _ c rest w Henc Hc Hw Hlt).
Qed.

Lemma split_message_never_returns_witness :
  utf8_len three_wide = Done 12 /\
  utf8_width 128512%N = Some 4 /\
  forall fuel, split_message fuel three_wide (Some 8) = OutOfFuel.
Proof.
  split; [reflexivity|]. split; [reflexivity|].
  apply (split_message_never_returns three_wide 8 12 128512%N [128513%N; 128514%N] 4);
    try reflexivity; lia.
Defined.

End SplitterFacts.

(** ** More on the delivery pipeline *)

Module DeliveryFacts.

Import Splitter Delivery.

Definition is_record_send (c : call) : bool :=
  match c with record_send => true | _ => false end.

Definition is_record_tx (c : call) : bool :=
  match c with record_tx => true | _ => false end.

(** The number of events of a kind on a trace. *)
Definition count (p : call -> bool) (t : trace) : nat := length (filter p t).

(** The sends recorded on the rate limiter of the user, and the
    transmissions recorded on the rate limiter of the bot. *)
Definition sends_recorded (t : trace) : nat := count is_record_send t.
Definition tx_recorded (t : trace) : nat := count is_record_tx t.

(** [1] for a success, [0] for a failure. *)
Definition one (success : bool) : nat := if success then 1 else 0.

Lemma count_app p t u : count p (t ++ u) = (count p t + count p u)%nat.
Proof. unfold count. now rewrite filter_app, length_app. Qed.

Section Charges.

Variable D : Delivery.env.

(** One of the two kinds of record. *)
Variable p : call -> bool.
Hypothesis p_record : p = is_record_send \/ p = is_record_tx.

Lemma count_other t c :
  is_record_send c = false -> is_record_tx c = false -> count p (t ++ [c]) = count p t.
Proof.
  intros H1 H2. rewrite count_app. unfold count at 2. cbn [filter].
  destruct p_record as [-> | ->]; rewrite ?H1, ?H2; cbn; lia.
Qed.

Lemma count_both t : count p (record_both t) = S (count p t).
Proof.
  unfold record_both. rewrite count_app.
  destruct p_record as [-> | ->]; cbn; lia.
Qed.

Lemma check_rate_limits_charges t : count p (snd (_check_rate_limits D t)) = count p t.
Proof.
  unfold _check_rate_limits, _apply_tx_delay. destruct (negb _); cbn [snd]; [reflexivity|].
  destruct (_ >? 0); rewrite ?count_other by reflexivity; reflexivity.
Qed.

Lemma handle_send_result_charges r operation_name target used t :
  count p (snd (_handle_send_result r operation_name target used t))
  = (count p t + one (fst (_handle_send_result r operation_name target used t)))%nat.
Proof.
  destruct r as [|[| | |n] pl|]; cbn [_handle_send_result fst snd one];
    rewrite ?count_both; try lia.
  destruct (str_eqb _ _); cbn [fst snd one]; try lia.
  destruct (is_no_event_received _); cbn [fst snd one]; rewrite ?count_both; lia.
Qed.

Lemma send_to_contact_charges to content t :
  count p (snd (send_to_contact D to content t)) = count p t.
Proof.
  unfold send_to_contact, perform.
  destruct (has_send_msg_with_retry D); destruct (transmit D t _); cbn [snd];
    rewrite ?count_other by reflexivity; reflexivity.
Qed.

(** A single send records once when it succeeds, and not when it fails. *)
Lemma single_charges d part t :
  count p (snd (single_to D d part t))
  = (count p t + one (fst (single_to D d part t)))%nat.
Proof.
  destruct d as [recipient_id | channel]; cbn [single_to].
  - unfold _send_dm_single. pose proof (check_rate_limits_charges t) as Hr.
    destruct (_check_rate_limits D t) as [ok t1]. cbn [snd] in Hr.
    destruct (negb ok); cbn [fst snd one]; [lia|].
    destruct (get_contact_by_name D t1 recipient_id) as [to|]; cbn [fst snd one]; [|lia].
    pose proof (send_to_contact_charges to part t1) as Hs.
    destruct (send_to_contact D to part t1) as [a t2]. cbn [snd] in Hs.
    destruct a as [r| |]; cbn [fst snd one]; try lia.
    rewrite handle_send_result_charges. lia.
  - unfold _send_channel_message_single, perform.
    pose proof (check_rate_limits_charges t) as Hr.
    destruct (_check_rate_limits D t) as [ok t1]. cbn [snd] in Hr.
    destruct (negb ok); cbn [fst snd one]; [lia|].
    destruct (get_channel_number D t1 channel) as [num|]; cbn [fst snd one]; [|lia].
    destruct (transmit D t1 _) as [r| |]; cbn [fst snd one];
      rewrite ?handle_send_result_charges, ?count_other by reflexivity; lia.
Qed.

End Charges.

(** The loop records once, on both limiters, for every part it delivers; it
    answers [True] exactly when it delivered them all. *)
Lemma send_each_charges (D : Delivery.env) d : forall parts i n t,
  exists k,
    (k <= length parts)%nat /\
    sends_recorded (snd (send_each (single_to D d) i n parts t)) = (sends_recorded t + k)%nat /\
    tx_recorded (snd (send_each (single_to D d) i n parts t)) = (tx_recorded t + k)%nat /\
    (fst (send_each (single_to D d) i n parts t) = true <-> k = length parts).
Proof.
  unfold sends_recorded, tx_recorded. intros ps.
  induction ps as [|part rest IH]; intros i n t.
  - exists 0%nat. cbn. repeat split; auto; lia.
  - cbn [send_each].
    pose proof (single_charges D is_record_send (or_introl eq_refl) d part t) as Hs1.
    pose proof (single_charges D is_record_tx (or_intror eq_refl) d part t) as Hs2.
    destruct (single_to D d part t) as [[|] t1]; cbn [fst snd one negb] in *.
    + destruct (IH (i + 1) n (if i <? n - 1 then t1 ++ [sleep 2000] else t1))
        as (k & Hk & Hc1 & Hc2 & Hiff).
      exists (S k). cbn [length]. split; [lia|].
      assert (Hp1 : count is_record_send (if i <? n - 1 then t1 ++ [sleep 2000] else t1)
                    = count is_record_send t1)
        by (destruct (i <? n - 1); rewrite ?count_app; cbn; lia).
      assert (Hp2 : count is_record_tx (if i <? n - 1 then t1 ++ [sleep 2000] else t1)
                    = count is_record_tx t1)
        by (destruct (i <? n - 1); rewrite ?count_app; cbn; lia).
      split; [etransitivity; [exact Hc1 | rewrite Hp1, Hs1; lia]|].
      split; [etransitivity; [exact Hc2 | rewrite Hp2, Hs2; lia]|].
      split.
      * intros H. apply Hiff in H. lia.
      * intros H. apply Hiff. lia.
    + exists 0%nat. cbn [length fst snd]. repeat split; try lia; discriminate.
Qed.



(** *** The budget of a channel message *)

Lemma utf8_len_app a b x y :
  utf8_len a = Done x -> utf8_len b = Done y -> utf8_len (a ++ b) = Done (x + y).
Proof.
  intros Ha Hb. destruct (utf8_len_Done _ _ Ha) as [Hea ->].
  destruct (utf8_len_Done _ _ Hb) as [Heb ->].
  rewrite (utf8_len_encodable (a ++ b)) by now apply encodable_app.
  now rewrite blen_app.
Qed.

(** X8. A channel message has less than the ceiling for itself, and a part
    within its budget fits the ceiling together with the ["<username>: "]
    that the transport puts before it. *)
Theorem channel_budget_leaves_room (D : Delivery.env) t max_bytes :
  channel_max_bytes D t = Done max_bytes ->
  max_bytes <= MAX_MESSAGE_BYTES - 3 /\
  (forall username part k,
     username_of (bot_self_info D t) = Some username -> username <> [] ->
     utf8_len part = Done k -> k <= max_bytes ->
     exists wire,
       utf8_len (username ++ lit ": " ++ part) = Done wire /\ wire <= MAX_MESSAGE_BYTES).
Proof.
  unfold channel_max_bytes. intros H.
  destruct (username_of (bot_self_info D t)) as [[|c u]|] eqn:Eu; cbn [truthy] in H.
  - inversion H; subst. split; [unfold MAX_MESSAGE_BYTES; lia|].
    intros username part k Hu Hne. inversion Hu; subst. now elim Hne.
  - destruct (utf8_len (c :: u)) as [ub| |] eqn:Eb; cbn [bind] in H; try discriminate.
    assert (Hm : max_bytes = MAX_MESSAGE_BYTES - ub - 2) by congruence.
    clear H. destruct (utf8_len_Done _ _ Eb) as [Henc Hub]. subst ub.
    pose proof (blen_bounds _ Henc) as Hb. unfold len in Hb. cbn [length] in Hb.
    unfold MAX_MESSAGE_BYTES in *.
    split; [lia|].
    intros username part k Hu _ Hk Hle. inversion Hu; subst username.
    exists (blen (c :: u) + (2 + k)). split; [|lia].
    apply utf8_len_app; [assumption|].
    now apply (utf8_len_app (lit ": ") part 2 k).
  - inversion H; subst. split; [unfold MAX_MESSAGE_BYTES; lia|].
    intros username part k Hu. discriminate.
Qed.

(** A bot called ["relay"]. *)
Definition named_relay : Delivery.env := {|
  connected := fun _ => true;
  tx_delay_ms := 0;
  can_send := fun _ => true;
  get_contact_by_name := fun _ _ => None;
  has_send_msg_with_retry := false;
  dm_max_retries := 3;
  dm_max_flood_attempts := 2;
  dm_flood_after := 2;
  get_channel_number := fun _ _ => Some 0;
  transmit := fun _ _ => Returns (Event MSG_SENT None);
  bot_self_info := fun _ => InfoDict (Some (lit "relay")) None
|}.

Lemma channel_budget_leaves_room_witness :
  channel_max_bytes named_relay [] = Done 143 /\
  143 <= MAX_MESSAGE_BYTES - 3 /\
  (forall username part k,
     username_of (bot_self_info named_relay []) = Some username -> username <> [] ->
     utf8_len part = Done k -> k <= 143 ->
     exists wire,
       utf8_len (username ++ lit ": " ++ part) = Done wire /\ wire <= MAX_MESSAGE_BYTES).
Proof.
  split; [reflexivity|].
  exact (channel_budget_leaves_room named_relay [] 143 eq_refl).
Defined.

End DeliveryFacts.

(** ** More on the matching engine *)

Module MatchingFacts.

Import Connectivity Matching.

Lemma startswith_prefix s p : startswith s p = true <-> exists rest, s = p ++ rest.
Proof.
  revert s. induction p as [|a p IH]; intros s.
  - split; [intros _; now exists s | intros _; apply Splitter.startswith_nil].
  - destruct s as [|b s]; cbn [startswith].
    + split; [discriminate | intros [rest H]; discriminate].
    + rewrite andb_true_iff, N.eqb_eq, IH. split.
      * intros [-> [rest ->]]. now exists rest.
      * intros [rest H]. inversion H; subst. split; [reflexivity | now exists rest].
Qed.

Lemma nth_error_after (p rest : str) : nth_error (p ++ rest) (Z.to_nat (len p)) = nth_error rest 0.
Proof.
  unfold len. rewrite Nat2Z.id. rewrite nth_error_app2 by lia. now rewrite Nat.sub_diag.
Qed.

(** The content is the keyword, or begins with the keyword and a space. *)
Definition leads (keyword_lower content_lower : str) : Prop :=
  content_lower = keyword_lower \/ exists rest, content_lower = keyword_lower ++ lit " " ++ rest.

(** The test of the residual sweep on one keyword. *)
Definition hit (keyword_lower content_lower : str) : bool :=
  str_eqb keyword_lower content_lower
  || (startswith content_lower keyword_lower
      && ((len content_lower =? len keyword_lower)
          || match nth_error content_lower (Z.to_nat (len keyword_lower)) with
             | Some ch => (ch =? 32)%N
             | None => false
             end)).

Lemma hit_leads keyword_lower content_lower :
  hit keyword_lower content_lower = true <-> leads keyword_lower content_lower.
Proof.
  unfold hit, leads. rewrite orb_true_iff, andb_true_iff, orb_true_iff, str_eqb_eq.
  rewrite startswith_prefix. split.
  - intros [H | [[rest ->] [H | H]]].
    + left. now symmetry.
    + left. apply Z.eqb_eq in H. unfold len in H. rewrite length_app in H.
      destruct rest; [now rewrite app_nil_r | cbn [length] in H; lia].
    + right. rewrite nth_error_after in H. destruct rest as [|ch rest]; [discriminate|].
      cbn [nth_error] in H. apply N.eqb_eq in H. subst ch. now exists rest.
  - intros [-> | [rest ->]]; [now left|].
    right. split; [now exists (lit " " ++ rest)|].
    right. now rewrite nth_error_after.
Qed.

Lemma residual_sweep_step (E : env) keyword response_format rest content_lower message :
  residual_sweep E ((keyword, response_format) :: rest) content_lower message
  = if negb (owned E keyword) && hit (lower E keyword) content_lower
    then (keyword, Some (respond E response_format message))
           :: residual_sweep E rest content_lower message
    else residual_sweep E rest content_lower message.
Proof.
  cbn [residual_sweep]. unfold hit. destruct (owned E keyword); [reflexivity|].
  cbn [negb andb]. destruct (str_eqb (lower E keyword) content_lower); [reflexivity|].
  cbn [orb]. destruct (startswith content_lower (lower E keyword)); [|reflexivity].
  cbn [andb]. now destruct (_ || _).
Qed.

(** X9. The sweep of the residual table matches exactly the keywords that no
    command owns and that lead the content as a whole word, compared in
    lower case; a keyword that is only the beginning of the first word does
    not match. The response is the formatted one of the table. *)
Theorem residual_sweep_matches_first_word (E : env) table content_lower message keyword response :
  In (keyword, response) (residual_sweep E table content_lower message) <->
  exists response_format,
    In (keyword, response_format) table /\
    response = Some (respond E response_format message) /\
    owned E keyword = false /\
    leads (lower E keyword) content_lower.
Proof.
  induction table as [|[k fmt] rest IH].
  - split; [intros [] | intros [? [[] _]]].
  - rewrite residual_sweep_step.
    destruct (negb (owned E k) && hit (lower E k) content_lower) eqn:Ek.
    + apply andb_true_iff in Ek. destruct Ek as [Ho Hh].
      apply negb_true_iff in Ho. apply hit_leads in Hh. split.
      * intros [H | H].
        -- inversion H; subst. exists fmt. repeat split; try assumption. now left.
        -- apply IH in H. destruct H as [f [Hin H]]. exists f. split; [now right | assumption].
      * intros [f [[Hin | Hin] [-> [Hown Hl]]]].
        -- inversion Hin; subst. now left.
        -- right. apply IH. now exists f.
    + split.
      * intros H. apply IH in H. destruct H as [f [Hin H]]. exists f. split; [now right | assumption].
      * intros [f [[Hin | Hin] [-> [Hown Hl]]]].
        -- inversion Hin; subst. apply hit_leads in Hl. rewrite Hown, Hl in Ek. discriminate.
        -- apply IH. now exists f.
Qed.

(** The help keywords of [check_keywords]. *)
Definition help_keywords (E : env) : list str :=
  match get (commands E) (lit "help") with
  | Some help_command => map (lower E) (keywords help_command)
  | None => [lit "help"]
  end.

Lemma help_sweep_fires (E : env) message content_lower : forall ks,
  (exists k, In k ks /\ leads k content_lower) ->
  exists help_text, help_sweep E ks content_lower message = Some (help_match E help_text message).
Proof.
  induction ks as [|k rest IH]; intros [k0 [Hin Hl]]; [contradiction|].
  cbn [help_sweep].
  destruct (startswith content_lower (k ++ lit " ")) eqn:Es; [eexists; reflexivity|].
  destruct (str_eqb content_lower k) eqn:Ee; [eexists; reflexivity|].
  destruct Hin as [-> | Hin]; [|apply IH; now exists k0].
  exfalso. destruct Hl as [-> | [r ->]].
  - assert (H : str_eqb k0 k0 = true) by now apply str_eqb_eq. congruence.
  - assert (H : startswith (k0 ++ lit " " ++ r) (k0 ++ lit " ") = true).
    { apply startswith_prefix. exists r. now rewrite <- app_assoc. }
    congruence.
Qed.

Lemma help_sweep_fired (E : env) message content_lower : forall ks r,
  help_sweep E ks content_lower message = Some r ->
  (exists k, In k ks /\ leads k content_lower) /\
  (exists help_text, r = help_match E help_text message).
Proof.
  induction ks as [|k rest IH]; intros r; [discriminate|].
  cbn [help_sweep].
  destruct (startswith content_lower (k ++ lit " ")) eqn:Es.
  - intros H. inversion H. split; [|eexists; reflexivity].
    apply startswith_prefix in Es. destruct Es as [tail ->].
    exists k. split; [now left|]. right. exists tail. now rewrite <- app_assoc.
  - destruct (str_eqb content_lower k) eqn:Ee.
    + intros H. inversion H. split; [|eexists; reflexivity].
      apply str_eqb_eq in Ee. exists k. split; [now left | now left].
    + intros H. apply IH in H. destruct H as [[k0 [Hin Hl]] Hr].
      split; [|assumption]. exists k0. split; [now right | assumption].
Qed.

(** X10. A request for help is answered alone: when a help keyword leads the
    content, [check_keywords] returns the single match ['help'] and
    consults no command, so that the cache and the trace stay as they were;
    it raises when the formatting of the help text does. *)
Theorem help_request_answered_alone (E : env) message c t :
  (exists k, In k (help_keywords E) /\ leads k (lower E (command_text message))) ->
  check_keywords E message c t = Raise (OtherError (lit "format_keyword_response")) \/
  exists text, check_keywords E message c t = Done ([(lit "help", Some text)], c, t).
Proof.
  intros H. apply (help_sweep_fires E message) in H. destruct H as [help_text H].
  unfold check_keywords. fold (help_keywords E). rewrite H. unfold help_match.
  destruct (format_keyword_response E help_text message) as [text|]; [right | now left].
  now exists text.
Qed.

Definition help_ping : MeshMessage :=
  {| msg_content := lit "!Help ping"; msg_sender_id := lit "alice"; msg_is_dm := true;
     msg_channel := [] |}.

Lemma help_request_answered_alone_witness :
  (exists k, In k (help_keywords ping_bot) /\ leads k (lower ping_bot (command_text help_ping))) /\
  (check_keywords ping_bot help_ping initial_cache []
   = Raise (OtherError (lit "format_keyword_response")) \/
   exists text,
     check_keywords ping_bot help_ping initial_cache [] = Done ([(lit "help", Some text)], initial_cache, [])).
Proof.
  assert (H : exists k, In k (help_keywords ping_bot) /\
                         leads k (lower ping_bot (command_text help_ping))).
  { exists (lit "help"). split; [left; reflexivity|]. right. exists (lit "ping"). reflexivity. }
  split; [exact H|].
  exact (help_request_answered_alone ping_bot help_ping initial_cache [] H).
Defined.


(** The bot of the ["ping"] command with a formatting that raises. *)
Definition unformatted : env := {|
  lower := ascii_lower;
  commands := [(lit "ping", ping_command)];
  self_keywords := [(lit "ping", lit "Pong from the table"); (lit "hello", lit "Hi")];
  translator := None;
  format_keyword_response := fun _ _ => None;
  net := ticking
|}.


Lemma command_sweep_offline (E : env) message : forall cmds c t,
  Forall (fun item => requires_internet (snd item) = false) cmds ->
  snd (fst (command_sweep E cmds message c t)) = c /\ snd (command_sweep E cmds message c t) = t.
Proof.
  induction cmds as [|[command_name command] rest IH]; intros c t Hall; [now split|].
  inversion Hall as [|? ? Hhead Hrest]; subst. cbn [snd] in Hhead.
  cbn [command_sweep]. rewrite Hhead.
  destruct (should_execute command t message); [|now apply IH].
  destruct (negb (can_execute command t message)); [now apply IH|].
  cbn [negb]. specialize (IH c t Hrest).
  destruct (command_sweep E rest message c t) as [[more c1] t1].
  destruct (get_response_format command) as [[|x f]|]; exact IH.
Qed.

(** X12. Matching reads the connectivity only for a command that requires
    internet: when no registered command does, [check_keywords] leaves the
    cache and the trace as they were. *)
Theorem check_keywords_reads_no_network (E : env) message c t matches c' t' :
  Forall (fun item => requires_internet (snd item) = false) (commands E) ->
  check_keywords E message c t = Done (matches, c', t') ->
  c' = c /\ t' = t.
Proof.
  intros Hall. unfold check_keywords.
  destruct (help_sweep E _ _ message) as [[m| |]|]; cbn [bind]; try discriminate.
  - intros H. inversion H. now split.
  - pose proof (command_sweep_offline E message (commands E) c t Hall) as [Hc Ht].
    destruct (command_sweep E (commands E) message c t) as [[m c1] t1].
    cbn [fst snd] in Hc, Ht. intros H. inversion H. subst. now split.
Qed.

Lemma check_keywords_reads_no_network_witness :
  Forall (fun item => requires_internet (snd item) = false) (commands ping_bot) /\
  check_keywords ping_bot ping_message initial_cache []
  = Done ([(lit "ping", Some (lit "Pong!"))], initial_cache, []) /\
  initial_cache = initial_cache /\ @nil call = [].
Proof.
  assert (Hall : Forall (fun item => requires_internet (snd item) = false) (commands ping_bot))
    by (constructor; [reflexivity | constructor]).
  assert (Hrun : check_keywords ping_bot ping_message initial_cache []
                 = Done ([(lit "ping", Some (lit "Pong!"))], initial_cache, []))
    by (vm_compute; reflexivity).
  split; [exact Hall|]. split; [exact Hrun|].
  exact (check_keywords_reads_no_network ping_bot ping_message initial_cache [] _ _ _ Hall Hrun).
Defined.

End MatchingFacts.

(** ** More on the orchestrator *)

Module OrchestratorFacts.

Import Connectivity Delivery Orchestrator.

(** The calls of the delivery pipeline and of the connectivity cache. *)
Definition of_transport (c : call) : bool :=
  match c with
  | record_execution _ _ => false
  | execute _ => false
  | record_command _ _ => false
  | capture_command _ _ _ => false
  | _ => true
  end.

(** The calls made on the commands, on the statistics and on the web
    viewer, in their order. *)
Definition own (t : trace) : trace := filter (fun c => negb (of_transport c)) t.

Lemma own_app t u : own (t ++ u) = own t ++ own u.
Proof. apply filter_app. Qed.

Lemma own_transport t c : of_transport c = true -> own (t ++ [c]) = own t.
Proof.
  intros H. rewrite own_app. unfold own at 2. cbn [filter]. rewrite H. apply app_nil_r.
Qed.

Lemma own_call t c : of_transport c = false -> own (t ++ [c]) = own t ++ [c].
Proof. intros H. rewrite own_app. unfold own at 2. cbn [filter]. now rewrite H. Qed.

Ltac still :=
  repeat (rewrite own_transport by reflexivity); try reflexivity.

Section Transport.

Variable D : Delivery.env.

Lemma apply_tx_delay_own t : own (_apply_tx_delay D t) = own t.
Proof. unfold _apply_tx_delay. destruct (_ >? 0); now still. Qed.

Lemma check_rate_limits_own t : own (snd (_check_rate_limits D t)) = own t.
Proof.
  unfold _check_rate_limits. destruct (negb _); cbn [snd]; [reflexivity|].
  rewrite apply_tx_delay_own. now still.
Qed.

Lemma handle_send_result_own r operation_name target used t :
  own (snd (_handle_send_result r operation_name target used t)) = own t.
Proof.
  assert (Hboth : own (record_both t) = own t).
  { unfold record_both. rewrite own_app. apply app_nil_r. }
  destruct r as [|[| | |n] p|]; cbn [_handle_send_result snd]; auto.
  destruct (str_eqb _ _); cbn [snd]; auto.
  destruct (is_no_event_received _); cbn [snd]; auto.
Qed.

Lemma send_to_contact_own to content t :
  own (snd (send_to_contact D to content t)) = own t.
Proof.
  unfold send_to_contact, perform.
  destruct (has_send_msg_with_retry D); destruct (transmit D t _); cbn [snd]; now still.
Qed.

Lemma send_dm_single_own recipient_id content t :
  own (snd (_send_dm_single D recipient_id content t)) = own t.
Proof.
  unfold _send_dm_single. pose proof (check_rate_limits_own t) as Hr.
  destruct (_check_rate_limits D t) as [ok t1]. cbn [snd] in Hr.
  destruct (negb ok); cbn [snd]; [assumption|].
  destruct (get_contact_by_name D t1 recipient_id) as [to|]; cbn [snd]; [|assumption].
  pose proof (send_to_contact_own to content t1) as Hs.
  destruct (send_to_contact D to content t1) as [a t2]. cbn [snd] in Hs.
  destruct a as [r| |]; cbn [snd]; try congruence.
  rewrite handle_send_result_own. congruence.
Qed.

Lemma send_channel_single_own channel content t :
  own (snd (_send_channel_message_single D channel content t)) = own t.
Proof.
  unfold _send_channel_message_single, perform. pose proof (check_rate_limits_own t) as Hr.
  destruct (_check_rate_limits D t) as [ok t1]. cbn [snd] in Hr.
  destruct (negb ok); cbn [snd]; [assumption|].
  destruct (get_channel_number D t1 channel) as [num|]; cbn [snd]; [|assumption].
  destruct (transmit D t1 _) as [r| |]; cbn [snd];
    rewrite ?handle_send_result_own; still; assumption.
Qed.

Lemma send_each_own single :
  (forall part t, own (snd (single part t)) = own t) ->
  forall ps i count t, own (snd (send_each single i count ps t)) = own t.
Proof.
  intros Hsingle. induction ps as [|part rest IH]; intros i count t; [reflexivity|].
  cbn [send_each]. specialize (Hsingle part t).
  destruct (single part t) as [ok t1]. cbn [snd] in Hsingle.
  destruct (negb ok); cbn [snd]; [assumption|].
  rewrite IH. destruct (i <? count - 1); still; assumption.
Qed.

Lemma send_dm_own fuel recipient_id content t success t' :
  send_dm D fuel recipient_id content t = Done (success, t') -> own t' = own t.
Proof.
  unfold send_dm. destruct (negb _); [intros H; now inversion H|].
  destruct (Splitter.split_message _ _ _) as [ps| |]; cbn [bind]; try discriminate.
  intros H. inversion H.
  change t' with (snd (success, t')). rewrite <- H1.
  apply send_each_own. apply send_dm_single_own.
Qed.

Lemma send_channel_message_own fuel channel content t success t' :
  send_channel_message D fuel channel content t = Done (success, t') -> own t' = own t.
Proof.
  unfold send_channel_message. destruct (negb _); [intros H; now inversion H|].
  destruct (channel_max_bytes D t) as [max_bytes| |]; cbn [bind]; try discriminate.
  destruct (Splitter.split_message _ _ _) as [ps| |]; cbn [bind]; try discriminate.
  intros H. inversion H.
  change t' with (snd (success, t')). rewrite <- H1.
  apply send_each_own. apply send_channel_single_own.
Qed.

End Transport.

Section Calls.

Variable E : Orchestrator.env.


Lemma send_response_own fuel message content m success m' :
  send_response E fuel message content m = Done (success, m') ->
  own (events m') = own (events m) /\ _last_response m' = Some content.
Proof.
  unfold send_response. cbn [events].
  destruct (msg_is_dm message).
  - destruct (send_dm _ _ _ _ _) as [[ok t]| |] eqn:Es; try discriminate.
    + intros H. inversion H; subst. cbn [with_events events _last_response].
      split; [eapply send_dm_own; eauto | reflexivity].
    + intros H. inversion H. now split.
  - destruct (send_channel_message _ _ _ _ _) as [[ok t]| |] eqn:Es; try discriminate.
    + intros H. inversion H; subst. cbn [with_events events _last_response].
      split; [eapply send_channel_message_own; eauto | reflexivity].
    + intros H. inversion H. now split.
Qed.

(** The record on the statistics, where there is a ['stats'] command. *)
Definition stats_call (command_name : str) (response_sent : bool) : trace :=
  match get (commands E) (lit "stats") with
  | Some _ => [record_command command_name response_sent]
  | None => []
  end.

(** The start of the cooldown, where the command has a [_record_execution]. *)
Definition recorder_call (command : command) (command_name : str) (message : MeshMessage)
  : trace :=
  match _record_execution command with
  | NoRecorder => []
  | RecordGlobal => [record_execution command_name None]
  | RecordPerUser => [record_execution command_name (Some (msg_sender_id message))]
  end.

(** The capture for the web viewer, where there is one. *)
Definition capture_call (command_name response : str) (success : bool) : trace :=
  if web_viewer E then [capture_command command_name response success] else [].

Lemma record_stats_own command_name response_sent m :
  own (events (record_stats E command_name response_sent m))
  = own (events m) ++ stats_call command_name response_sent.
Proof.
  unfold record_stats, stats_call. destruct (get _ _); [|now rewrite app_nil_r].
  cbn [emit with_events events]. now apply own_call.
Qed.

Lemma tell_own fuel message error_msg m sent m' :
  tell E fuel message error_msg m = Done (sent, m') -> own (events m') = own (events m).
Proof.
  unfold tell. destruct (send_response _ _ _ _ _) as [[ok m1]| |] eqn:Es; cbn [bind];
    try discriminate.
  intros H. inversion H; subst. cbn [snd]. now apply send_response_own in Es.
Qed.

Lemma reject_own fuel command_name command message m m' :
  reject E fuel command_name command message m = Done m' ->
  exists response_sent,
    own (events m') = own (events m) ++ stats_call command_name response_sent.
Proof.
  unfold reject.
  match goal with |- context [bind ?x _] => destruct x as [[sent m1]| |] eqn:Er end;
    cbn [bind]; try discriminate.
  intros H. inversion H; subst. cbn [fst snd]. exists sent. rewrite record_stats_own.
  f_equal.
  assert (Hno : forall s mm, Done (false, m) = Done (s, mm) -> own (events mm) = own (events m))
    by (intros s mm Hd; now inversion Hd).
  destruct (requires_dm command && negb (msg_is_dm message)).
  { destruct (is_channel_allowed command message); eauto using tell_own. }
  destruct (requires_admin_access command); eauto using tell_own.
  destruct (get_remaining_cooldown command) as [|rem|rem]; eauto;
    destruct (Qltb 0 _); eauto using tell_own.
Qed.

Lemma no_internet_own fuel command_name command message m m' :
  no_internet E fuel command_name command message m = Done m' ->
  own (events m') = own (events m) ++ stats_call command_name true.
Proof.
  unfold no_internet.
  destruct (send_response _ _ _ _ _) as [[ok m1]| |] eqn:Es; cbn [bind]; try discriminate.
  intros H. inversion H; subst. cbn [snd]. rewrite record_stats_own.
  f_equal. now apply send_response_own in Es.
Qed.

Lemma send_responses_own fuel message contents : forall m m',
  send_responses E fuel message contents m = Done m' -> own (events m') = own (events m).
Proof.
  induction contents as [|content rest IH]; intros m m' H; cbn [send_responses] in H.
  - now inversion H.
  - destruct (send_response _ _ _ _ _) as [[ok m1]| |] eqn:Es; cbn [bind] in H;
      try discriminate.
    cbn [snd] in H. apply IH in H. rewrite H. now apply send_response_own in Es.
Qed.

Lemma execute_command_own fuel command_name command message m m' :
  execute_command E fuel command_name command message m = Done m' ->
  exists response_sent response success,
    own (events m')
    = own (events m) ++ recorder_call command command_name message
        ++ [execute command_name] ++ stats_call command_name response_sent
        ++ capture_call command_name response success.
Proof.
  unfold execute_command.
  set (m0 := match _record_execution command with
             | NoRecorder => m
             | RecordGlobal => emit (record_execution command_name None) m
             | RecordPerUser =>
                 emit (record_execution command_name (Some (msg_sender_id message))) m
             end).
  assert (H0 : own (events (emit (execute command_name) m0))
               = own (events m) ++ recorder_call command command_name message
                   ++ [execute command_name]).
  { cbn [emit with_events events]. rewrite own_call by reflexivity.
    rewrite app_assoc. f_equal. unfold m0, recorder_call.
    destruct (_record_execution command); cbn [emit with_events events];
      [now rewrite app_nil_r | now apply own_call | now apply own_call]. }
  destruct (send_responses _ _ _ _ _) as [m2| |] eqn:Es; cbn [bind]; try discriminate.
  apply send_responses_own in Es. rewrite H0 in Es. clear H0.
  assert (Hcap : forall mm response success,
    own (events (if web_viewer E
                 then emit (capture_command command_name response success) mm else mm))
    = own (events mm) ++ capture_call command_name response success).
  { intros mm response success. unfold capture_call. destruct (web_viewer E).
    - cbn [emit with_events events]. now apply own_call.
    - now rewrite app_nil_r. }
  destruct (ended _) as [success|error].
  - intros H. inversion H; subst. clear H. do 3 eexists.
    rewrite Hcap, record_stats_own. cbn [emit with_events events].
    rewrite own_transport by reflexivity. rewrite Es.
    rewrite <- !app_assoc. reflexivity.
  - destruct (send_response _ _ _ _ m2) as [[ok m3]| |] eqn:Er; cbn [bind]; try discriminate.
    apply send_response_own in Er. destruct Er as [Er _].
    intros H. inversion H; subst. clear H. cbn [snd]. do 3 eexists.
    rewrite Hcap, record_stats_own. rewrite Er, Es.
    rewrite <- !app_assoc. reflexivity.
Qed.

(** What the orchestrator calls for the command it handles. *)
Inductive handled (command_name : str) (command : command) (message : MeshMessage)
    (m : manager) : trace -> Prop :=
| Rejected response_sent :
    can_execute_now command (events m) message = false ->
    handled command_name command message m (stats_call command_name response_sent)
| Offline :
    can_execute_now command (events m) message = true ->
    requires_internet command = true ->
    handled command_name command message m (stats_call command_name true)
| Executed response_sent response success :
    can_execute_now command (events m) message = true ->
    handled command_name command message m
      (recorder_call command command_name message
         ++ [execute command_name] ++ stats_call command_name response_sent
         ++ capture_call command_name response success).

Lemma handle_own fuel command_name command message m m' :
  handle E fuel command_name command message m = Done m' ->
  exists calls,
    own (events m') = own (events m) ++ calls /\
    handled command_name command message m calls.
Proof.
  unfold handle. destruct (can_execute_now command (events m) message) eqn:Ec; cbn [negb].
  2:{ intros H. apply reject_own in H. destruct H as [b H].
      eexists. split; [exact H | now constructor]. }
  destruct (requires_internet command) eqn:Ei.
  - pose proof (cached_async_cases (net E) (_internet_cache m) (events m)) as Hc.
    destruct (_check_internet_cached_async _ _ _) as [[has c] t].
    assert (Ht : own t = own (events m)).
    { destruct Hc as [[_ Hc] | [_ Hc]]; inversion Hc; subst;
        rewrite own_app; apply app_nil_r. }
    destruct (negb has); intros H.
    + apply no_internet_own in H. cbn [events] in H. rewrite Ht in H.
      eexists. split; [exact H | now constructor].
    + apply execute_command_own in H. destruct H as (b & r & s & H).
      cbn [events] in H. rewrite Ht in H.
      eexists. split; [exact H | now constructor].
  - intros H. apply execute_command_own in H. destruct H as (b & r & s & H).
    eexists. split; [exact H | now constructor].
Qed.

Lemma sweep_own fuel message m m' : forall cmds,
  sweep E fuel cmds message m = Done m' ->
  (Forall (passed_over message m) cmds /\ m' = m) \/
  exists command_name command calls,
    In (command_name, command) cmds /\
    should_execute command (events m) message = true /\
    get_response_format command = None /\
    own (events m') = own (events m) ++ calls /\
    handled command_name command message m calls.
Proof.
  induction cmds as [|[n c] rest IH]; intros H; cbn [sweep] in H.
  - left. inversion H. now split.
  - assert (Hskip : passed_over message m (n, c) ->
                    sweep E fuel rest message m = Done m' ->
                    (Forall (passed_over message m) ((n, c) :: rest) /\ m' = m) \/
                    exists command_name command calls,
                      In (command_name, command) ((n, c) :: rest) /\
                      should_execute command (events m) message = true /\
                      get_response_format command = None /\
                      own (events m') = own (events m) ++ calls /\
                      handled command_name command message m calls).
    { intros Hp Hs. destruct (IH Hs) as [[Hall ->] | (n0 & c0 & calls & Hin & Hrest)].
      - left. split; [now constructor | reflexivity].
      - right. exists n0, c0, calls. split; [now right | assumption]. }
    destruct (should_execute c (events m) message) eqn:Em;
      [|apply Hskip; [now left | assumption]].
    destruct (get_response_format c) eqn:Ef;
      [apply Hskip; [right; cbn [snd]; congruence | assumption]|].
    right. apply handle_own in H. destruct H as [calls [Ho Hh]].
    exists n, c, calls. split; [now left|]. repeat split; assumption.
Qed.


(** X15. A command that has sent nothing and keeps no [last_response] is still
    recorded as answered when an earlier message was answered: the
    [_last_response] of the manager is never cleared. *)
Theorem stale_response_counts_as_sent fuel command_name command message m x rest success :
  _last_response m = Some (x :: rest) ->
  (forall t, run command t message = {| responses := []; ended := Returned success |}) ->
  (forall t, last_response command t = None) ->
  exists m',
    execute_command E fuel command_name command message m = Done m' /\
    own (events m')
    = own (events m) ++ recorder_call command command_name message
        ++ [execute command_name] ++ stats_call command_name true
        ++ capture_call command_name (x :: rest)
             (match success with Some b => b | None => true end).
Proof.
  intros Hlast Hrun Hnone. unfold execute_command. rewrite Hrun.
  cbn [responses ended send_responses bind]. rewrite Hnone. cbn [nonempty].
  set (m0 := match _record_execution command with
             | NoRecorder => m
             | RecordGlobal => emit (record_execution command_name None) m
             | RecordPerUser =>
                 emit (record_execution command_name (Some (msg_sender_id message))) m
             end).
  assert (Hm0 : _last_response m0 = Some (x :: rest)).
  { unfold m0. destruct (_record_execution command); assumption. }
  assert (H0 : own (events m0) = own (events m) ++ recorder_call command command_name message).
  { unfold m0, recorder_call.
    destruct (_record_execution command); cbn [emit with_events events];
      [now rewrite app_nil_r | now apply own_call | now apply own_call]. }
  cbn [emit with_events events _last_response]. rewrite Hm0. cbn [nonempty].
  eexists. split; [reflexivity|].
  assert (Hstats : own (events (record_stats E command_name true
                                  (emit (sleep 100) (emit (execute command_name) m0))))
                   = own (events m) ++ recorder_call command command_name message
                       ++ [execute command_name] ++ stats_call command_name true).
  { rewrite record_stats_own. cbn [emit with_events events].
    rewrite own_transport by reflexivity. rewrite own_call by reflexivity.
    rewrite H0. now rewrite <- !app_assoc. }
  unfold capture_call. destruct (web_viewer E).
  - cbn [emit with_events events]. rewrite own_call by reflexivity.
    rewrite Hstats. now rewrite <- !app_assoc.
  - rewrite Hstats. now rewrite !app_nil_r.
Qed.

(** [handle_advert_command]; [self.commands['advert']] raises a [KeyError]
    where there is no such command, and what [execute] raises is not caught. *)
Definition handle_advert_command (fuel : nat) (message : MeshMessage) (m : manager)
  : outcome manager :=
  match get (commands E) (lit "advert") with
  | None => Raise (OtherError (lit "KeyError"))
  | Some command =>
      let ex := run command (events m) message in
      let m := emit (execute (lit "advert")) m in
      m <- send_responses E fuel message (responses ex) m ;;
      match ended ex with
      | Returned success =>
          let m := emit (sleep 100) m in
          let response_sent :=
            match nonempty (last_response command (events m)) with
            | Some _ => true
            | None => match nonempty (_last_response m) with Some _ => true | None => false end
            end in
          Done (record_stats E (lit "advert") response_sent m)
      | Raised error => Raise (OtherError error)
      end
  end.

(** X16. The advert command is run without a look at [should_execute] or
    [can_execute_now]; its cooldown is not started and the web viewer gets
    no capture: [execute] and the record on the statistics are the only
    calls. *)
Theorem advert_runs_ungated fuel message m m' :
  handle_advert_command fuel message m = Done m' ->
  exists response_sent,
    own (events m')
    = own (events m) ++ [execute (lit "advert")] ++ stats_call (lit "advert") response_sent.
Proof.
  unfold handle_advert_command.
  destruct (get (commands E) (lit "advert")) as [command|]; [|discriminate].
  destruct (send_responses _ _ _ _ _) as [m2| |] eqn:Es; cbn [bind]; try discriminate.
  apply send_responses_own in Es. cbn [emit with_events events] in Es.
  rewrite own_call in Es by reflexivity.
  destruct (ended _) as [success|error]; [|discriminate].
  intros H. inversion H; subst. clear H. eexists.
  rewrite record_stats_own. cbn [emit with_events events].
  rewrite own_transport by reflexivity. rewrite Es. now rewrite <- app_assoc.
Qed.

End Calls.


(** A command that answers nothing. *)
Definition silent : command := {|
  name := None;
  keywords := [];
  should_execute := fun _ _ => true;
  can_execute := fun _ _ => true;
  can_execute_now := fun _ _ => true;
  requires_internet := false;
  requires_dm := false;
  is_channel_allowed := fun _ => true;
  requires_admin_access := false;
  get_response_format := None;
  format_response := fun _ response_format => response_format;
  get_remaining_cooldown := NoAccessor;
  _record_execution := NoRecorder;
  run := fun _ _ => {| responses := []; ended := Returned None |};
  translate := fun key _ => key;
  last_response := fun _ => None;
  get_help_text := fun _ => [];
  get_available_commands_list := None
|}.

(** A bot with statistics and an advert command. *)
Definition with_stats : env := {|
  commands := [(lit "advert", self_handling (lit "Advert sent"));
               (lit "quiet", silent);
               (lit "stats", silent)];
  delivery := failing_second;
  net := ticking;
  web_viewer := true
|}.

(** The manager after it answered ["sunny"] to an earlier message. *)
Definition answered : manager :=
  {| events := []; _internet_cache := initial_cache; _last_response := Some (lit "sunny") |}.

Lemma stale_response_counts_as_sent_witness :
  exists m',
    execute_command with_stats 0 (lit "quiet") silent Matching.ping_message answered = Done m' /\
    own (events m')
    = [execute (lit "quiet"); record_command (lit "quiet") true;
       capture_command (lit "quiet") (lit "sunny") true].
Proof.
  exact (stale_response_counts_as_sent with_stats 0 (lit "quiet") silent Matching.ping_message
           answered 115%N (lit "unny") None eq_refl (fun _ => eq_refl) (fun _ => eq_refl)).
Defined.

Lemma advert_runs_ungated_witness :
  exists m',
    handle_advert_command with_stats 1 Matching.ping_message fresh_manager = Done m' /\
    exists response_sent,
      own (events m')
      = own (events fresh_manager) ++ [execute (lit "advert")]
          ++ stats_call with_stats (lit "advert") response_sent.
Proof.
  eexists. split; [vm_compute; reflexivity|].
  apply (advert_runs_ungated with_stats 1 Matching.ping_message fresh_manager).
  vm_compute. reflexivity.
Defined.

End OrchestratorFacts.

(** ** More on the connectivity cache *)

Module ConnectivityFacts.

Import Connectivity.

Definition is_sync_probe (c : call) : bool :=
  match c with
  | check_internet_connectivity => true
  | _ => false
  end.

(** The number of synchronous probes on a trace. *)
Definition sync_probes (t : trace) : nat := length (filter is_sync_probe t).

Lemma sync_probes_app t u : sync_probes (t ++ u) = (sync_probes t + sync_probes u)%nat.
Proof. unfold sync_probes. now rewrite filter_app, length_app. Qed.

Section Paths.

Variable E : Connectivity.env.

(** What one call of the synchronous path does, by the age of the cache. *)
Lemma cached_cases c t :
  (within_ttl E c t /\
   _check_internet_cached E c t = (has_internet c, c, t ++ [time_time; time_time]))
  \/
  (~ within_ttl E c t /\
   _check_internet_cached E c t =
     (probe E (t ++ [time_time; time_time]),
      {| has_internet := probe E (t ++ [time_time; time_time]);
         timestamp := started_at E t |},
      t ++ [time_time; time_time; check_internet_connectivity])).
Proof.
  unfold _check_internet_cached, is_valid, time_now, within_ttl, age, checked_at, started_at.
  destruct (PrimFloat.ltb (PrimFloat.sub (clock E (t ++ [time_time])) (timestamp c))
              _internet_cache_duration) eqn:Ev.
  - left. split; [reflexivity|]. now rewrite <- app_assoc.
  - right. split; [discriminate|]. now rewrite <- !app_assoc.
Qed.


(** X18. The two paths share the cache: after a call of either path, a call of
    the other that checks the cache within its 30 seconds gives the same
    answer, makes no probe and leaves the cache as it is. *)
Theorem paths_share_cache (c : InternetStatusCache) (t : trace) :
  (forall v c1 t1,
     _check_internet_cached_async E c t = (v, c1, t1) ->
     within_ttl E c1 t1 ->
     _check_internet_cached E c1 t1 = (v, c1, t1 ++ [time_time; time_time])) /\
  (forall v c1 t1,
     _check_internet_cached E c t = (v, c1, t1) ->
     within_ttl E c1 t1 ->
     _check_internet_cached_async E c1 t1 = (v, c1, t1 ++ [time_time; time_time])).
Proof.
  split; intros v c1 t1 Hcall Hin.
  - assert (Hv : has_internet c1 = v).
    { destruct (cached_async_cases E c t) as [[_ H] | [_ H]]; rewrite H in Hcall;
        inversion Hcall; reflexivity. }
    destruct (cached_cases c1 t1) as [[_ ->] | [Hout _]]; [now rewrite Hv | contradiction].
  - assert (Hv : has_internet c1 = v).
    { destruct (cached_cases c t) as [[_ H] | [_ H]]; rewrite H in Hcall;
        inversion Hcall; reflexivity. }
    destruct (cached_async_cases E c1 t1) as [[_ ->] | [Hout _]];
      [now rewrite Hv | contradiction].
Qed.

End Paths.

End ConnectivityFacts.

(** ** The probes of the connectivity: [utils.py] *)

Module Probe.

(** What an attempt to reach a host does: it connects, it fails with an
    error its [except] clause lists ([OSError] and its kin, a timeout), or
    it raises another [Exception]. *)
Inductive attempt :=
| Connects
| Fails
| Breaks (error : str).

(** The three hosts, and what an attempt on each does. *)
Record network := {
  (* the DNS port of 8.8.8.8 *)
  dns : attempt;
  (* http://1.1.1.1 *)
  by_address : attempt;
  (* http://www.google.com *)
  by_name : attempt
}.

Inductive host := Dns | ByAddress | ByName.

(** [check_internet_connectivity]: the answer and the hosts it tried. *)
Definition check_internet_connectivity (n : network) : outcome bool * list host :=
  match dns n with
  | Connects => (Done true, [Dns])
  | Breaks error => (Raise (OtherError error), [Dns])
  | Fails =>
      match by_address n with
      | Connects => (Done true, [Dns; ByAddress])
      | Breaks error => (Raise (OtherError error), [Dns; ByAddress])
      | Fails =>
          match by_name n with
          | Connects => (Done true, [Dns; ByAddress; ByName])
          | Fails => (Done false, [Dns; ByAddress; ByName])
          | Breaks error => (Raise (OtherError error), [Dns; ByAddress; ByName])
          end
      end
  end.

(** [check_internet_connectivity_async]: its first two [try] have an
    [except Exception] as well. *)
Definition check_internet_connectivity_async (n : network) : outcome bool * list host :=
  match dns n with
  | Connects => (Done true, [Dns])
  | _ =>
      match by_address n with
      | Connects => (Done true, [Dns; ByAddress])
      | Breaks _ => (Done false, [Dns; ByAddress])
      | Fails =>
          match by_name n with
          | Connects => (Done true, [Dns; ByAddress; ByName])
          | Fails => (Done false, [Dns; ByAddress; ByName])
          | Breaks error => (Raise (OtherError error), [Dns; ByAddress; ByName])
          end
      end
  end.

(** What an attempt on a host does. *)
Definition try_host (n : network) (h : host) : attempt :=
  match h with
  | Dns => dns n
  | ByAddress => by_address n
  | ByName => by_name n
  end.

Definition connects (a : attempt) : bool :=
  match a with
  | Connects => true
  | _ => false
  end.

(** X19. Where the synchronous probe answers, the asynchronous one gives the
    same answer after the same attempts; the answer is [True] exactly when
    the last host tried connects, and no host before it does. *)
Theorem async_probe_follows_sync (n : network) answer tried :
  check_internet_connectivity n = (Done answer, tried) ->
  check_internet_connectivity_async n = (Done answer, tried) /\
  (exists before last,
     tried = before ++ [last] /\
     answer = connects (try_host n last) /\
     Forall (fun h => try_host n h = Fails) before).
Proof.
  unfold check_internet_connectivity, check_internet_connectivity_async.
  destruct (dns n) eqn:Ed; [| |discriminate].
  { intros H. inversion H. split; [reflexivity|].
    exists [], Dns. cbn [try_host]. rewrite Ed. repeat split. constructor. }
  destruct (by_address n) eqn:Ea; [| |discriminate].
  { intros H. inversion H. split; [reflexivity|].
    exists [Dns], ByAddress. cbn [try_host]. rewrite Ea. repeat split.
    constructor; [assumption | constructor]. }
  destruct (by_name n) eqn:En; [| |discriminate];
    intros H; inversion H; (split; [reflexivity|]);
    exists [Dns; ByAddress], ByName; cbn [try_host]; rewrite En; repeat split;
    (constructor; [assumption | constructor; [assumption | constructor]]).
Qed.

(** A network where only the host name answers. *)
Definition name_only : network := {| dns := Fails; by_address := Fails; by_name := Connects |}.

Lemma async_probe_follows_sync_witness :
  check_internet_connectivity name_only = (Done true, [Dns; ByAddress; ByName]) /\
  check_internet_connectivity_async name_only = (Done true, [Dns; ByAddress; ByName]) /\
  (exists before last,
     [Dns; ByAddress; ByName] = before ++ [last] /\
     true = connects (try_host name_only last) /\
     Forall (fun h => try_host name_only h = Fails) before).
Proof.
  split; [reflexivity|].
  exact (async_probe_follows_sync name_only true [Dns; ByAddress; ByName] eq_refl).
Defined.

(** X20. The asynchronous probe raises only from its last attempt: an unlisted
    error of the first attempt is passed over, one of the second is
    answered with [False] without a try of the host name; the synchronous
    probe raises at the first unlisted error it meets. *)
Theorem async_probe_raises_last (n : network) e :
  (fst (check_internet_connectivity_async n) = Raise e <->
   connects (dns n) = false /\ by_address n = Fails /\
   exists error, by_name n = Breaks error /\ e = OtherError error) /\
  (fst (check_internet_connectivity n) = Raise e <->
   exists error, e = OtherError error /\
     (dns n = Breaks error \/
      dns n = Fails /\ by_address n = Breaks error \/
      dns n = Fails /\ by_address n = Fails /\ by_name n = Breaks error)).
Proof.
  unfold check_internet_connectivity, check_internet_connectivity_async.
  split; split.
  - destruct (dns n); cbn [fst connects]; try discriminate;
      (destruct (by_address n); cbn [fst]; try discriminate;
       destruct (by_name n); cbn [fst]; try discriminate;
       intros H; inversion H; repeat split; eexists; split; reflexivity).
  - intros (Hd & -> & error & -> & ->). destruct (dns n); [discriminate | |]; reflexivity.
  - destruct (dns n); cbn [fst]; try discriminate.
    + destruct (by_address n); cbn [fst]; try discriminate.
      * destruct (by_name n); cbn [fst]; try discriminate.
        intros H; inversion H. eexists. split; [reflexivity|]. right; right. auto.
      * intros H; inversion H. eexists. split; [reflexivity|]. right; left. auto.
    + intros H; inversion H. eexists. split; [reflexivity|]. now left.
  - intros (error & -> & [-> | [[-> ->] | (-> & -> & ->)]]); reflexivity.
Qed.

End Probe.

(** ** The configuration the manager loads: [load_keywords] and the lists *)

Module Config.

(** [s.endswith(p)] *)
Definition endswith (s p : str) : bool := startswith (rev s) (rev p).

(** [s[i:j]] for a bound [i] that is not negative. *)
Definition slice (s : str) (i j : Z) : str := slice_from (slice_to s j) i.

(** The double quote. *)
Definition quote : str := [34%N].

(** [if response.startswith('"') and response.endswith('"'): response = response[1:-1]] *)
Definition unquote (response : str) : str :=
  if startswith response quote && endswith response quote then slice response 1 (-1)
  else response.

(** [d[key] = value] on a [dict]: a key that is there keeps its place. *)
Fixpoint set_item {A} (d : list (str * A)) (key : str) (value : A) : list (str * A) :=
  match d with
  | [] => [(key, value)]
  | (k, v) :: rest =>
      if str_eqb k key then (k, value) :: rest else (k, v) :: set_item rest key value
  end.

(** [s.split(sep)] for a separator of one character. *)
Fixpoint split (s : str) (sep : N) : list str :=
  match s with
  | [] => [[]]
  | c :: rest =>
      if (c =? sep)%N then [] :: split rest sep
      else
        match split rest sep with
        | field :: fields => (c :: field) :: fields
        | [] => [[c]]
        end
  end.

(** The comma. *)
Definition comma : N := 44.

(** A string is true when it is not empty. *)
Definition nonblank (field : str) : bool :=
  match strip field with
  | [] => false
  | _ :: _ => true
  end.

(** [[x.strip() for x in value.split(',') if x.strip()]] *)
Definition stripped_fields (value : str) : list str :=
  map strip (filter nonblank (split value comma)).

Section Loaders.

(** [str.lower] *)
Variable lower : str -> str.

(** [load_keywords]; [items] is [config.items('Keywords')], and [None]
    where the configuration has no such section. *)
Definition load_keywords (items : option (list (str * str))) : list (str * str) :=
  match items with
  | None => []
  | Some items =>
      fold_left
        (fun keywords item => set_item keywords (lower (fst item)) (unquote (snd item)))
        items []
  end.

(** [load_custom_syntax] *)
Definition load_custom_syntax (items : option (list (str * str))) : list (str * str) :=
  match items with
  | None => []
  | Some items =>
      fold_left (fun patterns item => set_item patterns (fst item) (unquote (snd item)))
        items []
  end.

(** [load_banned_users]; [banned] is the option of the configuration, and
    [None] where it is missing, for which the fallback is the empty string. *)
Definition load_banned_users (banned : option str) : list str :=
  stripped_fields (match banned with Some value => value | None => [] end).

(** [load_monitor_channels] *)
Definition load_monitor_channels (channels : option str) : list str :=
  stripped_fields (match channels with Some value => value | None => [] end).

End Loaders.

(** *** Quotes *)

Lemma startswith_quote body : startswith (quote ++ body) quote = true.
Proof. cbn [quote app startswith]. now rewrite Splitter.startswith_nil. Qed.

Lemma endswith_quote body : endswith (body ++ quote) quote = true.
Proof. unfold endswith. rewrite rev_app_distr. apply startswith_quote. Qed.

(** X21. One pair of double quotes around a response is taken off, and only
    one; a response that is a lone double quote becomes empty; a response
    that lacks the quote at either end is kept as it is. *)
Theorem unquote_takes_one_pair :
  (forall body, unquote (quote ++ body ++ quote) = body) /\
  unquote quote = [] /\
  (forall response,
     startswith response quote = false \/ endswith response quote = false ->
     unquote response = response).
Proof.
  split; [|split].
  - intros body. unfold unquote. rewrite startswith_quote.
    replace (endswith (quote ++ body ++ quote) quote) with true.
    2:{ symmetry. rewrite app_assoc. apply endswith_quote. }
    cbn [andb].
    unfold slice, slice_to, slice_from, slice_bound, len.
    change (-1 <? 0) with true. cbv iota.
    change (1 <? 0) with false. cbv iota.
    replace (Z.to_nat (Z.max 0 (Z.of_nat (length (quote ++ body ++ quote)) + -1)))
      with (length (quote ++ body)).
    2:{ rewrite !length_app. cbn [length quote]. lia. }
    replace (quote ++ body ++ quote) with ((quote ++ body) ++ quote)
      by now rewrite <- app_assoc.
    rewrite firstn_app, Nat.sub_diag, firstn_all. cbn [firstn]. rewrite app_nil_r.
    reflexivity.
  - reflexivity.
  - intros response [H | H]; unfold unquote; rewrite H; [reflexivity|].
    now rewrite andb_false_r.
Qed.

(** *** The table of keywords *)

Lemma get_set_item {A} (d : list (str * A)) key value :
  get (set_item d key value) key = Some value.
Proof.
  induction d as [|[k v] rest IH]; cbn [set_item get].
  - assert (H : str_eqb key key = true) by now apply str_eqb_eq.
    now rewrite H.
  - destruct (str_eqb k key) eqn:Ek; cbn [get]; rewrite Ek; [reflexivity | assumption].
Qed.

Lemma get_set_other {A} (d : list (str * A)) key value other :
  other <> key -> get (set_item d key value) other = get d other.
Proof.
  intros Hne. induction d as [|[k v] rest IH]; cbn [set_item get].
  - destruct (str_eqb key other) eqn:Ek; [|reflexivity].
    apply str_eqb_eq in Ek. congruence.
  - destruct (str_eqb k key) eqn:Ek; cbn [get]; [|now rewrite IH].
    apply str_eqb_eq in Ek. subst k.
    destruct (str_eqb key other) eqn:Eo; [|reflexivity].
    apply str_eqb_eq in Eo. congruence.
Qed.

Lemma keys_set_item {A} (d : list (str * A)) key value :
  forall k, In k (map fst (set_item d key value)) -> k = key \/ In k (map fst d).
Proof.
  induction d as [|[k0 v] rest IH]; intros k; cbn [set_item map fst In].
  - intros [H | []]. now left.
  - destruct (str_eqb k0 key); cbn [map fst In].
    + intros [H | H]; right; [now left | now right].
    + intros [H | H]; [right; now left|]. apply IH in H. destruct H; [now left | right; now right].
Qed.

Lemma NoDup_set_item {A} (d : list (str * A)) key value :
  NoDup (map fst d) -> NoDup (map fst (set_item d key value)).
Proof.
  induction d as [|[k v] rest IH]; intros Hnd; cbn [set_item map fst].
  - constructor; [intros [] | constructor].
  - inversion Hnd as [|? ? Hnotin Hrest]; subst.
    destruct (str_eqb k key) eqn:Ek; cbn [map fst]; [now constructor|].
    constructor; [|now apply IH].
    intros Hin. apply keys_set_item in Hin. destruct Hin as [-> | Hin]; [|contradiction].
    assert (H : str_eqb key key = true) by now apply str_eqb_eq.
    congruence.
Qed.

Lemma values_set_item {A} (d : list (str * A)) key value :
  forall k v, In (k, v) (set_item d key value) -> (k = key /\ v = value) \/ In (k, v) d.
Proof.
  induction d as [|[k0 v0] rest IH]; intros k v; cbn [set_item In].
  - intros [H | []]. inversion H. now left.
  - destruct (str_eqb k0 key) eqn:Ek; cbn [In].
    + apply str_eqb_eq in Ek. subst k0.
      intros [H | H]; [inversion H; now left | right; now right].
    + intros [H | H]; [right; now left|].
      apply IH in H. destruct H; [now left | right; now right].
Qed.

Section Table.

Variable lower : str -> str.

(** The table after the items [items] were put into the table [d]. *)
Definition put (d : list (str * str)) (items : list (str * str)) : list (str * str) :=
  fold_left (fun keywords item => set_item keywords (lower (fst item)) (unquote (snd item)))
    items d.

Lemma put_keys items : forall d, NoDup (map fst d) -> NoDup (map fst (put d items)).
Proof.
  induction items as [|item rest IH]; intros d Hd; [assumption|].
  apply IH. now apply NoDup_set_item.
Qed.

Lemma put_from items : forall d k v,
  In (k, v) (put d items) ->
  In (k, v) d \/
  exists keyword response,
    In (keyword, response) items /\ k = lower keyword /\ v = unquote response.
Proof.
  induction items as [|[keyword response] rest IH]; intros d k v Hin; [now left|].
  cbn [put fold_left fst snd] in Hin. apply IH in Hin.
  destruct Hin as [Hin | (kw & r & Hin & Hk & Hv)].
  - apply values_set_item in Hin. destruct Hin as [[-> ->] | Hin]; [|now left].
    right. exists keyword, response. split; [now left | now split].
  - right. exists kw, r. split; [now right | now split].
Qed.

Lemma put_keeps items key : forall d,
  Forall (fun item => lower (fst item) <> key) items ->
  get (put d items) key = get d key.
Proof.
  induction items as [|item rest IH]; intros d Hall; [reflexivity|].
  inversion Hall as [|? ? Hne Hrest]; subst.
  cbn [put fold_left]. fold (put (set_item d (lower (fst item)) (unquote (snd item))) rest).
  rewrite IH by assumption. apply get_set_other. congruence.
Qed.

Lemma put_app d a b : put d (a ++ b) = put (put d a) b.
Proof. apply fold_left_app. Qed.

(** X22. The table [load_keywords] makes has every key once; each entry comes
    from an item of the section, with the keyword in lower case and the
    response unquoted; and of the items whose keywords agree in lower case
    the last one gives the response. *)
Theorem load_keywords_last_wins (items : list (str * str)) :
  NoDup (map fst (load_keywords lower (Some items))) /\
  (forall k v,
     In (k, v) (load_keywords lower (Some items)) ->
     exists keyword response,
       In (keyword, response) items /\ k = lower keyword /\ v = unquote response) /\
  (forall before keyword response after,
     items = before ++ (keyword, response) :: after ->
     Forall (fun item => lower (fst item) <> lower keyword) after ->
     get (load_keywords lower (Some items)) (lower keyword) = Some (unquote response)).
Proof.
  cbn [load_keywords]. fold (put [] items). split; [|split].
  - apply put_keys. constructor.
  - intros k v Hin. apply put_from in Hin. destruct Hin as [[] | H]. exact H.
  - intros before keyword response after -> Hafter.
    rewrite put_app. cbn [put fold_left fst snd].
    fold (put (set_item (put [] before) (lower keyword) (unquote response)) after).
    rewrite put_keeps by assumption. apply get_set_item.
Qed.

End Table.

(** *** The lists *)

Lemma split_nonempty s sep : split s sep <> [].
Proof.
  destruct s as [|c rest]; cbn [split]; [discriminate|].
  destruct (c =? sep)%N; [discriminate|]. destruct (split rest sep); discriminate.
Qed.

(** No field has the separator in it. *)
Lemma split_fields s sep : Forall (fun field => ~ In sep field) (split s sep).
Proof.
  induction s as [|c rest IH]; cbn [split].
  - constructor; [intros [] | constructor].
  - destruct (c =? sep)%N eqn:Ec.
    + constructor; [intros [] | assumption].
    + apply N.eqb_neq in Ec. destruct (split rest sep) as [|field fields].
      * constructor; [|constructor]. intros [H | []]. congruence.
      * inversion IH as [|? ? Hf Hfs]; subst. constructor; [|assumption].
        intros [H | H]; [congruence | contradiction].
Qed.

(** A string without the separator is one field. *)
Lemma split_one s sep : ~ In sep s -> split s sep = [s].
Proof.
  induction s as [|c rest IH]; intros Hno; [reflexivity|].
  cbn [split]. destruct (c =? sep)%N eqn:Ec.
  - apply N.eqb_eq in Ec. elim Hno. now left.
  - rewrite IH; [reflexivity|]. intros H. apply Hno. now right.
Qed.

Lemma split_field field rest sep :
  ~ In sep field -> split (field ++ sep :: rest) sep = field :: split rest sep.
Proof.
  induction field as [|c field IH]; intros Hno; cbn [app split].
  - now rewrite N.eqb_refl.
  - destruct (c =? sep)%N eqn:Ec.
    + apply N.eqb_eq in Ec. elim Hno. now left.
    + rewrite IH; [reflexivity|]. intros H. apply Hno. now right.
Qed.

(** [split] undoes [join]. *)
Lemma split_join sep fields :
  fields <> [] -> Forall (fun field => ~ In sep field) fields ->
  split (Matching.join [sep] fields) sep = fields.
Proof.
  induction fields as [|field rest IH]; intros Hne Hall; [congruence|].
  inversion Hall as [|? ? Hf Hrest]; subst.
  destruct rest as [|next rest].
  - cbn [Matching.join]. now apply split_one.
  - change (Matching.join [sep] (field :: next :: rest))
      with (field ++ sep :: Matching.join [sep] (next :: rest)).
    rewrite split_field by assumption. f_equal. apply IH; [discriminate | assumption].
Qed.

Lemma lstrip_in c s : In c (lstrip s) -> In c s.
Proof.
  destruct (Splitter.lstrip_decomp s) as (w & _ & E). intros H. rewrite E. apply in_or_app. now right.
Qed.

Lemma rstrip_in c s : In c (rstrip s) -> In c s.
Proof.
  destruct (Splitter.rstrip_decomp s) as (w & _ & E). intros H. rewrite E. apply in_or_app. now left.
Qed.

Lemma strip_in c s : In c (strip s) -> In c s.
Proof. unfold strip. intros H. apply lstrip_in. now apply rstrip_in. Qed.

(** A string that begins with no whitespace. *)
Definition flush (s : str) : Prop :=
  match s with
  | [] => True
  | c :: _ => isspace c = false
  end.

Lemma lstrip_flush s : flush (lstrip s).
Proof.
  induction s as [|c rest IH]; cbn [lstrip]; [exact I|].
  destruct (isspace c) eqn:Ec; [assumption | exact Ec].
Qed.

Lemma flush_lstrip s : flush s -> lstrip s = s.
Proof. destruct s as [|c rest]; cbn [flush lstrip]; [reflexivity|]. now intros ->. Qed.

Lemma rstrip_involutive s : rstrip (rstrip s) = rstrip s.
Proof.
  unfold rstrip. rewrite rev_involutive. f_equal. apply flush_lstrip, lstrip_flush.
Qed.

(** What [rstrip] leaves of a string that begins with no whitespace
    begins with none. *)
Lemma rstrip_flush s : flush s -> flush (rstrip s).
Proof.
  intros Hs. destruct (Splitter.rstrip_decomp s) as (w & Hw & E).
  destruct (rstrip s) as [|c rest] eqn:Er; [exact I|].
  rewrite E in Hs. exact Hs.
Qed.

Lemma strip_involutive s : strip (strip s) = strip s.
Proof.
  unfold strip. rewrite (flush_lstrip (rstrip (lstrip s))).
  - apply rstrip_involutive.
  - apply rstrip_flush, lstrip_flush.
Qed.

(** X23. The lists of banned users and of monitored channels hold the fields
    between the commas of the option, in their order, without the
    whitespace around them and without the blank ones: no entry is empty,
    none has whitespace at an end or a comma in it. *)
Theorem lists_hold_clean_fields (value : option str) :
  load_monitor_channels value = load_banned_users value /\
  Forall (fun entry => entry <> [] /\ strip entry = entry /\ ~ In comma entry)
    (load_banned_users value) /\
  (forall fields,
     Forall (fun field => ~ In comma field) fields ->
     load_banned_users (Some (Matching.join [comma] fields))
     = map strip (filter nonblank fields)).
Proof.
  split; [reflexivity|]. split.
  - unfold load_banned_users, stripped_fields.
    generalize (match value with Some v => v | None => [] end). intros s.
    pose proof (split_fields s comma) as Hf.
    induction (split s comma) as [|field fields IH]; [constructor|].
    inversion Hf as [|? ? Hfield Hrest]; subst. cbn [filter].
    destruct (nonblank field) eqn:En; [|now apply IH].
    cbn [map]. constructor; [|now apply IH].
    split; [|split].
    + unfold nonblank in En. destruct (strip field); [discriminate | discriminate].
    + apply strip_involutive.
    + intros H. apply Hfield. now apply strip_in.
  - intros fields Hall. unfold load_banned_users, stripped_fields.
    destruct fields as [|field rest]; [reflexivity|].
    rewrite split_join; [reflexivity | discriminate | assumption].
Qed.

End Config.
